(** * Chunked relay upload of the Zipline bot

    A shallow embedding of [ziplinePartialUpload] and [sendPartialChunk]
    (commands/zipline.js) together with the properties of the chunked
    upload engine.

    What is modelled, and how:
    - JavaScript numbers that hold byte counts are [Z]; a [Buffer] is a
      list of bytes and [Buffer.slice] keeps its clamping of negative and
      oversized indices.
    - The download body is a Node readable stream.  Its async iterator
      yields [{value: fragment, done: false}] for every fragment and then
      either [{value: undefined, done: true}] or a rejection; the stream is
      therefore the list of its fragments, together with the way it ends.
    - The destination server is a state machine [serve] answering one request
      at a time.  An answer is either a status code with the value the body
      denotes (what [JSON.parse] yields, or the text itself when it does not
      parse), or none: [NetworkError] stands for every way in which
      [sendPartialChunk] ends without one, such as a [fetch] that rejects or
      a body that cannot be read.
    - The local disk is a finite map from paths to contents.  Whether a call
      of [fs.writeFileSync] or [fs.unlinkSync] throws is decided by the
      environment ([stageWrite], [unlinkThrows]), and the theorems hold
      whatever it decides unless they say otherwise.
    - What JavaScript makes of [v > 0] when [v] is a string, an array or an
      object is left to the environment as well ([jsPositive]).
    - Everything the function does to the outside world is appended to a log
      ([Wrote], [Sent], [Removed], [Progress]).  [Held] entries record the
      number of bytes that [accumulatedChunks] and [buffer] hold, counted
      separately, after each statement that changes one of them.
    - The [while] loops that are not bounded by the stream take fuel;
      [OutOfFuel] is a separate outcome, and the theorems show that it does
      not occur for a positive chunk size and enough fuel.
    - Console diagnostics and the multipart framing ([Content-Length] of the
      form) are not modelled. *)

From Stdlib Require Import ZArith Lia.
From Stdlib Require DecimalString DecimalNat.
From stdpp Require Import gmap strings list.

Local Open Scope string_scope.
Local Open Scope list_scope.
Local Open Scope Z_scope.

(** ** JavaScript values *)

(** The value of a response body.  Numbers are the integers: byte counts,
    page numbers and identifiers are all the code reads as numbers. *)
#[local] Unset Elimination Schemes.
Inductive Json : Type :=
| JNull
| JBool (b : bool)
| JNum (n : Z)
| JStr (s : string)
| JArr (items : list Json)
| JObj (fields : list (string * Json)).
#[local] Set Elimination Schemes.

(** [Boolean(v)]: what [if (v)] and [v && ...] test. *)
Definition truthy (v : Json) : bool :=
  match v with
  | JNull => false
  | JBool b => b
  | JNum n => negb (n =? 0)
  | JStr s => negb (String.eqb s "")
  | JArr _ => true
  | JObj _ => true
  end.

(** The last binding of [k] wins, as in [JSON.parse]. *)
Fixpoint lookupField (k : string) (fields : list (string * Json)) : option Json :=
  match fields with
  | [] => None
  | (k', v) :: rest =>
      match lookupField k rest with
      | Some v' => Some v'
      | None => if String.eqb k k' then Some v else None
      end
  end.

(** [v.k] for the property names the upload code reads; [None] is
    [undefined]. *)
Definition prop (v : Json) (k : string) : option Json :=
  match v with
  | JObj fields => lookupField k fields
  | JArr items => if String.eqb k "length" then Some (JNum (Z.of_nat (length items))) else None
  | JStr s => if String.eqb k "length" then Some (JNum (Z.of_nat (String.length s))) else None
  | _ => None
  end.

(** [resp && resp.partialIdentifier], with the identifier it yields. *)
Definition assignedIdentifier (resp : Json) : option Json :=
  if truthy resp then
    match prop resp "partialIdentifier" with
    | Some v => if truthy v then Some v else None
    | None => None
    end
  else None.

(** [resp && resp.partialSuccess === false] *)
Definition partialFailed (resp : Json) : bool :=
  truthy resp &&
  match prop resp "partialSuccess" with
  | Some (JBool false) => true
  | _ => false
  end.

(** ** Buffers *)

Definition Buffer : Type := list Byte.byte.

Definition blen (b : Buffer) : Z := Z.of_nat (length b).

(** Index normalisation of [Buffer.slice]: a negative index counts from the
    end, and everything is clamped to the buffer. *)
Definition clampIndex (n i : Z) : Z :=
  if i <? 0 then Z.max (n + i) 0 else Z.min i n.

(** [b.slice(start, stop)] *)
Definition slice (b : Buffer) (start stop : Z) : Buffer :=
  let s := clampIndex (blen b) start in
  let e := clampIndex (blen b) stop in
  take (Z.to_nat (e - s)) (drop (Z.to_nat s) b).

(** [b.slice(start)] *)
Definition sliceFrom (b : Buffer) (start : Z) : Buffer :=
  slice b start (blen b).

(** [Buffer.concat(chunks)] *)
Definition bufferConcat (chunks : list Buffer) : Buffer := concat chunks.

(** ** Requests, replies and the observable log *)

Record Settings : Type := {
  expiry : option string;
  compression : option string
}.

(** The destructured argument of [ziplinePartialUpload].  [onProgress] tells
    whether a callback was supplied.  The callback of the upload command is
    an [async] function whose promise is not awaited: the call returns
    whatever happens inside it. *)
Record Args : Type := {
  baseUrl : string;
  authToken : string;
  fileUrl : string;
  filename : string;
  contentLength : Z;
  contentType : option string;
  anon : bool;
  settings : Settings;
  onProgress : bool
}.

(** One POST of [sendPartialChunk].  [Content-Range] is
    [bytes rangeStart-rangeEnd/rangeTotal]. *)
Record Request : Type := {
  url : string;
  hAuthorization : string;
  rangeStart : Z;
  rangeEnd : Z;
  rangeTotal : Z;
  pFilename : string;
  pContentType : string;
  pContentLength : Z;
  pLastchunk : bool;
  pIdentifier : option Json;
  hDeletesAt : option string;
  hCompression : option string;
  body : Buffer
}.

Inductive Reply : Type :=
| NetworkError
| HttpReply (status : Z) (parsed : Json).

(** [res.ok] *)
Definition statusOk (status : Z) : bool := (200 <=? status) && (status <=? 299).

(** What the function can throw: the download could not be started
    ([fetch] rejects) or has a bad status, the stream of the download
    rejects, a file-system call throws, the POST of a chunk is rejected or
    answered with a bad status, the comparison of [resp.files.length] cannot
    convert its operand, or the server says [partialSuccess: false]. *)
Inductive Error : Type :=
| DownloadRejected
| DownloadFailed
| StreamFailed
| WriteFailed (path : string)
| UnlinkFailed (path : string)
| NoSuchFile (path : string)
| FetchRejected
| PartialUploadFailed (status : Z) (txt : Json)
| NotConvertible
| PartialSuccessFalse.

(** Errors of [fs.writeFileSync] and [fs.unlinkSync]. *)
Definition diskError (e : Error) : bool :=
  match e with
  | WriteFailed _ | UnlinkFailed _ | NoSuchFile _ => true
  | _ => false
  end.

(** What a call of [fs.writeFileSync] does: it writes the file, or it throws
    and leaves at the path what it had written by then, if anything. *)
Inductive WriteResult : Type :=
| Written
| WriteThrows (partial : option Buffer).

Inductive Event : Type :=
| Held (n : Z)
| Wrote (path : string) (data : Buffer)
| Sent (req : Request) (reply : Reply)
| Removed (path : string)
| Progress (uploaded total : Z).

(** What [fetch(fileUrl)] gives: a rejection, a response with a bad status,
    a body that delivers its fragments and ends, or a body that delivers its
    fragments and then fails. *)
Inductive Download : Type :=
| DownloadNoAnswer
| DownloadNotOk
| DownloadBody (fragments : list Buffer)
| DownloadBroken (fragments : list Buffer).

Definition fragmentsOf (dlRes : Download) : list Buffer :=
  match dlRes with
  | DownloadBody fragments | DownloadBroken fragments => fragments
  | _ => []
  end.

(** The session variables of the coordinator. *)
Record Session : Type := {
  uploadedBytes : Z;
  partialIdentifier : Json
}.

(** The buffers of the re-chunker. *)
Record Buffers : Type := {
  accumulatedChunks : list Buffer;
  accumulatedLen : Z;
  buffer : Buffer
}.

(** Bytes not yet handed to an upload. *)
Definition heldBytes (b : Buffers) : Z :=
  blen (bufferConcat (accumulatedChunks b)) + blen (buffer b).

(** [s.replace(/\/$/, '')] *)
Fixpoint stripTrailingSlash (s : string) : string :=
  match s with
  | EmptyString => EmptyString
  | String c EmptyString => if String.eqb s "/" then EmptyString else s
  | String c rest => String c (stripTrailingSlash rest)
  end.

Section Upload.

(** [CHUNK_SIZE], read from the configuration. *)
Variable CHUNK_SIZE : Z.

(** The text [`${Date.now()}_${Math.random().toString(36).substring(7)}`]
    of the n-th staged chunk of the process. *)
Variable tmpStamp : nat -> string.

(** The destination server. *)
Variable ServerState : Type.
Variable serve : ServerState -> Request -> ServerState * Reply.

(** [v > 0] for a [v] that is a string, an array or an object.  JavaScript
    converts such a [v] to a number first: a string by reading it as a
    numeric literal, an array through the text of its elements.  [Some b] is
    what the comparison then gives, and [None] says that the conversion
    throws a [TypeError], as it does for an object that has a [toString]
    property of its own.  The function is not spelled out: every theorem
    holds whatever it is. *)
Variable jsPositive : Json -> option bool.

(** The file system.  [stageWrite n data] is what [fs.writeFileSync] does
    when the n-th chunk is staged.  [unlinkThrows n early] says whether
    [fs.unlinkSync] throws on the file of the n-th chunk although the file is
    there: [early] is [true] for the call that follows a reply with files,
    and [false] for the call in the [finally] block. *)
Variable stageWrite : nat -> Buffer -> WriteResult.
Variable unlinkThrows : nat -> bool -> bool.

(** [v > 0].  Numbers compare as they are, [true] counts as 1, [null] as 0,
    and [undefined] never compares greater. *)
Definition gtZero (v : option Json) : option bool :=
  match v with
  | None => Some false
  | Some JNull => Some false
  | Some (JBool b) => Some b
  | Some (JNum n) => Some (0 <? n)
  | Some v => jsPositive v
  end.

(** [resp && resp.files && resp.files.length > 0]; [None] when the
    comparison throws. *)
Definition hasFiles (resp : Json) : option bool :=
  if truthy resp then
    match prop resp "files" with
    | Some f => if truthy f then gtZero (prop f "length") else Some false
    | None => Some false
    end
  else Some false.

Record World : Type := {
  files : gmap string Buffer;
  server : ServerState;
  staged : nat;
  log : list Event
}.

Definition record (e : Event) (w : World) : World :=
  {| files := files w; server := server w; staged := staged w;
     log := log w ++ [e] |}.

(** [fs.writeFileSync(path, data)], with what the call does.  When it throws
    the path holds what the call left there. *)
Definition writeFileSync (result : WriteResult) (path : string) (data : Buffer)
    (w : World) : option Error * World :=
  match result with
  | Written =>
      (None,
       record (Wrote path data)
         {| files := <[path := data]> (files w); server := server w;
            staged := staged w; log := log w |})
  | WriteThrows (Some partial) =>
      (Some (WriteFailed path),
       record (Wrote path partial)
         {| files := <[path := partial]> (files w); server := server w;
            staged := staged w; log := log w |})
  | WriteThrows None => (Some (WriteFailed path), w)
  end.

(** [fs.existsSync(path)] *)
Definition existsSync (path : string) (w : World) : bool :=
  bool_decide (is_Some (files w !! path)).

(** [fs.unlinkSync(path)]: raises when the file is not there, and when the
    file system refuses ([throws]). *)
Definition unlinkSync (throws : bool) (path : string) (w : World)
    : Error + World :=
  match files w !! path with
  | Some _ =>
      if throws then inl (UnlinkFailed path)
      else
        inr (record (Removed path)
               {| files := delete path (files w); server := server w;
                  staged := staged w; log := log w |})
  | None => inl (NoSuchFile path)
  end.

(** The name of the next staged chunk, with the world in which the clock
    and the random source have moved on. *)
Definition freshChunkPath (w : World) : string * World :=
  ("tmp_chunk_" +:+ tmpStamp (staged w) +:+ ".bin",
   {| files := files w; server := server w; staged := S (staged w);
      log := log w |}).

(** How a block of the function ends. *)
Inductive Outcome (A : Type) : Type :=
| Normal (a : A) (s : Session) (w : World)
| Returned (resp : Json) (s : Session) (w : World)
| Threw (e : Error) (s : Session) (w : World)
| OutOfFuel.

Arguments Normal {A} a s w.
Arguments Returned {A} resp s w.
Arguments Threw {A} e s w.
Arguments OutOfFuel {A}.

Definition andThen {A B : Type} (o : Outcome A)
    (k : A -> Session -> World -> Outcome B) : Outcome B :=
  match o with
  | Normal a s w => k a s w
  | Returned resp s w => Returned resp s w
  | Threw e s w => Threw e s w
  | OutOfFuel => OutOfFuel
  end.

(** [sendPartialChunk], called with a [filePath] as the coordinator does.
    The chunk length is that of the staged file. *)
Definition sendPartialChunk (url' authToken' filePath filename' : string)
    (contentType' : option string) (contentLength' : Z)
    (partialIdentifier' : Json) (isLast : bool) (settings' : Settings)
    (uploadedBytes' : Z) (w : World) : (Error + Json) * World :=
  match files w !! filePath with
  | None => (inl (NoSuchFile filePath), w)
  | Some data =>
      let chunkLen := blen data in
      let mime :=
        match contentType' with
        | Some t => if String.eqb t "" then "application/octet-stream" else t
        | None => "application/octet-stream"
        end in
      let nonEmpty (o : option string) :=
        match o with
        | Some t => if String.eqb t "" then None else Some t
        | None => None
        end in
      let req :=
        {| url := url';
           hAuthorization := authToken';
           rangeStart := uploadedBytes';
           rangeEnd := uploadedBytes' + chunkLen - 1;
           rangeTotal := contentLength';
           pFilename := filename';
           pContentType := mime;
           pContentLength := contentLength';
           pLastchunk := isLast;
           pIdentifier :=
             if truthy partialIdentifier' then Some partialIdentifier' else None;
           hDeletesAt := nonEmpty (expiry settings');
           hCompression := nonEmpty (compression settings');
           body := data |} in
      let '(srv, reply) := serve (server w) req in
      let w' :=
        record (Sent req reply)
          {| files := files w; server := srv; staged := staged w;
             log := log w |} in
      match reply with
      | NetworkError => (inl FetchRejected, w')
      | HttpReply status parsed =>
          if statusOk status then (inr parsed, w')
          else (inl (PartialUploadFailed status parsed), w')
      end
  end.

(** The [finally] block of the n-th chunk attempt. *)
Definition releaseChunk (n : nat) (tmpChunkPath : string) (w : World)
    : Error + World :=
  if existsSync tmpChunkPath w
  then unlinkSync (unlinkThrows n false) tmpChunkPath w
  else inr w.

(** [try { o } finally { fin }]: [fin] runs however [o] ended, and an
    error of [fin] replaces the way [o] ended. *)
Definition tryFinally {A : Type} (o : Outcome A) (fin : World -> Error + World)
    : Outcome A :=
  match o with
  | Normal a s w =>
      match fin w with inl e => Threw e s w | inr w' => Normal a s w' end
  | Returned resp s w =>
      match fin w with inl e => Threw e s w | inr w' => Returned resp s w' end
  | Threw e0 s w =>
      match fin w with inl e => Threw e s w | inr w' => Threw e0 s w' end
  | OutOfFuel => OutOfFuel
  end.

Variable args : Args.

Definition partialUrl : string :=
  stripTrailingSlash (baseUrl args) +:+ "/api/upload/partial".

(** The [try] block of the n-th chunk attempt: the exchange and its
    classification. *)
Definition exchangeChunk (n : nat) (tmpChunkPath : string) (sending : Buffer)
    (effectiveContentLength : Z) (isLast : bool) (s : Session) (w : World)
    : Outcome unit :=
  match
    sendPartialChunk partialUrl (authToken args) tmpChunkPath (filename args)
      (contentType args) effectiveContentLength (partialIdentifier s) isLast
      (settings args) (uploadedBytes s) w
  with
  | (inl e, w) => Threw e s w
  | (inr resp, w) =>
      match hasFiles resp with
      | None => Threw NotConvertible s w
      | Some true =>
          match unlinkSync (unlinkThrows n true) tmpChunkPath w with
          | inl e => Threw e s w
          | inr w => Returned resp s w
          end
      | Some false =>
          let s :=
            match assignedIdentifier resp with
            | Some ident =>
                {| uploadedBytes := uploadedBytes s; partialIdentifier := ident |}
            | None => s
            end in
          if partialFailed resp then Threw PartialSuccessFalse s w
          else Normal tt s w
      end
  end.

(** One chunk attempt, from [WRITE TO DISK] to the progress call: the
    chunk is staged, sent and released.  [isRefEmpty] is computed by the
    caller from the buffers, which the attempt does not touch.  The write
    comes before the [try]: when it throws, nothing is sent and nothing is
    cleaned up. *)
Definition uploadChunk (sending : Buffer) (isRefEmpty : bool)
    (s : Session) (w : World) : Outcome unit :=
  let n := staged w in
  let '(tmpChunkPath, w) := freshChunkPath w in
  match writeFileSync (stageWrite n sending) tmpChunkPath sending w with
  | (Some e, w) => Threw e s w
  | (None, w) =>
      let effectiveContentLength :=
        if isRefEmpty then uploadedBytes s + blen sending
        else contentLength args in
      let isLast := effectiveContentLength <=? uploadedBytes s + blen sending in
      andThen
        (tryFinally
           (exchangeChunk n tmpChunkPath sending effectiveContentLength isLast
              s w)
           (releaseChunk n tmpChunkPath))
        (fun _ s w =>
           let s :=
             {| uploadedBytes := uploadedBytes s + blen sending;
                partialIdentifier := partialIdentifier s |} in
           let w :=
             if onProgress args
             then record (Progress (uploadedBytes s) (contentLength args)) w
             else w in
           Normal tt s w)
  end.

(** ** The re-chunker loops *)

(** [accumulatedChunks.push(b); accumulatedLen += b.length] *)
Definition pushChunk (b : Buffer) (bufs : Buffers) : Buffers :=
  {| accumulatedChunks := accumulatedChunks bufs ++ [b];
     accumulatedLen := accumulatedLen bufs + blen b;
     buffer := buffer bufs |}.

(** [buffer] is no more: it was set to an empty buffer, or its block has
    ended. *)
Definition dropBuffer (bufs : Buffers) : Buffers :=
  {| accumulatedChunks := accumulatedChunks bufs;
     accumulatedLen := accumulatedLen bufs;
     buffer := [] |}.

Definition sample (bufs : Buffers) (w : World) : World :=
  record (Held (heldBytes bufs)) w.

(** [n >= CHUNK_SIZE || (done && n > 0)], the condition of both inner
    loops. *)
Definition wants (n : Z) (done : bool) : bool :=
  (CHUNK_SIZE <=? n) || (done && (0 <? n)).

(** The innermost loop: slice chunks out of the consolidated buffer. *)
Fixpoint sliceLoop (fuel : nat) (done : bool) (bufs : Buffers) (s : Session)
    (w : World) : Outcome Buffers :=
  if wants (blen (buffer bufs)) done then
    match fuel with
    | O => OutOfFuel
    | S fuel' =>
        if negb done && (blen (buffer bufs) <? CHUNK_SIZE) then
          (* push the remainder back, empty [buffer] and [break] *)
          let pushed := pushChunk (buffer bufs) bufs in
          let w := sample pushed w in
          let bufs := dropBuffer pushed in
          Normal bufs s (sample bufs w)
        else
          let amountToSend := Z.min (blen (buffer bufs)) CHUNK_SIZE in
          let sending := slice (buffer bufs) 0 amountToSend in
          let remainder := sliceFrom (buffer bufs) amountToSend in
          let bufs :=
            {| accumulatedChunks := accumulatedChunks bufs;
               accumulatedLen := accumulatedLen bufs;
               buffer := remainder |} in
          let w := sample bufs w in
          let isRefEmpty :=
            (blen (buffer bufs) =? 0)
            && (Z.of_nat (length (accumulatedChunks bufs)) =? 0)
            && done in
          andThen (uploadChunk sending isRefEmpty s w)
            (fun _ s w => sliceLoop fuel' done bufs s w)
    end
  else Normal bufs s w.

(** The middle loop: consolidate what was accumulated, slice it, and keep
    the remainder.  Right after [Buffer.concat] the bytes are held twice, in
    [accumulatedChunks] and in [buffer], and so is the remainder once it is
    pushed back, until the block of [buffer] ends. *)
Fixpoint drainLoop (fuel : nat) (done : bool) (bufs : Buffers) (s : Session)
    (w : World) : Outcome Buffers :=
  if wants (accumulatedLen bufs) done then
    match fuel with
    | O => OutOfFuel
    | S fuel' =>
        (* let buffer = Buffer.concat(accumulatedChunks) *)
        let both :=
          {| accumulatedChunks := accumulatedChunks bufs;
             accumulatedLen := accumulatedLen bufs;
             buffer := bufferConcat (accumulatedChunks bufs) |} in
        let w := sample both w in
        (* accumulatedChunks = []; accumulatedLen = 0 *)
        let bufs :=
          {| accumulatedChunks := [];
             accumulatedLen := 0;
             buffer := buffer both |} in
        let w := sample bufs w in
        andThen (sliceLoop fuel done bufs s w)
          (fun bufs s w =>
             if 0 <? blen (buffer bufs) then
               let pushed := pushChunk (buffer bufs) bufs in
               let w := sample pushed w in
               let bufs := dropBuffer pushed in
               drainLoop fuel' done bufs s (sample bufs w)
             else
               let bufs := dropBuffer bufs in
               drainLoop fuel' done bufs s (sample bufs w))
    end
  else Normal bufs s w.

(** The outer loop: one iteration per result of [iterator.next()].  A
    fragment is a [Buffer] object, hence truthy even when empty.  After the
    fragments the iterator says [done], or it rejects ([rejects]) and the
    function throws where it stands. *)
Fixpoint readLoop (fuel : nat) (stream : list Buffer) (rejects : bool)
    (bufs : Buffers) (s : Session) (w : World) : Outcome unit :=
  match stream with
  | value :: rest =>
      let bufs := pushChunk value bufs in
      let w := sample bufs w in
      andThen (drainLoop fuel false bufs s w)
        (fun bufs s w => readLoop fuel rest rejects bufs s w)
  | [] =>
      if rejects then Threw StreamFailed s w
      else andThen (drainLoop fuel true bufs s w) (fun _ s w => Normal tt s w)
  end.

Definition initialBuffers : Buffers :=
  {| accumulatedChunks := []; accumulatedLen := 0; buffer := [] |}.

Definition initialSession : Session :=
  {| uploadedBytes := 0; partialIdentifier := JNull |}.

Definition ziplinePartialUpload (fuel : nat) (dlRes : Download) (w : World)
    : Outcome unit :=
  match dlRes with
  | DownloadNoAnswer => Threw DownloadRejected initialSession w
  | DownloadNotOk => Threw DownloadFailed initialSession w
  | DownloadBody stream =>
      andThen (readLoop fuel stream false initialBuffers initialSession w)
        (fun _ s w => Returned (JObj [("partialSuccess", JBool true)]) s w)
  | DownloadBroken stream =>
      andThen (readLoop fuel stream true initialBuffers initialSession w)
        (fun _ s w => Returned (JObj [("partialSuccess", JBool true)]) s w)
  end.


(** ** Observations on outcomes and logs *)

Definition outWorld {A : Type} (o : Outcome A) : option World :=
  match o with
  | Normal _ _ w | Returned _ _ w | Threw _ _ w => Some w
  | OutOfFuel => None
  end.

Definition outSession {A : Type} (o : Outcome A) : option Session :=
  match o with
  | Normal _ s _ | Returned _ s _ | Threw _ s _ => Some s
  | OutOfFuel => None
  end.

Definition outLog {A : Type} (o : Outcome A) : list Event :=
  match outWorld o with
  | Some w => log w
  | None => []
  end.

(** A world whose log is still empty. *)
Definition startWorld (disk : gmap string Buffer) (srv : ServerState) (n : nat)
    : World :=
  {| files := disk; server := srv; staged := n; log := [] |}.

(** ** The schedule of a transfer

    The control flow of the three loops depends on the buffers only, never on
    what the server answers, except that a chunk attempt may end the function.
    [readPlan] lists, in order, what the loops will ask for; [perform] carries
    a schedule out.  [readLoop_plan] shows that the loops are the
    composition of the two. *)

Inductive Action : Type :=
| Sample (n : Z)
| Piece (sending : Buffer) (isRefEmpty : bool)
| Broken
| Exhausted.

Fixpoint perform (plan : list Action) (s : Session) (w : World) : Outcome unit :=
  match plan with
  | [] => Normal tt s w
  | Sample n :: rest => perform rest s (record (Held n) w)
  | Piece sending isRefEmpty :: rest =>
      andThen (uploadChunk sending isRefEmpty s w)
        (fun _ s w => perform rest s w)
  | Broken :: _ => Threw StreamFailed s w
  | Exhausted :: _ => OutOfFuel
  end.

Fixpoint slicePlan (fuel : nat) (done : bool) (bufs : Buffers)
    : list Action * Buffers :=
  if wants (blen (buffer bufs)) done then
    match fuel with
    | O => ([Exhausted], bufs)
    | S fuel' =>
        if negb done && (blen (buffer bufs) <? CHUNK_SIZE) then
          let pushed := pushChunk (buffer bufs) bufs in
          let bufs := dropBuffer pushed in
          ([Sample (heldBytes pushed); Sample (heldBytes bufs)], bufs)
        else
          let amountToSend := Z.min (blen (buffer bufs)) CHUNK_SIZE in
          let sending := slice (buffer bufs) 0 amountToSend in
          let remainder := sliceFrom (buffer bufs) amountToSend in
          let bufs :=
            {| accumulatedChunks := accumulatedChunks bufs;
               accumulatedLen := accumulatedLen bufs;
               buffer := remainder |} in
          let isRefEmpty :=
            (blen (buffer bufs) =? 0)
            && (Z.of_nat (length (accumulatedChunks bufs)) =? 0)
            && done in
          let rest := slicePlan fuel' done bufs in
          (Sample (heldBytes bufs) :: Piece sending isRefEmpty :: fst rest,
           snd rest)
    end
  else ([], bufs).

(** What is kept when the block of [buffer] ends: the remainder, pushed back
    if there is one, with the buffers as they are in between. *)
Definition keepRemainder (bufs : Buffers) : list Action * Buffers :=
  if 0 <? blen (buffer bufs) then
    let pushed := pushChunk (buffer bufs) bufs in
    ([Sample (heldBytes pushed); Sample (heldBytes (dropBuffer pushed))],
     dropBuffer pushed)
  else ([Sample (heldBytes (dropBuffer bufs))], dropBuffer bufs).

Fixpoint drainPlan (fuel : nat) (done : bool) (bufs : Buffers)
    : list Action * Buffers :=
  if wants (accumulatedLen bufs) done then
    match fuel with
    | O => ([Exhausted], bufs)
    | S fuel' =>
        let both :=
          {| accumulatedChunks := accumulatedChunks bufs;
             accumulatedLen := accumulatedLen bufs;
             buffer := bufferConcat (accumulatedChunks bufs) |} in
        let bufs :=
          {| accumulatedChunks := [];
             accumulatedLen := 0;
             buffer := buffer both |} in
        let sliced := slicePlan fuel done bufs in
        let kept := keepRemainder (snd sliced) in
        let rest := drainPlan fuel' done (snd kept) in
        (Sample (heldBytes both) :: Sample (heldBytes bufs) :: fst sliced
           ++ fst kept ++ fst rest,
         snd rest)
    end
  else ([], bufs).

Fixpoint readPlan (fuel : nat) (stream : list Buffer) (rejects : bool)
    (bufs : Buffers) : list Action :=
  match stream with
  | value :: rest =>
      let bufs := pushChunk value bufs in
      let drained := drainPlan fuel false bufs in
      Sample (heldBytes bufs) :: fst drained
        ++ readPlan fuel rest rejects (snd drained)
  | [] => if rejects then [Broken] else fst (drainPlan fuel true bufs)
  end.

(** The chunks of a schedule, as size and [isRefEmpty]. *)
Fixpoint pieceShapes (plan : list Action) : list (Z * bool) :=
  match plan with
  | [] => []
  | Piece sending isRefEmpty :: rest => (blen sending, isRefEmpty) :: pieceShapes rest
  | _ :: rest => pieceShapes rest
  end.

Fixpoint planSamples (plan : list Action) : list Z :=
  match plan with
  | [] => []
  | Sample n :: rest => n :: planSamples rest
  | _ :: rest => planSamples rest
  end.

(** ** The events of a schedule

    [script] is [perform] without the world: what is logged, how the schedule
    ends, and the session, server and name counter it ends with. *)

Inductive Ending : Type :=
| Finished
| Completed (resp : Json)
| Failed (e : Error)
| Starved.

Record Script : Type := {
  events : list Event;
  ending : Ending;
  sessionAfter : Session;
  serverAfter : ServerState;
  stagedAfter : nat
}.

Definition prepend (evs : list Event) (sc : Script) : Script :=
  {| events := evs ++ events sc; ending := ending sc;
     sessionAfter := sessionAfter sc; serverAfter := serverAfter sc;
     stagedAfter := stagedAfter sc |}.

Definition chunkPath (n : nat) : string :=
  "tmp_chunk_" +:+ tmpStamp n +:+ ".bin".

(** The request [sendPartialChunk] builds for a staged chunk. *)
Definition chunkRequest (s : Session) (sending : Buffer) (isRefEmpty : bool)
    : Request :=
  let effectiveContentLength :=
    if isRefEmpty then uploadedBytes s + blen sending else contentLength args in
  {| url := partialUrl;
     hAuthorization := authToken args;
     rangeStart := uploadedBytes s;
     rangeEnd := uploadedBytes s + blen sending - 1;
     rangeTotal := effectiveContentLength;
     pFilename := filename args;
     pContentType :=
       match contentType args with
       | Some t => if String.eqb t "" then "application/octet-stream" else t
       | None => "application/octet-stream"
       end;
     pContentLength := effectiveContentLength;
     pLastchunk := effectiveContentLength <=? uploadedBytes s + blen sending;
     pIdentifier :=
       if truthy (partialIdentifier s) then Some (partialIdentifier s) else None;
     hDeletesAt :=
       match expiry (settings args) with
       | Some t => if String.eqb t "" then None else Some t
       | None => None
       end;
     hCompression :=
       match compression (settings args) with
       | Some t => if String.eqb t "" then None else Some t
       | None => None
       end;
     body := sending |}.

(** A reply with a success status whose body passes the test
    [resp && resp.files && resp.files.length > 0]. *)
Definition listsFiles (reply : Reply) : bool :=
  match reply with
  | NetworkError => false
  | HttpReply status parsed =>
      statusOk status
      && match hasFiles parsed with Some true => true | _ => false end
  end.

(** A reply that lets the transfer go on: a success status and a body that
    neither lists files nor says [partialSuccess: false]. *)
Definition continues (reply : Reply) : bool :=
  match reply with
  | NetworkError => false
  | HttpReply status parsed =>
      statusOk status
      && match hasFiles parsed with Some false => true | _ => false end
      && negb (partialFailed parsed)
  end.

(** The identifier a reply leaves in the session. *)
Definition identifierAfter (current : Json) (reply : Reply) : Json :=
  match reply with
  | NetworkError => current
  | HttpReply status parsed =>
      if statusOk status
         && match hasFiles parsed with Some false => true | _ => false end
      then
        match assignedIdentifier parsed with
        | Some ident => ident
        | None => current
        end
      else current
  end.

(** How a reply that does not let the transfer go on ends it, when the file
    system does not interfere. *)
Definition verdict (reply : Reply) : Ending :=
  match reply with
  | NetworkError => Failed FetchRejected
  | HttpReply status parsed =>
      if statusOk status then
        match hasFiles parsed with
        | Some true => Completed parsed
        | Some false => Failed PartialSuccessFalse
        | None => Failed NotConvertible
        end
      else Failed (PartialUploadFailed status parsed)
  end.

(** How the n-th attempt ends once its reply is there; [None] when the
    transfer goes on.  After a reply with files the chunk is removed at
    once, and if that throws the [finally] block tries again; in every
    other case the [finally] block removes it.  An [unlinkSync] that throws
    ends the attempt with its error. *)
Definition attemptEnd (n : nat) (reply : Reply) : option Ending :=
  if listsFiles reply then
    if unlinkThrows n true then Some (Failed (UnlinkFailed (chunkPath n)))
    else Some (verdict reply)
  else if unlinkThrows n false then Some (Failed (UnlinkFailed (chunkPath n)))
  else if continues reply then None
  else Some (verdict reply).

(** Whether the file of the n-th chunk is gone when its attempt ends. *)
Definition chunkReleased (n : nat) (reply : Reply) : bool :=
  (listsFiles reply && negb (unlinkThrows n true))
  || negb (unlinkThrows n false).

Fixpoint script (plan : list Action) (s : Session) (srv : ServerState) (n : nat)
    : Script :=
  match plan with
  | [] =>
      {| events := []; ending := Finished; sessionAfter := s;
         serverAfter := srv; stagedAfter := n |}
  | Sample k :: rest => prepend [Held k] (script rest s srv n)
  | Broken :: _ =>
      {| events := []; ending := Failed StreamFailed; sessionAfter := s;
         serverAfter := srv; stagedAfter := n |}
  | Exhausted :: _ =>
      {| events := []; ending := Starved; sessionAfter := s;
         serverAfter := srv; stagedAfter := n |}
  | Piece sending isRefEmpty :: rest =>
      match stageWrite n sending with
      | WriteThrows partial =>
          {| events :=
               match partial with
               | Some data => [Wrote (chunkPath n) data]
               | None => []
               end;
             ending := Failed (WriteFailed (chunkPath n));
             sessionAfter := s; serverAfter := srv; stagedAfter := S n |}
      | Written =>
          let req := chunkRequest s sending isRefEmpty in
          let answer := serve srv req in
          let ident := identifierAfter (partialIdentifier s) (snd answer) in
          match attemptEnd n (snd answer) with
          | None =>
              let s' :=
                {| uploadedBytes := uploadedBytes s + blen sending;
                   partialIdentifier := ident |} in
              prepend
                ([Wrote (chunkPath n) sending; Sent req (snd answer);
                  Removed (chunkPath n)]
                 ++ if onProgress args
                    then [Progress (uploadedBytes s') (contentLength args)]
                    else [])
                (script rest s' (fst answer) (S n))
          | Some e =>
              {| events :=
                   [Wrote (chunkPath n) sending; Sent req (snd answer)]
                   ++ if chunkReleased n (snd answer)
                      then [Removed (chunkPath n)]
                      else [];
                 ending := e;
                 sessionAfter :=
                   {| uploadedBytes := uploadedBytes s;
                      partialIdentifier := ident |};
                 serverAfter := fst answer; stagedAfter := S n |}
          end
      end
  end.

(** What a log does to the disk: a [Wrote] puts the data at the path, a
    [Removed] takes the file away. *)
Fixpoint replay (evs : list Event) (disk : gmap string Buffer)
    : gmap string Buffer :=
  match evs with
  | [] => disk
  | Wrote path data :: rest => replay rest (<[path := data]> disk)
  | Removed path :: rest => replay rest (delete path disk)
  | _ :: rest => replay rest disk
  end.

(** The outcome a script stands for, from a given world. *)
Definition realize (w : World) (sc : Script) : Outcome unit :=
  let w' :=
    {| files := replay (events sc) (files w);
       server := serverAfter sc;
       staged := stagedAfter sc;
       log := log w ++ events sc |} in
  match ending sc with
  | Finished => Normal tt (sessionAfter sc) w'
  | Completed resp => Returned resp (sessionAfter sc) w'
  | Failed e => Threw e (sessionAfter sc) w'
  | Starved => OutOfFuel
  end.

(** ** Views of a log *)

Fixpoint exchanges (evs : list Event) : list (Request * Reply) :=
  match evs with
  | [] => []
  | Sent req reply :: rest => (req, reply) :: exchanges rest
  | _ :: rest => exchanges rest
  end.

Definition requests (evs : list Event) : list Request :=
  (exchanges evs).*1.

Fixpoint heldSamples (evs : list Event) : list Z :=
  match evs with
  | [] => []
  | Held n :: rest => n :: heldSamples rest
  | _ :: rest => heldSamples rest
  end.

Fixpoint progressCalls (evs : list Event) : list (Z * Z) :=
  match evs with
  | [] => []
  | Progress uploaded total :: rest => (uploaded, total) :: progressCalls rest
  | _ :: rest => progressCalls rest
  end.



Definition streamLength (stream : list Buffer) : Z :=
  blen (bufferConcat stream).


(** The sizes and [isRefEmpty] flags of the chunks cut from [total] bytes:
    full chunks, then the remainder if there is one. *)
Definition chunkShape (total : Z) : list (Z * bool) :=
  replicate (Z.to_nat (total / CHUNK_SIZE)) (CHUNK_SIZE, false)
  ++ (if (total mod CHUNK_SIZE) =? 0 then []
      else [(total mod CHUNK_SIZE, true)]).

(** A schedule with the given chunks that never runs out of fuel and whose
    buffer samples stay within [bound]. *)
Definition PlanOk (bound : Z) (shape : list (Z * bool)) (plan : list Action)
    : Prop :=
  pieceShapes plan = shape
  /\ (Exhausted ∉ plan)
  /\ Forall (fun n => 0 <= n <= bound) (planSamples plan).

(** Between two reads nothing is left in [buffer], and [accumulatedLen]
    counts the [held] bytes of [accumulatedChunks]. *)
Definition Tidy (bufs : Buffers) (held : Z) : Prop :=
  buffer bufs = []
  /\ accumulatedLen bufs = held
  /\ blen (bufferConcat (accumulatedChunks bufs)) = held.

(** The part of a request that depends on the chunk. *)
Record ChunkHeader : Type := {
  hStart : Z;
  hSize : Z;
  hTotal : Z;
  hLast : bool
}.

Definition headerOf (req : Request) : ChunkHeader :=
  {| hStart := rangeStart req; hSize := blen (body req);
     hTotal := rangeTotal req; hLast := pLastchunk req |}.

(** The headers of chunks of the given sizes and [isRefEmpty] flags, sent one
    after the other from offset [sent]. *)
Fixpoint expectedHeaders (sent : Z) (shapes : list (Z * bool))
    : list ChunkHeader :=
  match shapes with
  | [] => []
  | (size, isRefEmpty) :: rest =>
      let total := if isRefEmpty then sent + size else contentLength args in
      {| hStart := sent; hSize := size; hTotal := total;
         hLast := total <=? sent + size |}
      :: expectedHeaders (sent + size) rest
  end.

(** The identifier a reply supplies, if any. *)
Definition assignedBy (reply : Reply) : option Json :=
  match reply with
  | NetworkError => None
  | HttpReply _ parsed => assignedIdentifier parsed
  end.

(** The identifier supplied most recently by a list of replies. *)
Definition lastAssigned (replies : list Reply) : option Json :=
  last (omap assignedBy replies).

(** The bytes of the chunks whose reply let the transfer go on. *)
Fixpoint acknowledgedBytes (ex : list (Request * Reply)) : Z :=
  match ex with
  | [] => 0
  | (req, reply) :: rest =>
      (if continues reply then blen (body req) else 0) + acknowledgedBytes rest
  end.

(** The progress call a chunk gives rise to once it is acknowledged. *)
Definition progressOf (x : Request * Reply) : Z * Z :=
  (rangeStart (fst x) + blen (body (fst x)), contentLength args).

(** An ending that no exchange brought about: the schedule was carried out,
    the stream failed, or a chunk could not be written. *)
Definition Quiet (e : Ending) : Prop :=
  e = Finished \/ e = Failed StreamFailed
  \/ exists path, e = Failed (WriteFailed path).

(** The exchanges of a schedule that ended a given way, [n] being the number
    of its first chunk: the replies let the transfer go on, except that a
    schedule that an attempt ended was ended by its last attempt. *)
Definition Orderly (n : nat) (ex : list (Request * Reply)) (e : Ending)
    : Prop :=
  e = Starved
  \/ (Quiet e /\ Forall (fun x => continues (snd x) = true) ex)
  \/ exists pre req reply,
       ex = pre ++ [(req, reply)]
       /\ Forall (fun x => continues (snd x) = true) pre
       /\ attemptEnd (n + length pre) reply = Some e.

(** The function threw because [fs.unlinkSync] did. *)
Definition unlinkFailed (e : Ending) : bool :=
  match e with
  | Failed (UnlinkFailed _) => true
  | _ => false
  end.

Definition threwUnlink (o : Outcome unit) : bool :=
  match o with
  | Threw (UnlinkFailed _) _ _ => true
  | _ => false
  end.

(** The function threw because a file-system call did. *)
Definition diskFailed (e : Ending) : bool :=
  match e with
  | Failed err => diskError err
  | _ => false
  end.

(** The exchanges whose attempt ran to its end: all of them, except the last
    one when the removal of its chunk threw. *)
Definition settled (ex : list (Request * Reply)) (unlinkThrew : bool)
    : list (Request * Reply) :=
  if unlinkThrew then removelast ex else ex.

(** The script of a call. *)
Definition uploadScript (fuel : nat) (dlRes : Download) (srv : ServerState)
    (n : nat) : Script :=
  match dlRes with
  | DownloadNoAnswer =>
      {| events := []; ending := Failed DownloadRejected;
         sessionAfter := initialSession; serverAfter := srv; stagedAfter := n |}
  | DownloadNotOk =>
      {| events := []; ending := Failed DownloadFailed;
         sessionAfter := initialSession; serverAfter := srv; stagedAfter := n |}
  | DownloadBody stream =>
      script (readPlan fuel stream false initialBuffers) initialSession srv n
  | DownloadBroken stream =>
      script (readPlan fuel stream true initialBuffers) initialSession srv n
  end.

(** A call of the function in a world whose log is still empty. *)
Definition upload (fuel : nat) (dlRes : Download) (disk : gmap string Buffer)
    (srv : ServerState) (n : nat) : Outcome unit :=
  ziplinePartialUpload fuel dlRes (startWorld disk srv n).

(** The script of a call whose download has succeeded. *)
Definition readScript (fuel : nat) (stream : list Buffer) (rejects : bool)
    (srv : ServerState) (n : nat) : Script :=
  script (readPlan fuel stream rejects initialBuffers) initialSession srv n.

(** A transfer on the chunked path: the download has succeeded and delivers
    [stream]; the log starts empty. *)
Definition transfer (fuel : nat) (stream : list Buffer)
    (disk : gmap string Buffer) (srv : ServerState) (n : nat) : Outcome unit :=
  ziplinePartialUpload fuel (DownloadBody stream) (startWorld disk srv n).

(** The script of a transfer. *)
Definition transferScript (fuel : nat) (stream : list Buffer)
    (srv : ServerState) (n : nat) : Script :=
  script (readPlan fuel stream false initialBuffers) initialSession srv n.

(** What [ziplinePartialUpload] returns when the stream ends before the
    server has listed files. *)
Definition streamEndResult : Json := JObj [("partialSuccess", JBool true)].

(** The chunk contents of a schedule, in order. *)
Fixpoint pieceBodies (plan : list Action) : list Buffer :=
  match plan with
  | [] => []
  | Piece sending _ :: rest => sending :: pieceBodies rest
  | _ :: rest => pieceBodies rest
  end.


(** ** Concrete transfers *)

Definition demoArgs (declared : Z) : Args :=
  {| baseUrl := "https://zipline.example/";
     authToken := "token";
     fileUrl := "https://cdn.example/file.bin";
     filename := "file.bin";
     contentLength := declared;
     contentType := None;
     anon := false;
     settings := {| expiry := None; compression := None |};
     onProgress := true |}.

Fixpoint demoStamp (n : nat) : string :=
  match n with
  | O => "t"
  | S k => demoStamp k +:+ "x"
  end.

(** [n] bytes. *)
Definition blob (n : nat) : Buffer := replicate n Byte.x00.

(** The state of the demonstration servers is the number of requests they
    have answered. *)
Definition answerWith (pick : nat -> Reply) (served : nat) (req : Request)
    : nat * Reply :=
  (S served, pick served).

Definition sessionReply (ident : string) : Reply :=
  HttpReply 200 (JObj [("partialIdentifier", JStr ident)]).

Definition filesReply : Reply :=
  HttpReply 200 (JObj [("files", JArr [JObj [("id", JStr "f1")]])]).

(** Every chunk is accepted into session [abc]. *)
Definition acceptAll : nat -> Request -> nat * Reply :=
  answerWith (fun _ => sessionReply "abc").

(** The second chunk is answered with [partialSuccess: false]. *)
Definition refuseSecond : nat -> Request -> nat * Reply :=
  answerWith (fun served =>
    match served with
    | 1%nat => HttpReply 200 (JObj [("partialSuccess", JBool false)])
    | _ => sessionReply "abc"
    end).


(** The second chunk is answered with status 500. *)
Definition breakSecond : nat -> Request -> nat * Reply :=
  answerWith (fun served =>
    match served with
    | 1%nat => HttpReply 500 (JStr "Internal Server Error")
    | _ => sessionReply "abc"
    end).

(** The second chunk is answered with [partialSuccess: false] and a [files]
    that is a text, not a list. *)
Definition refuseWithFiles : nat -> Request -> nat * Reply :=
  answerWith (fun served =>
    match served with
    | 1%nat =>
        HttpReply 200
          (JObj [("partialSuccess", JBool false); ("files", JStr "x")])
    | _ => sessionReply "abc"
    end).

(** The first reply assigns [A], every later one [B]. *)
Definition reassign : nat -> Request -> nat * Reply :=
  answerWith (fun served =>
    match served with
    | O => sessionReply "A"
    | _ => sessionReply "B"
    end).

(** Six bytes in fragments of three, two and one bytes. *)
Definition sixBytes : list Buffer := [blob 3; blob 2; blob 1].

(** The demonstration servers never send a [files] object whose [length] is
    a string, an array or an object, so that no comparison of theirs is left
    to the environment; this function stands for it. *)
Definition notAsked : Json -> option bool := fun _ => Some false.

(** A file system on which no call throws. *)
Definition writesAll : nat -> Buffer -> WriteResult := fun _ _ => Written.

Definition unlinksAll : nat -> bool -> bool := fun _ _ => false.



(** ** The loops follow their schedule *)

Lemma andThen_assoc {A B D : Type} (o : Outcome A)
    (k : A -> Session -> World -> Outcome B)
    (k' : B -> Session -> World -> Outcome D) :
  andThen (andThen o k) k' = andThen o (fun a s w => andThen (k a s w) k').
Proof. destruct o; reflexivity. Qed.

Lemma andThen_ext {A B : Type} (o : Outcome A)
    (k k' : A -> Session -> World -> Outcome B) :
  (forall a s w, k a s w = k' a s w) -> andThen o k = andThen o k'.
Proof. intros Hk. destruct o; simpl; auto. Qed.

Lemma perform_app (p q : list Action) (s : Session) (w : World) :
  perform (p ++ q) s w = andThen (perform p s w) (fun _ s w => perform q s w).
Proof.
  revert s w. induction p as [|act p IH]; intros s w; simpl; [reflexivity|].
  destruct act as [n|sending flag| |]; simpl.
  - apply IH.
  - rewrite andThen_assoc. apply andThen_ext. intros; apply IH.
  - reflexivity.
  - reflexivity.
Qed.

Lemma sliceLoop_plan (fuel : nat) (done : bool) (bufs : Buffers) (s : Session)
    (w : World) :
  sliceLoop fuel done bufs s w =
  andThen (perform (fst (slicePlan fuel done bufs)) s w)
    (fun _ s w => Normal (snd (slicePlan fuel done bufs)) s w).
Proof.
  revert bufs s w. induction fuel as [|fuel IH]; intros bufs s w; simpl.
  - destruct (wants _ _); reflexivity.
  - destruct (wants _ _); [|reflexivity].
    destruct (negb done && _); [reflexivity|].
    simpl. rewrite andThen_assoc. apply andThen_ext. intros _ s' w'.
    apply IH.
Qed.

Lemma keepRemainder_perform (bufs : Buffers) (s : Session) (w : World) :
  perform (fst (keepRemainder bufs)) s w =
  Normal tt s
    (if 0 <? blen (buffer bufs)
     then sample (dropBuffer (pushChunk (buffer bufs) bufs))
            (sample (pushChunk (buffer bufs) bufs) w)
     else sample (dropBuffer bufs) w).
Proof.
  unfold keepRemainder. destruct (0 <? blen (buffer bufs)); reflexivity.
Qed.

Lemma drainLoop_plan (fuel : nat) (done : bool) (bufs : Buffers) (s : Session)
    (w : World) :
  drainLoop fuel done bufs s w =
  andThen (perform (fst (drainPlan fuel done bufs)) s w)
    (fun _ s w => Normal (snd (drainPlan fuel done bufs)) s w).
Proof.
  revert bufs s w. induction fuel as [|fuel IH]; intros bufs s w.
  - simpl. destruct (wants _ _); reflexivity.
  - cbn [drainLoop drainPlan]. destruct (wants _ _); [|reflexivity].
    cbn [fst snd perform]. rewrite perform_app, sliceLoop_plan.
    rewrite !andThen_assoc. apply andThen_ext. intros _ s' w'.
    cbn [andThen]. rewrite perform_app, keepRemainder_perform.
    cbn [andThen]. unfold keepRemainder.
    destruct (0 <? blen (buffer _)); cbn [fst snd]; apply IH.
Qed.

Lemma readLoop_plan (fuel : nat) (stream : list Buffer) (rejects : bool)
    (bufs : Buffers) (s : Session) (w : World) :
  readLoop fuel stream rejects bufs s w
  = perform (readPlan fuel stream rejects bufs) s w.
Proof.
  revert bufs s w. induction stream as [|value rest IH]; intros bufs s w.
  - cbn [readLoop readPlan]. destruct rejects; [reflexivity|].
    rewrite drainLoop_plan, andThen_assoc.
    destruct (perform _ s w) as [[] ? ?| | |]; reflexivity.
  - cbn [readLoop readPlan perform]. rewrite perform_app, drainLoop_plan.
    rewrite andThen_assoc. apply andThen_ext. intros _ s' w'.
    cbn [andThen]. apply IH.
Qed.

(** ** A schedule runs as its script says *)

Lemma replay_app (a b : list Event) (disk : gmap string Buffer) :
  replay (a ++ b) disk = replay b (replay a disk).
Proof.
  revert disk. induction a as [|[] a IH]; intros disk; simpl; rewrite ?IH;
    reflexivity.
Qed.

Lemma realize_prepend (w : World) (evs : list Event) (sc : Script) :
  realize w (prepend evs sc) =
  realize
    {| files := replay evs (files w);
       server := server w; staged := staged w; log := log w ++ evs |}
    sc.
Proof.
  unfold realize, prepend; simpl.
  rewrite replay_app, app_assoc. reflexivity.
Qed.

Lemma attemptEnd_stops (n : nat) (reply : Reply) (e : Ending) :
  attemptEnd n reply = Some e ->
  (exists resp, e = Completed resp) \/ (exists err, e = Failed err).
Proof.
  unfold attemptEnd, listsFiles, continues, verdict.
  destruct reply as [|status parsed].
  - cbn. destruct (unlinkThrows n false); intros [= <-]; eauto.
  - destruct (statusOk status), (hasFiles parsed) as [[]|],
      (partialFailed parsed), (unlinkThrows n true), (unlinkThrows n false);
      cbn; intros [= <-]; eauto.
Qed.

Lemma uploadChunk_script (sending : Buffer) (isRefEmpty : bool) (s : Session)
    (w : World) :
  uploadChunk sending isRefEmpty s w =
  realize w (script [Piece sending isRefEmpty] s (server w) (staged w)).
Proof.
  destruct s as [sent ident].
  unfold uploadChunk, freshChunkPath.
  cbn [script files server staged log].
  fold (chunkPath (staged w)).
  destruct (stageWrite (staged w) sending) as [|[partial|]] eqn:Hwrite.
  2: { unfold writeFileSync, record, realize. cbn. reflexivity. }
  2: { unfold writeFileSync, realize. cbn. rewrite app_nil_r. reflexivity. }
  unfold writeFileSync, exchangeChunk, sendPartialChunk, record.
  cbn [files server staged log]. rewrite lookup_insert_eq.
  set (s := {| uploadedBytes := sent; partialIdentifier := ident |}).
  change (serve (server w) _) with
    (serve (server w) (chunkRequest s sending isRefEmpty)).
  destruct (serve (server w) (chunkRequest s sending isRefEmpty))
    as [srv reply] eqn:Hserve.
  cbn [fst snd].
  assert (Hrel : forall (evs : list Event) (srv' : ServerState) (n : nat),
    releaseChunk (staged w) (chunkPath (staged w))
      {| files := <[chunkPath (staged w) := sending]> (files w);
         server := srv'; staged := n; log := evs |} =
    if unlinkThrows (staged w) false
    then inl (UnlinkFailed (chunkPath (staged w)))
    else
      inr {| files := delete (chunkPath (staged w))
                        (<[chunkPath (staged w) := sending]> (files w));
             server := srv'; staged := n;
             log := evs ++ [Removed (chunkPath (staged w))] |}).
  { intros evs srv' n. unfold releaseChunk, existsSync, unlinkSync, record.
    cbn [files server staged log]. rewrite lookup_insert_eq.
    rewrite bool_decide_eq_true_2 by eauto. reflexivity. }
  assert (Hgone : forall (evs : list Event) (srv' : ServerState) (n : nat),
    releaseChunk (staged w) (chunkPath (staged w))
      {| files := delete (chunkPath (staged w))
                    (<[chunkPath (staged w) := sending]> (files w));
         server := srv'; staged := n; log := evs |} =
    inr {| files := delete (chunkPath (staged w))
                      (<[chunkPath (staged w) := sending]> (files w));
           server := srv'; staged := n; log := evs |}).
  { intros evs srv' n. unfold releaseChunk, existsSync.
    cbn [files]. rewrite lookup_delete_eq.
    rewrite bool_decide_eq_false_2 by (intros [? ?]; discriminate).
    reflexivity. }
  unfold attemptEnd, chunkReleased, listsFiles, continues, verdict,
    identifierAfter.
  destruct reply as [|status parsed].
  - unfold tryFinally. rewrite Hrel. cbn [andb orb negb].
    destruct (unlinkThrows (staged w) false); unfold realize; cbn;
      rewrite <- ?app_assoc; reflexivity.
  - destruct (statusOk status); cbn [andb orb negb].
    + destruct (hasFiles parsed) as [[]|]; cbn [andb orb negb].
      * unfold unlinkSync, record. cbn [files server staged log].
        rewrite lookup_insert_eq.
        destruct (unlinkThrows (staged w) true); cbn [andb orb negb].
        -- unfold tryFinally. rewrite Hrel.
           destruct (unlinkThrows (staged w) false); unfold realize; cbn;
             rewrite <- ?app_assoc; reflexivity.
        -- unfold tryFinally. rewrite Hgone. unfold realize. cbn.
           rewrite <- ?app_assoc. reflexivity.
      * unfold tryFinally.
        destruct (partialFailed parsed); cbn [andb orb negb].
        -- rewrite Hrel.
           destruct (unlinkThrows (staged w) false); unfold realize; cbn;
             rewrite <- ?app_assoc;
             destruct (assignedIdentifier parsed); reflexivity.
        -- rewrite Hrel.
           destruct (unlinkThrows (staged w) false).
           ++ unfold realize; cbn; rewrite <- ?app_assoc;
                destruct (assignedIdentifier parsed); reflexivity.
           ++ rewrite realize_prepend. unfold realize, record. cbn.
              destruct (assignedIdentifier parsed), (onProgress args); cbn.
              all: rewrite ?app_nil_r, <- ?app_assoc; reflexivity.
      * unfold tryFinally. rewrite Hrel.
        destruct (unlinkThrows (staged w) false); unfold realize; cbn;
          rewrite <- ?app_assoc; reflexivity.
    + unfold tryFinally. rewrite Hrel.
      destruct (unlinkThrows (staged w) false); unfold realize; cbn;
        rewrite <- ?app_assoc; reflexivity.
Qed.

Lemma perform_script (plan : list Action) (s : Session) (w : World) :
  perform plan s w = realize w (script plan s (server w) (staged w)).
Proof.
  revert s w. induction plan as [|act plan IH]; intros s w.
  - unfold realize. cbn. rewrite app_nil_r. destruct w; reflexivity.
  - destruct act as [n|sending flag| |]; cbn [perform].
    + cbn [script]. rewrite realize_prepend, IH. reflexivity.
    + rewrite uploadChunk_script. cbn [script].
      destruct (stageWrite (staged w) sending) as [|partial];
        [|reflexivity].
      destruct (attemptEnd (staged w)
                  (snd (serve (server w) (chunkRequest s sending flag))))
        as [e|] eqn:Hend.
      * unfold realize. cbn [ending events sessionAfter serverAfter stagedAfter].
        destruct (attemptEnd_stops _ _ _ Hend) as [[resp ->]|[err ->]];
          reflexivity.
      * rewrite !realize_prepend. cbn [script]. unfold realize at 1.
        cbn [ending events sessionAfter serverAfter stagedAfter andThen].
        rewrite IH. cbn [server staged]. rewrite app_nil_r. reflexivity.
    + unfold realize. cbn. rewrite app_nil_r. destruct w; reflexivity.
    + reflexivity.
Qed.

Lemma upload_script (fuel : nat) (dlRes : Download) (w : World) :
  ziplinePartialUpload fuel dlRes w =
  andThen
    (realize w (uploadScript fuel dlRes (server w) (staged w)))
    (fun _ s w => Returned (JObj [("partialSuccess", JBool true)]) s w).
Proof.
  unfold ziplinePartialUpload, uploadScript.
  destruct dlRes as [| |stream|stream].
  - unfold realize. cbn. rewrite app_nil_r. destruct w; reflexivity.
  - unfold realize. cbn. rewrite app_nil_r. destruct w; reflexivity.
  - rewrite readLoop_plan, perform_script. reflexivity.
  - rewrite readLoop_plan, perform_script. reflexivity.
Qed.

(** ** Buffer arithmetic *)

Lemma blen_nonneg (b : Buffer) : 0 <= blen b.
Proof. unfold blen. lia. Qed.

Lemma blen_app (a b : Buffer) : blen (a ++ b) = blen a + blen b.
Proof. unfold blen. rewrite length_app. lia. Qed.

Lemma blen_slice_prefix (b : Buffer) (n : Z) :
  0 <= n <= blen b -> blen (slice b 0 n) = n.
Proof.
  intros Hn. unfold slice, clampIndex, blen in *.
  rewrite Z.ltb_irrefl.
  destruct (n <? 0) eqn:Hneg; [lia|].
  rewrite length_take, length_drop. lia.
Qed.

Lemma blen_sliceFrom (b : Buffer) (n : Z) :
  0 <= n <= blen b -> blen (sliceFrom b n) = blen b - n.
Proof.
  intros Hn. unfold sliceFrom, slice, clampIndex, blen in *.
  destruct (n <? 0) eqn:Hneg; [lia|].
  destruct (Z.of_nat (length b) <? 0) eqn:Hneg'; [lia|].
  rewrite length_take, length_drop. lia.
Qed.

(** ** What the schedule contains *)

Lemma pieceShapes_app (p q : list Action) :
  pieceShapes (p ++ q) = pieceShapes p ++ pieceShapes q.
Proof. induction p as [|[] p IH]; simpl; rewrite ?IH; reflexivity. Qed.

Lemma planSamples_app (p q : list Action) :
  planSamples (p ++ q) = planSamples p ++ planSamples q.
Proof. induction p as [|[] p IH]; simpl; rewrite ?IH; reflexivity. Qed.

Lemma PlanOk_nil (bound : Z) : PlanOk bound [] [].
Proof. repeat split; [apply not_elem_of_nil | constructor]. Qed.

Lemma PlanOk_app (bound : Z) (s1 s2 : list (Z * bool)) (p q : list Action) :
  PlanOk bound s1 p -> PlanOk bound s2 q -> PlanOk bound (s1 ++ s2) (p ++ q).
Proof.
  intros (Hs1 & He1 & Hb1) (Hs2 & He2 & Hb2). repeat split.
  - rewrite pieceShapes_app. congruence.
  - rewrite not_elem_of_app. auto.
  - rewrite planSamples_app. apply Forall_app; auto.
Qed.

Lemma PlanOk_sample (bound n : Z) (shape : list (Z * bool)) (p : list Action) :
  0 <= n <= bound -> PlanOk bound shape p -> PlanOk bound shape (Sample n :: p).
Proof.
  intros Hn (Hs & He & Hb). repeat split; simpl; auto.
  rewrite not_elem_of_cons. split; [discriminate | auto].
Qed.

Lemma PlanOk_piece (bound : Z) (sending : Buffer) (flag : bool)
    (shape : list (Z * bool)) (p : list Action) :
  PlanOk bound shape p ->
  PlanOk bound ((blen sending, flag) :: shape) (Piece sending flag :: p).
Proof.
  intros (Hs & He & Hb). repeat split; simpl; auto.
  - congruence.
  - rewrite not_elem_of_cons. split; [discriminate | auto].
Qed.

Lemma PlanOk_weaken (bound bound' : Z) (shape : list (Z * bool))
    (p : list Action) :
  bound <= bound' -> PlanOk bound shape p -> PlanOk bound' shape p.
Proof.
  intros Hle (Hs & He & Hb). repeat split; auto.
  eapply Forall_impl; [exact Hb|]. simpl. intros; lia.
Qed.

Section PositiveChunkSize.

Hypothesis chunk_size_positive : 0 < CHUNK_SIZE.

Lemma wants_streaming (n : Z) : wants n false = (CHUNK_SIZE <=? n).
Proof. unfold wants. simpl. apply orb_false_r. Qed.

Lemma wants_final (n : Z) : n < CHUNK_SIZE -> wants n true = (0 <? n).
Proof.
  intros Hn. unfold wants. simpl.
  destruct (CHUNK_SIZE <=? n) eqn:H; [lia | reflexivity].
Qed.

(** Slicing while the stream is open: full chunks only, the rest stays. *)
Lemma slicePlan_streaming (fuel : nat) (bufs : Buffers) :
  accumulatedChunks bufs = [] ->
  blen (buffer bufs) < Z.of_nat fuel ->
  PlanOk (blen (buffer bufs))
    (replicate (Z.to_nat (blen (buffer bufs) / CHUNK_SIZE)) (CHUNK_SIZE, false))
    (fst (slicePlan fuel false bufs))
  /\ accumulatedChunks (snd (slicePlan fuel false bufs)) = []
  /\ accumulatedLen (snd (slicePlan fuel false bufs)) = accumulatedLen bufs
  /\ blen (buffer (snd (slicePlan fuel false bufs)))
     = blen (buffer bufs) mod CHUNK_SIZE.
Proof.
  revert bufs. induction fuel as [|fuel IH]; intros bufs Hacc Hfuel.
  { pose proof (blen_nonneg (buffer bufs)). lia. }
  pose proof (blen_nonneg (buffer bufs)) as Hnn.
  cbn [slicePlan]. rewrite wants_streaming.
  destruct (CHUNK_SIZE <=? blen (buffer bufs)) eqn:Hfull.
  - apply Z.leb_le in Hfull.
    replace (negb false && (blen (buffer bufs) <? CHUNK_SIZE)) with false
      by (symmetry; apply andb_false_iff; right; apply Z.ltb_ge; lia).
    rewrite Z.min_r by lia. cbn [fst snd].
    set (rest := {| accumulatedChunks := accumulatedChunks bufs;
                    accumulatedLen := accumulatedLen bufs;
                    buffer := sliceFrom (buffer bufs) CHUNK_SIZE |}).
    assert (Hrest : blen (buffer rest) = blen (buffer bufs) - CHUNK_SIZE).
    { apply blen_sliceFrom. lia. }
    destruct (IH rest) as (Hok & Hc & Hl & Hb); [exact Hacc | lia |].
    rewrite Hc, Hl, Hb, Hrest. refine (conj _ (conj _ (conj _ _))); auto.
    + apply PlanOk_sample.
      { unfold heldBytes. cbn [accumulatedChunks rest]. rewrite Hacc.
        fold rest. rewrite Hrest. change (blen (bufferConcat [])) with 0. lia. }
      rewrite andb_false_r.
      replace (Z.to_nat (blen (buffer bufs) / CHUNK_SIZE))
        with (S (Z.to_nat ((blen (buffer bufs) - CHUNK_SIZE) / CHUNK_SIZE))).
      * cbn [replicate].
        rewrite <- (blen_slice_prefix (buffer bufs) CHUNK_SIZE) at 1 by lia.
        apply PlanOk_piece. rewrite <- Hrest.
        eapply PlanOk_weaken; [|exact Hok]. lia.
      * replace (blen (buffer bufs)) with
          ((blen (buffer bufs) - CHUNK_SIZE) + 1 * CHUNK_SIZE) at 2 by lia.
        rewrite Z.div_add by lia.
        pose proof (Z.div_pos (blen (buffer bufs) - CHUNK_SIZE) CHUNK_SIZE).
        lia.
    + replace (blen (buffer bufs)) with
        ((blen (buffer bufs) - CHUNK_SIZE) + 1 * CHUNK_SIZE) at 2 by lia.
      rewrite Z.mod_add by lia. reflexivity.
  - apply Z.leb_gt in Hfull. cbn [fst snd].
    rewrite Z.div_small, Z.mod_small by lia.
    refine (conj _ (conj _ (conj _ _))); auto. apply PlanOk_nil.
Qed.

(** Slicing after the stream has ended, with less than a chunk left: the
    remainder goes out as one chunk that finds the buffers empty. *)
Lemma slicePlan_final (fuel : nat) (bufs : Buffers) :
  accumulatedChunks bufs = [] ->
  0 < blen (buffer bufs) < CHUNK_SIZE ->
  PlanOk (blen (buffer bufs)) [(blen (buffer bufs), true)]
    (fst (slicePlan (S fuel) true bufs))
  /\ accumulatedChunks (snd (slicePlan (S fuel) true bufs)) = []
  /\ accumulatedLen (snd (slicePlan (S fuel) true bufs)) = accumulatedLen bufs
  /\ blen (buffer (snd (slicePlan (S fuel) true bufs))) = 0.
Proof.
  intros Hacc Hlen. cbn [slicePlan]. rewrite wants_final by lia.
  replace (0 <? blen (buffer bufs)) with true by (symmetry; apply Z.ltb_lt; lia).
  cbn [negb andb]. rewrite Z.min_l by lia.
  set (rest := {| accumulatedChunks := accumulatedChunks bufs;
                  accumulatedLen := accumulatedLen bufs;
                  buffer := sliceFrom (buffer bufs) (blen (buffer bufs)) |}).
  assert (Hrest : blen (buffer rest) = 0).
  { unfold rest. cbn [buffer]. rewrite blen_sliceFrom; lia. }
  assert (Hstop : slicePlan fuel true rest = ([], rest)).
  { destruct fuel; cbn [slicePlan]; rewrite wants_final, Hrest by lia;
      reflexivity. }
  rewrite Hstop. cbn [fst snd].
  refine (conj _ (conj _ (conj _ _))); auto.
  apply PlanOk_sample.
  { unfold heldBytes. cbn [accumulatedChunks rest]. rewrite Hacc.
    fold rest. rewrite Hrest. change (blen (bufferConcat [])) with 0. lia. }
  rewrite Hrest. cbn [accumulatedChunks rest]. rewrite Hacc.
  change ((0 =? 0) && (Z.of_nat (length (@nil Buffer)) =? 0) && true) with true.
  rewrite <- (blen_slice_prefix (buffer bufs) (blen (buffer bufs))) at 2 by lia.
  apply PlanOk_piece, PlanOk_nil.
Qed.

Lemma drainPlan_idle (fuel : nat) (done : bool) (bufs : Buffers) :
  wants (accumulatedLen bufs) done = false ->
  drainPlan fuel done bufs = ([], bufs).
Proof. intros H. destruct fuel; cbn [drainPlan]; rewrite H; reflexivity. Qed.

(** Keeping the remainder: while it sits both in [buffer] and in
    [accumulatedChunks] it counts twice. *)
Lemma keepRemainder_tidy (bufs : Buffers) :
  accumulatedChunks bufs = [] ->
  accumulatedLen bufs = 0 ->
  PlanOk (2 * blen (buffer bufs)) [] (fst (keepRemainder bufs))
  /\ Tidy (snd (keepRemainder bufs)) (blen (buffer bufs)).
Proof.
  intros Hc Hl. pose proof (blen_nonneg (buffer bufs)) as Hnn.
  unfold keepRemainder.
  destruct (0 <? blen (buffer bufs)) eqn:Hpos; cbn [fst snd].
  - split.
    + apply PlanOk_sample; [|apply PlanOk_sample; [|apply PlanOk_nil]];
        unfold heldBytes;
        cbn [accumulatedChunks buffer pushChunk dropBuffer];
        rewrite Hc; unfold bufferConcat; cbn [app concat];
        rewrite app_nil_r; change (blen []) with 0; lia.
    + repeat split; cbn [accumulatedChunks accumulatedLen buffer pushChunk
                          dropBuffer].
      * lia.
      * rewrite Hc. unfold bufferConcat. cbn [app concat].
        rewrite app_nil_r. reflexivity.
  - apply Z.ltb_ge in Hpos. split.
    + apply PlanOk_sample; [|apply PlanOk_nil].
      unfold heldBytes. cbn [accumulatedChunks buffer dropBuffer].
      rewrite Hc. change (blen (bufferConcat []) + blen []) with 0. lia.
    + repeat split; cbn [accumulatedChunks accumulatedLen buffer dropBuffer].
      * lia.
      * rewrite Hc. change (blen (bufferConcat [])) with 0. lia.
Qed.

(** Draining while the stream is open.  Right after the consolidation the
    [held] bytes are there twice. *)
Lemma drainPlan_streaming (fuel : nat) (bufs : Buffers) (held : Z) :
  Tidy bufs held ->
  held < Z.of_nat fuel ->
  PlanOk (2 * held)
    (replicate (Z.to_nat (held / CHUNK_SIZE)) (CHUNK_SIZE, false))
    (fst (drainPlan fuel false bufs))
  /\ Tidy (snd (drainPlan fuel false bufs)) (held mod CHUNK_SIZE).
Proof.
  intros (Hbuf & Hlen & Hacc) Hfuel.
  assert (Hnn : 0 <= held) by (rewrite <- Hacc; apply blen_nonneg).
  destruct (CHUNK_SIZE <=? held) eqn:Hfull.
  - apply Z.leb_le in Hfull. destruct fuel as [|fuel]; [lia|].
    cbn [drainPlan]. rewrite Hlen, wants_streaming.
    replace (CHUNK_SIZE <=? held) with true by (symmetry; apply Z.leb_le; lia).
    cbn [buffer].
    set (whole := {| accumulatedChunks := []; accumulatedLen := 0;
                     buffer := bufferConcat (accumulatedChunks bufs) |}).
    destruct (slicePlan_streaming (S fuel) whole) as (Hok & Hc & Hl & Hb);
      [reflexivity | cbn [buffer whole]; lia |].
    cbn [buffer whole] in Hok, Hb. cbn [accumulatedLen whole] in Hl.
    rewrite Hacc in Hok, Hb.
    pose proof (Z.mod_pos_bound held CHUNK_SIZE chunk_size_positive) as Hmod.
    pose proof (Z.mod_le held CHUNK_SIZE Hnn chunk_size_positive) as Hmodle.
    set (sliced := slicePlan (S fuel) false whole) in *.
    destruct (keepRemainder_tidy (snd sliced) Hc Hl) as (Hkok & Hkept).
    rewrite Hb in Hkok, Hkept.
    rewrite drainPlan_idle.
    2:{ destruct Hkept as (_ & -> & _). rewrite wants_streaming.
        apply Z.leb_gt. lia. }
    cbn [fst snd]. split; [|exact Hkept].
    apply PlanOk_sample.
    { unfold heldBytes. cbn [accumulatedChunks buffer]. rewrite Hacc. lia. }
    apply PlanOk_sample.
    { unfold heldBytes. cbn [accumulatedChunks buffer whole].
      rewrite Hacc. change (blen (bufferConcat [])) with 0. lia. }
    rewrite app_nil_r, <- (app_nil_r (replicate _ _)). apply PlanOk_app.
    + eapply PlanOk_weaken; [|exact Hok]. lia.
    + eapply PlanOk_weaken; [|exact Hkok]. lia.
  - apply Z.leb_gt in Hfull. rewrite drainPlan_idle.
    2:{ rewrite Hlen, wants_streaming. apply Z.leb_gt. lia. }
    cbn [fst snd]. rewrite Z.div_small, Z.mod_small by lia.
    split; [apply PlanOk_nil | repeat split; assumption].
Qed.

(** Draining after the stream has ended. *)
Lemma drainPlan_final (fuel : nat) (bufs : Buffers) (held : Z) :
  Tidy bufs held ->
  held < CHUNK_SIZE ->
  PlanOk (2 * held) (if held =? 0 then [] else [(held, true)])
    (fst (drainPlan (S fuel) true bufs)).
Proof.
  intros (Hbuf & Hlen & Hacc) Hsmall.
  assert (Hnn : 0 <= held) by (rewrite <- Hacc; apply blen_nonneg).
  destruct (held =? 0) eqn:Hzero.
  - apply Z.eqb_eq in Hzero. rewrite drainPlan_idle.
    + apply PlanOk_nil.
    + rewrite Hlen, wants_final by lia. apply Z.ltb_ge. lia.
  - apply Z.eqb_neq in Hzero.
    cbn [drainPlan]. rewrite Hlen, wants_final by lia.
    replace (0 <? held) with true by (symmetry; apply Z.ltb_lt; lia).
    cbn [buffer].
    set (whole := {| accumulatedChunks := []; accumulatedLen := 0;
                     buffer := bufferConcat (accumulatedChunks bufs) |}).
    destruct (slicePlan_final fuel whole) as (Hok & Hc & Hl & Hb);
      [reflexivity | cbn [buffer whole]; lia |].
    cbn [buffer whole] in Hok. cbn [accumulatedLen whole] in Hl.
    rewrite Hacc in Hok.
    set (sliced := slicePlan (S fuel) true whole) in *.
    destruct (keepRemainder_tidy (snd sliced) Hc Hl) as (Hkok & Hkept).
    rewrite Hb in Hkok, Hkept.
    rewrite drainPlan_idle.
    2:{ destruct Hkept as (_ & -> & _). rewrite wants_final by lia.
        reflexivity. }
    cbn [fst snd].
    apply PlanOk_sample.
    { unfold heldBytes. cbn [accumulatedChunks buffer]. rewrite Hacc. lia. }
    apply PlanOk_sample.
    { unfold heldBytes. cbn [accumulatedChunks buffer whole].
      rewrite Hacc. change (blen (bufferConcat [])) with 0. lia. }
    rewrite app_nil_r, <- (app_nil_r [_]). apply PlanOk_app.
    + eapply PlanOk_weaken; [|exact Hok]. lia.
    + eapply PlanOk_weaken; [|exact Hkok]. lia.
Qed.

Lemma streamLength_cons (value : Buffer) (rest : list Buffer) :
  streamLength (value :: rest) = blen value + streamLength rest.
Proof. unfold streamLength, bufferConcat. cbn [concat]. apply blen_app. Qed.

Lemma streamLength_nonneg (stream : list Buffer) : 0 <= streamLength stream.
Proof. apply blen_nonneg. Qed.

Lemma fullChunks_split (held more : Z) :
  0 <= held -> 0 <= more ->
  replicate (Z.to_nat (held / CHUNK_SIZE)) (CHUNK_SIZE, false)
    ++ replicate (Z.to_nat ((held mod CHUNK_SIZE + more) / CHUNK_SIZE))
         (CHUNK_SIZE, false)
  = replicate (Z.to_nat ((held + more) / CHUNK_SIZE)) (CHUNK_SIZE, false).
Proof.
  intros Hheld Hmore.
  pose proof (Z.mod_pos_bound held CHUNK_SIZE chunk_size_positive) as Hmod.
  assert (Hsum : held + more
                 = (held mod CHUNK_SIZE + more) + (held / CHUNK_SIZE) * CHUNK_SIZE).
  { pose proof (Z.div_mod held CHUNK_SIZE). lia. }
  rewrite Hsum. rewrite Z.div_add by lia.
  rewrite <- replicate_add. f_equal.
  pose proof (Z.div_pos held CHUNK_SIZE).
  pose proof (Z.div_pos (held mod CHUNK_SIZE + more) CHUNK_SIZE).
  lia.
Qed.

Lemma chunkShape_split (held more : Z) :
  0 <= held -> 0 <= more ->
  replicate (Z.to_nat (held / CHUNK_SIZE)) (CHUNK_SIZE, false)
    ++ chunkShape (held mod CHUNK_SIZE + more)
  = chunkShape (held + more).
Proof.
  intros Hheld Hmore. unfold chunkShape.
  pose proof (Z.mod_pos_bound held CHUNK_SIZE chunk_size_positive) as Hmod.
  assert (Hsum : held + more
                 = (held mod CHUNK_SIZE + more) + (held / CHUNK_SIZE) * CHUNK_SIZE).
  { pose proof (Z.div_mod held CHUNK_SIZE). lia. }
  rewrite Hsum, Z.div_add, Z.mod_add by lia.
  rewrite app_assoc, <- replicate_add. do 2 f_equal.
  pose proof (Z.div_pos held CHUNK_SIZE).
  pose proof (Z.div_pos (held mod CHUNK_SIZE + more) CHUNK_SIZE).
  lia.
Qed.

(** The whole schedule: the chunks of the stream (the full ones only when
    the stream fails in the end), no starvation, and buffers that never
    hold more than twice a chunk less one byte plus one fragment. *)
Lemma readPlan_shape (fuel : nat) (stream : list Buffer) (rejects : bool)
    (bufs : Buffers) (held frag : Z) :
  Tidy bufs held ->
  held < CHUNK_SIZE ->
  Forall (fun value => blen value <= frag) stream ->
  0 <= frag ->
  held + streamLength stream < Z.of_nat fuel ->
  PlanOk (2 * (CHUNK_SIZE - 1 + frag))
    (if rejects
     then replicate (Z.to_nat ((held + streamLength stream) / CHUNK_SIZE))
            (CHUNK_SIZE, false)
     else chunkShape (held + streamLength stream))
    (readPlan fuel stream rejects bufs).
Proof.
  revert bufs held.
  induction stream as [|value rest IH]; intros bufs held Htidy Hsmall Hfrag Hf Hfuel.
  - assert (Hnn : 0 <= held).
    { destruct Htidy as (_ & _ & <-). apply blen_nonneg. }
    change (streamLength []) with 0 in *. rewrite Z.add_0_r in *.
    cbn [readPlan]. destruct rejects.
    { rewrite Z.div_small by lia. repeat split.
      - rewrite not_elem_of_cons. split; [discriminate|apply not_elem_of_nil].
      - constructor. }
    destruct fuel as [|fuel]; [lia|].
    eapply PlanOk_weaken; [|replace (chunkShape held)
        with (if held =? 0 then [] else [(held, true)]);
        [apply (drainPlan_final fuel bufs held Htidy Hsmall)|]].
    + lia.
    + unfold chunkShape. rewrite Z.div_small, Z.mod_small by lia. reflexivity.
  - rewrite streamLength_cons in *. cbn [readPlan].
    pose proof (blen_nonneg value) as Hv.
    pose proof (streamLength_nonneg rest) as Hrest.
    apply Forall_cons in Hfrag as [Hvalue Hfrag].
    assert (Hnn : 0 <= held).
    { destruct Htidy as (_ & _ & <-). apply blen_nonneg. }
    assert (Hpushed : Tidy (pushChunk value bufs) (held + blen value)).
    { destruct Htidy as (Hb & Hl & Ha). repeat split; cbn; auto.
      - lia.
      - unfold bufferConcat in *. rewrite concat_app, blen_app. cbn.
        rewrite app_nil_r. lia. }
    destruct (drainPlan_streaming fuel _ _ Hpushed) as (Hok & Hkept); [lia|].
    pose proof (Z.mod_pos_bound (held + blen value) CHUNK_SIZE
                  chunk_size_positive) as Hmod.
    pose proof (Z.mod_le (held + blen value) CHUNK_SIZE) as Hmodle.
    apply PlanOk_sample.
    { unfold heldBytes. destruct Hpushed as (-> & _ & ->).
      change (blen []) with 0. lia. }
    replace (held + (blen value + streamLength rest))
      with ((held + blen value) + streamLength rest) by lia.
    specialize (IH _ _ Hkept ltac:(lia) Hfrag Hf ltac:(lia)).
    destruct rejects.
    + rewrite <- fullChunks_split by lia.
      apply PlanOk_app; [|exact IH].
      eapply PlanOk_weaken; [|exact Hok]. lia.
    + rewrite <- chunkShape_split by lia.
      apply PlanOk_app; [|exact IH].
      eapply PlanOk_weaken; [|exact Hok]. lia.
Qed.

(** A schedule that is never starved ends otherwise. *)
Lemma script_not_starved (plan : list Action) (s : Session) (srv : ServerState)
    (n : nat) :
  Exhausted ∉ plan -> ending (script plan s srv n) <> Starved.
Proof.
  revert s srv n. induction plan as [|act plan IH]; intros s srv n Hex.
  - discriminate.
  - apply not_elem_of_cons in Hex as [Hne Hex].
    destruct act as [k|sending flag| |]; cbn [script].
    + cbn. auto.
    + destruct (stageWrite n sending); [|discriminate].
      destruct (attemptEnd _ _) as [e|] eqn:Hend; cbn; [|auto].
      destruct (attemptEnd_stops _ _ _ Hend) as [[resp ->]|[err ->]];
        discriminate.
    + discriminate.
    + congruence.
Qed.

End PositiveChunkSize.

(** ** What the script of a schedule logs *)

Lemma heldSamples_app (a b : list Event) :
  heldSamples (a ++ b) = heldSamples a ++ heldSamples b.
Proof. induction a as [|[] a IH]; simpl; rewrite ?IH; reflexivity. Qed.

Lemma progressCalls_app (a b : list Event) :
  progressCalls (a ++ b) = progressCalls a ++ progressCalls b.
Proof. induction a as [|[] a IH]; simpl; rewrite ?IH; reflexivity. Qed.



(** The events of one chunk attempt, whatever the progress setting. *)
Lemma exchanges_attempt (path : string) (sending : Buffer) (req : Request)
    (reply : Reply) (tail : list Event) (uploaded total : Z) :
  exchanges
    (([Wrote path sending; Sent req reply; Removed path]
      ++ (if onProgress args then [Progress uploaded total] else [])) ++ tail)
  = (req, reply) :: exchanges tail.
Proof. destruct (onProgress args); reflexivity. Qed.

(** The events of an attempt that ended the schedule. *)
Lemma exchanges_stop (path : string) (sending : Buffer) (req : Request)
    (reply : Reply) (released : bool) :
  exchanges
    ([Wrote path sending; Sent req reply]
     ++ (if released then [Removed path] else []))
  = [(req, reply)].
Proof. destruct released; reflexivity. Qed.

(** The events of a chunk that could not be written. *)
Lemma exchanges_unwritten (path : string) (partial : option Buffer) :
  exchanges
    (match partial with Some data => [Wrote path data] | None => [] end)
  = [].
Proof. destruct partial; reflexivity. Qed.

Lemma attemptEnd_none (n : nat) (reply : Reply) :
  attemptEnd n reply = None ->
  continues reply = true /\ unlinkThrows n false = false.
Proof.
  unfold attemptEnd, listsFiles, continues, verdict.
  destruct reply as [|status parsed].
  - cbn. destruct (unlinkThrows n false); discriminate.
  - destruct (statusOk status), (hasFiles parsed) as [[]|],
      (partialFailed parsed), (unlinkThrows n true), (unlinkThrows n false);
      cbn; try discriminate; auto.
Qed.

Lemma attemptEnd_some (n : nat) (reply : Reply) (e : Ending) :
  attemptEnd n reply = Some e ->
  (continues reply = false /\ e = verdict reply)
  \/ e = Failed (UnlinkFailed (chunkPath n)).
Proof.
  unfold attemptEnd, listsFiles, continues, verdict.
  destruct reply as [|status parsed].
  - cbn. destruct (unlinkThrows n false); intros [= <-]; auto.
  - destruct (statusOk status), (hasFiles parsed) as [[]|],
      (partialFailed parsed), (unlinkThrows n true), (unlinkThrows n false);
      cbn; intros [= <-]; auto.
Qed.

(** An attempt that did not end with a file-system error has removed its
    chunk. *)
Lemma attemptEnd_released (n : nat) (reply : Reply) (e : Ending) :
  attemptEnd n reply = Some e ->
  diskFailed e = false ->
  chunkReleased n reply = true.
Proof.
  unfold attemptEnd, chunkReleased.
  destruct (listsFiles reply), (unlinkThrows n true), (unlinkThrows n false);
    cbn; try reflexivity; intros [= <-]; discriminate.
Qed.

(** An attempt that made the function return. *)
Lemma attemptEnd_completed (n : nat) (reply : Reply) (resp : Json) :
  attemptEnd n reply = Some (Completed resp) ->
  chunkReleased n reply = true
  /\ exists status,
       reply = HttpReply status resp
       /\ statusOk status = true
       /\ hasFiles resp = Some true.
Proof.
  intros Hend. split.
  { apply (attemptEnd_released _ _ _ Hend). reflexivity. }
  revert Hend. unfold attemptEnd, listsFiles, continues, verdict.
  destruct reply as [|status parsed].
  - cbn. destruct (unlinkThrows n false); discriminate.
  - destruct (statusOk status) eqn:Hok, (hasFiles parsed) as [[]|] eqn:Hfiles,
      (partialFailed parsed), (unlinkThrows n true), (unlinkThrows n false);
      cbn; try discriminate; intros [= <-]; eauto.
Qed.


(** What a reply that says [partialSuccess: false] and passes no files does
    to its attempt. *)
Lemma attemptEnd_refused (n : nat) (status : Z) (parsed : Json) :
  statusOk status = true ->
  hasFiles parsed = Some false ->
  partialFailed parsed = true ->
  attemptEnd n (HttpReply status parsed)
  = Some (Failed (if unlinkThrows n false
                  then UnlinkFailed (chunkPath n)
                  else PartialSuccessFalse)).
Proof.
  intros Hok Hfiles Hfailed. unfold attemptEnd, listsFiles, continues, verdict.
  rewrite Hok, Hfiles, Hfailed. cbn.
  destruct (unlinkThrows n false); reflexivity.
Qed.

Ltac script_step s srv n sending flag Hw He :=
  cbn [script];
  destruct (stageWrite n sending) as [|?partial] eqn:Hw;
  [destruct (attemptEnd n (snd (serve srv (chunkRequest s sending flag))))
     as [?e|] eqn:He|];
  cbn [events ending sessionAfter serverAfter stagedAfter prepend].

Lemma script_orderly (plan : list Action) (s : Session) (srv : ServerState)
    (n : nat) :
  Orderly n (exchanges (events (script plan s srv n)))
    (ending (script plan s srv n)).
Proof.
  revert s srv n.
  induction plan as [|[k|sending flag| |] plan IH]; intros s srv n.
  - right; left. split; [left; reflexivity | constructor].
  - cbn. apply IH.
  - script_step s srv n sending flag Hw He.
    + rewrite exchanges_stop. right; right.
      exists [], (chunkRequest s sending flag),
        (snd (serve srv (chunkRequest s sending flag))).
      cbn [length]. rewrite Nat.add_0_r. repeat split; auto.
    + rewrite exchanges_attempt.
      destruct (attemptEnd_none _ _ He) as [Hc _].
      specialize (IH
        {| uploadedBytes := uploadedBytes s + blen sending;
           partialIdentifier :=
             identifierAfter (partialIdentifier s)
               (snd (serve srv (chunkRequest s sending flag))) |}
        (fst (serve srv (chunkRequest s sending flag))) (S n)).
      destruct IH as [Hst|[[Hq Hall]|(pre & req & reply & Hex & Hpre & Hend)]].
      * left. exact Hst.
      * right; left. split; [exact Hq|]. constructor; auto.
      * right; right.
        exists ((chunkRequest s sending flag,
                 snd (serve srv (chunkRequest s sending flag))) :: pre),
          req, reply.
        rewrite Hex. cbn [length]. rewrite Nat.add_succ_r.
        repeat split; auto.
    + rewrite exchanges_unwritten. right; left.
      split; [right; right; eauto | constructor].
  - right; left. split; [right; left; reflexivity | constructor].
  - left. reflexivity.
Qed.

Lemma script_headers (plan : list Action) (s : Session) (srv : ServerState)
    (n : nat) :
  headerOf <$> requests (events (script plan s srv n))
    `prefix_of` expectedHeaders (uploadedBytes s) (pieceShapes plan)
  /\ (ending (script plan s srv n) = Finished ->
      headerOf <$> requests (events (script plan s srv n))
      = expectedHeaders (uploadedBytes s) (pieceShapes plan)).
Proof.
  revert s srv n.
  induction plan as [|[k|sending flag| |] plan IH]; intros s srv n.
  - split; [apply prefix_nil | reflexivity].
  - cbn. apply IH.
  - unfold requests. script_step s srv n sending flag Hw He.
    + rewrite exchanges_stop.
      cbn [pieceShapes expectedHeaders fmap list_fmap fst]. split.
      * apply prefix_cons, prefix_nil.
      * intros Hend.
        destruct (attemptEnd_stops _ _ _ He) as [[resp Hv]|[err Hv]];
          rewrite Hv in Hend; discriminate.
    + rewrite exchanges_attempt. cbn [pieceShapes expectedHeaders fmap list_fmap fst].
      specialize (IH
        {| uploadedBytes := uploadedBytes s + blen sending;
           partialIdentifier :=
             identifierAfter (partialIdentifier s)
               (snd (serve srv (chunkRequest s sending flag))) |}
        (fst (serve srv (chunkRequest s sending flag))) (S n)).
      cbn [uploadedBytes] in IH. destruct IH as [Hpre Heq]. split.
      * apply prefix_cons. exact Hpre.
      * intros Hend. f_equal. apply Heq, Hend.
    + rewrite exchanges_unwritten. split; [apply prefix_nil | discriminate].
  - split; [apply prefix_nil | discriminate].
  - split; [apply prefix_nil | discriminate].
Qed.

(** Every request states its range end and both total lengths
    consistently. *)
Lemma script_requests_wellformed (plan : list Action) (s : Session)
    (srv : ServerState) (n : nat) :
  Forall
    (fun req =>
       rangeEnd req = rangeStart req + blen (body req) - 1
       /\ pContentLength req = rangeTotal req)
    (requests (events (script plan s srv n))).
Proof.
  revert s srv n.
  induction plan as [|[k|sending flag| |] plan IH]; intros s srv n.
  - constructor.
  - cbn. apply IH.
  - unfold requests. script_step s srv n sending flag Hw He.
    + rewrite exchanges_stop. repeat constructor.
    + rewrite exchanges_attempt. constructor; [split; reflexivity | apply IH].
    + rewrite exchanges_unwritten. constructor.
  - constructor.
  - constructor.
Qed.

Lemma script_identifiers (plan : list Action) (s : Session) (srv : ServerState)
    (n : nat) (i : nat) (req : Request) (reply : Reply) :
  exchanges (events (script plan s srv n)) !! i = Some (req, reply) ->
  pIdentifier req =
  (let current :=
     foldl identifierAfter (partialIdentifier s)
       (take i (exchanges (events (script plan s srv n))).*2) in
   if truthy current then Some current else None).
Proof.
  revert s srv n i.
  induction plan as [|[k|sending flag| |] plan IH]; intros s srv n i.
  - discriminate.
  - cbn. apply IH.
  - script_step s srv n sending flag Hw He.
    + rewrite exchanges_stop. destruct i as [|i]; cbn; [|discriminate].
      intros [= <- <-]. reflexivity.
    + rewrite exchanges_attempt. destruct i as [|i]; cbn.
      * intros [= <- <-]. reflexivity.
      * intros Hi. apply IH in Hi. exact Hi.
    + rewrite exchanges_unwritten. discriminate.
  - discriminate.
  - discriminate.
Qed.

Lemma script_rangeStart (plan : list Action) (s : Session) (srv : ServerState)
    (n : nat) (i : nat) (req : Request) (reply : Reply) :
  exchanges (events (script plan s srv n)) !! i = Some (req, reply) ->
  rangeStart req =
  uploadedBytes s
  + acknowledgedBytes (take i (exchanges (events (script plan s srv n)))).
Proof.
  revert s srv n i.
  induction plan as [|[k|sending flag| |] plan IH]; intros s srv n i.
  - discriminate.
  - cbn. apply IH.
  - script_step s srv n sending flag Hw He.
    + rewrite exchanges_stop. destruct i as [|i]; cbn; [|discriminate].
      intros [= <- <-]. cbn. lia.
    + rewrite exchanges_attempt.
      destruct (attemptEnd_none _ _ He) as [Hc _].
      destruct i as [|i]; cbn.
      * intros [= <- <-]. cbn. lia.
      * intros Hi. apply IH in Hi. rewrite Hi, Hc. cbn. lia.
    + rewrite exchanges_unwritten. discriminate.
  - discriminate.
  - discriminate.
Qed.

Lemma unlinkFailed_quiet (e : Ending) : Quiet e -> unlinkFailed e = false.
Proof. intros [->|[->|[path ->]]]; reflexivity. Qed.

(** An attempt before the last has run to its end. *)
Lemma settled_cons (n : nat) (x : Request * Reply)
    (ex : list (Request * Reply)) (e : Ending) :
  Orderly n ex e ->
  settled (x :: ex) (unlinkFailed e) = x :: settled ex (unlinkFailed e).
Proof.
  intros Hord. unfold settled.
  destruct (unlinkFailed e) eqn:Hu; [|reflexivity].
  destruct Hord as [->|[[Hq _]|(pre & req & reply & -> & _)]].
  - discriminate.
  - rewrite unlinkFailed_quiet in Hu by exact Hq. discriminate.
  - cbn [removelast]. destruct pre; reflexivity.
Qed.

Lemma settled_stop (n : nat) (req : Request) (reply : Reply) (e : Ending) :
  attemptEnd n reply = Some e ->
  filter (fun x => continues (snd x) = true)
    (settled [(req, reply)] (unlinkFailed e)) = [].
Proof.
  intros Hend. unfold settled.
  destruct (unlinkFailed e) eqn:Hu; [reflexivity|].
  destruct (attemptEnd_some _ _ _ Hend) as [[Hc _]| ->]; [|discriminate].
  rewrite filter_cons_False by (cbn; congruence). reflexivity.
Qed.

Lemma acknowledgedBytes_filter (ex : list (Request * Reply)) :
  acknowledgedBytes (filter (fun x => continues (snd x) = true) ex)
  = acknowledgedBytes ex.
Proof.
  induction ex as [|[req reply] ex IH]; [reflexivity|].
  destruct (continues reply) eqn:Hc.
  - rewrite filter_cons_True by exact Hc. cbn. rewrite Hc, IH. reflexivity.
  - rewrite filter_cons_False by (cbn; congruence). cbn. rewrite Hc, IH.
    reflexivity.
Qed.

(** The counter has advanced by the chunks whose attempt ran to its end
    after a reply that lets the transfer go on. *)
Lemma script_uploadedBytes (plan : list Action) (s : Session)
    (srv : ServerState) (n : nat) :
  uploadedBytes (sessionAfter (script plan s srv n)) =
  uploadedBytes s
  + acknowledgedBytes
      (settled (exchanges (events (script plan s srv n)))
         (unlinkFailed (ending (script plan s srv n)))).
Proof.
  revert s srv n.
  induction plan as [|[k|sending flag| |] plan IH]; intros s srv n.
  - cbn. lia.
  - cbn. apply IH.
  - script_step s srv n sending flag Hw He.
    + rewrite exchanges_stop, <- acknowledgedBytes_filter.
      rewrite (settled_stop _ _ _ _ He). cbn. lia.
    + rewrite exchanges_attempt.
      destruct (attemptEnd_none _ _ He) as [Hc _].
      rewrite (settled_cons (S n)) by apply script_orderly.
      rewrite IH. cbn. rewrite Hc. lia.
    + rewrite exchanges_unwritten. cbn. lia.
  - cbn. lia.
  - cbn. lia.
Qed.

(** The progress calls are those of the chunks whose attempt ran to its end
    after a reply that lets the transfer go on. *)
Lemma script_progress (plan : list Action) (s : Session) (srv : ServerState)
    (n : nat) :
  progressCalls (events (script plan s srv n)) =
  if onProgress args
  then progressOf <$>
         filter (fun x => continues (snd x) = true)
           (settled (exchanges (events (script plan s srv n)))
              (unlinkFailed (ending (script plan s srv n))))
  else [].
Proof.
  revert s srv n.
  induction plan as [|[k|sending flag| |] plan IH]; intros s srv n.
  - destruct (onProgress args); reflexivity.
  - cbn. apply IH.
  - script_step s srv n sending flag Hw He.
    + rewrite exchanges_stop, (settled_stop _ _ _ _ He).
      destruct (chunkReleased _ _), (onProgress args); reflexivity.
    + rewrite exchanges_attempt, progressCalls_app, IH.
      destruct (attemptEnd_none _ _ He) as [Hc _].
      rewrite (settled_cons (S n)) by apply script_orderly.
      rewrite filter_cons_True by exact Hc.
      destruct (onProgress args); reflexivity.
    + rewrite exchanges_unwritten.
      destruct partial, (onProgress args); reflexivity.
  - destruct (onProgress args); reflexivity.
  - destruct (onProgress args); reflexivity.
Qed.


Lemma script_samples (P : Z -> Prop) (plan : list Action) (s : Session)
    (srv : ServerState) (n : nat) :
  Forall P (planSamples plan) ->
  Forall P (heldSamples (events (script plan s srv n))).
Proof.
  revert s srv n.
  induction plan as [|[k|sending flag| |] plan IH]; intros s srv n Hall.
  - constructor.
  - cbn in *. apply Forall_cons in Hall as [Hk Hall].
    constructor; auto.
  - script_step s srv n sending flag Hw He.
    + destruct (chunkReleased _ _); constructor.
    + rewrite heldSamples_app.
      replace (heldSamples _) with (@nil Z) by (destruct (onProgress args); reflexivity).
      apply IH, Hall.
    + destruct partial; constructor.
  - constructor.
  - constructor.
Qed.

(** A schedule that made the function return a reply ends with the exchange
    of that reply and the removal of its chunk. *)
Lemma script_completed_tail (plan : list Action) (s : Session)
    (srv : ServerState) (n : nat) (resp : Json) :
  ending (script plan s srv n) = Completed resp ->
  exists evs path sending req status,
    events (script plan s srv n)
    = evs ++ [Wrote path sending; Sent req (HttpReply status resp);
              Removed path]
    /\ statusOk status = true
    /\ hasFiles resp = Some true.
Proof.
  revert s srv n.
  induction plan as [|[k|sending flag| |] plan IH]; intros s srv n.
  - discriminate.
  - cbn. intros Hend. destruct (IH s srv n Hend)
      as (evs & path & sending & req & status & -> & Hok & Hfiles).
    exists (Held k :: evs), path, sending, req, status. auto.
  - script_step s srv n sending flag Hw He; intros Hend.
    + subst e.
      destruct (attemptEnd_completed _ _ _ He)
        as (-> & status & Hreply & Hok & Hfiles).
      rewrite Hreply.
      exists [], (chunkPath n), sending, (chunkRequest s sending flag), status.
      auto.
    + destruct (IH _ _ _ Hend)
        as (evs & path & sent & req & status & -> & Hok & Hfiles).
      eexists (_ ++ evs), path, sent, req, status.
      split; [apply app_assoc | auto].
    + discriminate.
  - discriminate.
  - discriminate.
Qed.

(** ** A call and its script *)

Lemma read_run (fuel : nat) (stream : list Buffer) (rejects : bool)
    (disk : gmap string Buffer) (srv : ServerState) (n : nat) :
  upload fuel (if rejects then DownloadBroken stream else DownloadBody stream)
    disk srv n =
  let sc := readScript fuel stream rejects srv n in
  let w :=
    {| files := replay (events sc) disk;
       server := serverAfter sc;
       staged := stagedAfter sc;
       log := events sc |} in
  match ending sc with
  | Finished => Returned streamEndResult (sessionAfter sc) w
  | Completed resp => Returned resp (sessionAfter sc) w
  | Failed e => Threw e (sessionAfter sc) w
  | Starved => OutOfFuel
  end.
Proof.
  unfold upload. rewrite upload_script. unfold realize, readScript.
  cbn [files server staged log startWorld app].
  destruct rejects; cbn [uploadScript]; destruct (ending _); reflexivity.
Qed.

Lemma transfer_script (fuel : nat) (stream : list Buffer)
    (disk : gmap string Buffer) (srv : ServerState) (n : nat) :
  transfer fuel stream disk srv n =
  let sc := transferScript fuel stream srv n in
  let w :=
    {| files := replay (events sc) disk;
       server := serverAfter sc;
       staged := stagedAfter sc;
       log := events sc |} in
  match ending sc with
  | Finished => Returned streamEndResult (sessionAfter sc) w
  | Completed resp => Returned resp (sessionAfter sc) w
  | Failed e => Threw e (sessionAfter sc) w
  | Starved => OutOfFuel
  end.
Proof. exact (read_run fuel stream false disk srv n). Qed.

Lemma fragments_within_stream (stream : list Buffer) :
  Forall (fun value => blen value <= streamLength stream) stream.
Proof.
  induction stream as [|value rest IH]; constructor.
  - rewrite streamLength_cons. pose proof (streamLength_nonneg rest). lia.
  - eapply Forall_impl; [exact IH|]. cbn. intros v Hv.
    rewrite streamLength_cons. pose proof (blen_nonneg value). lia.
Qed.

Lemma initialBuffers_tidy : Tidy initialBuffers 0.
Proof. repeat split. Qed.

Lemma read_plan (fuel : nat) (stream : list Buffer) (rejects : bool)
    (frag : Z) :
  0 < CHUNK_SIZE ->
  streamLength stream < Z.of_nat fuel ->
  Forall (fun value => blen value <= frag) stream ->
  0 <= frag ->
  PlanOk (2 * (CHUNK_SIZE - 1 + frag))
    (if rejects
     then replicate (Z.to_nat (streamLength stream / CHUNK_SIZE))
            (CHUNK_SIZE, false)
     else chunkShape (streamLength stream))
    (readPlan fuel stream rejects initialBuffers).
Proof.
  intros Hpos Hfuel Hfrag Hnn.
  apply (readPlan_shape Hpos fuel stream rejects initialBuffers 0 frag);
    auto using initialBuffers_tidy.
Qed.

Lemma transfer_plan (fuel : nat) (stream : list Buffer) (frag : Z) :
  0 < CHUNK_SIZE ->
  streamLength stream < Z.of_nat fuel ->
  Forall (fun value => blen value <= frag) stream ->
  0 <= frag ->
  PlanOk (2 * (CHUNK_SIZE - 1 + frag)) (chunkShape (streamLength stream))
    (readPlan fuel stream false initialBuffers).
Proof. apply (read_plan fuel stream false). Qed.

Lemma read_not_starved (fuel : nat) (stream : list Buffer) (rejects : bool)
    (srv : ServerState) (n : nat) :
  0 < CHUNK_SIZE ->
  streamLength stream < Z.of_nat fuel ->
  ending (readScript fuel stream rejects srv n) <> Starved.
Proof.
  intros Hpos Hfuel. apply script_not_starved.
  eapply (read_plan fuel stream rejects (streamLength stream)); auto.
  - apply fragments_within_stream.
  - apply streamLength_nonneg.
Qed.

Lemma transfer_not_starved (fuel : nat) (stream : list Buffer)
    (srv : ServerState) (n : nat) :
  0 < CHUNK_SIZE ->
  streamLength stream < Z.of_nat fuel ->
  ending (transferScript fuel stream srv n) <> Starved.
Proof. apply (read_not_starved fuel stream false). Qed.

(** With a positive chunk size and fuel beyond the length of the stream a
    call whose download has succeeded ends by returning or throwing, and
    its log is that of its script. *)
Lemma read_ends (fuel : nat) (stream : list Buffer) (rejects : bool)
    (disk : gmap string Buffer) (srv : ServerState) (n : nat) :
  0 < CHUNK_SIZE ->
  streamLength stream < Z.of_nat fuel ->
  let run :=
    upload fuel (if rejects then DownloadBroken stream else DownloadBody stream)
      disk srv n in
  let sc := readScript fuel stream rejects srv n in
  exists w,
    outWorld run = Some w
    /\ outSession run = Some (sessionAfter sc)
    /\ log w = events sc
    /\ files w = replay (events sc) disk
    /\ threwUnlink run = unlinkFailed (ending sc)
    /\ (forall e s' w', run = Threw e s' w' -> ending sc = Failed e)
    /\ (forall resp s' w', run = Returned resp s' w' ->
          ending sc = Finished /\ resp = streamEndResult
          \/ ending sc = Completed resp).
Proof.
  intros Hpos Hfuel. cbv zeta. rewrite read_run. cbv zeta.
  pose proof (read_not_starved fuel stream rejects srv n Hpos Hfuel) as Hns.
  destruct (ending _) as [|resp|e|]; [| | |congruence]; eexists;
    (split; [reflexivity|]); (split; [reflexivity|]);
    (split; [reflexivity|]); (split; [reflexivity|]);
    (split; [reflexivity|]); split; intros ? ? ?; try discriminate.
  - intros [= <- _ _]. auto.
  - intros [= <- _ _]. auto.
  - intros [= <- _ _]. reflexivity.
Qed.

Lemma transfer_ends (fuel : nat) (stream : list Buffer)
    (disk : gmap string Buffer) (srv : ServerState) (n : nat) :
  0 < CHUNK_SIZE ->
  streamLength stream < Z.of_nat fuel ->
  exists w,
    outWorld (transfer fuel stream disk srv n) = Some w
    /\ outSession (transfer fuel stream disk srv n)
       = Some (sessionAfter (transferScript fuel stream srv n))
    /\ log w = events (transferScript fuel stream srv n)
    /\ files w = replay (events (transferScript fuel stream srv n)) disk.
Proof.
  intros Hpos Hfuel.
  destruct (read_ends fuel stream false disk srv n Hpos Hfuel)
    as (w & Hw & Hs & Hlog & Hfiles & _).
  exists w. auto.
Qed.

Lemma transfer_log (fuel : nat) (stream : list Buffer)
    (disk : gmap string Buffer) (srv : ServerState) (n : nat) :
  0 < CHUNK_SIZE ->
  streamLength stream < Z.of_nat fuel ->
  outLog (transfer fuel stream disk srv n)
  = events (transferScript fuel stream srv n).
Proof.
  intros Hpos Hfuel.
  destruct (transfer_ends fuel stream disk srv n Hpos Hfuel)
    as (w & Hw & _ & Hlog & _).
  unfold outLog. rewrite Hw. exact Hlog.
Qed.

(** A reply that does not let the transfer go on is the last one, and its
    attempt ended the schedule. *)
Lemma orderly_stop (n : nat) (ex : list (Request * Reply)) (e : Ending)
    (i : nat) (req : Request) (reply : Reply) :
  Orderly n ex e -> e <> Starved ->
  ex !! i = Some (req, reply) ->
  continues reply = false ->
  length ex = S i /\ attemptEnd (n + i) reply = Some e.
Proof.
  intros Hord Hns Hi Hstop.
  assert (Hbad : forall pre,
    Forall (fun x : Request * Reply => continues (snd x) = true) pre ->
    pre !! i = Some (req, reply) -> False).
  { intros pre Hall Hpre. rewrite Forall_lookup in Hall.
    specialize (Hall _ _ Hpre). cbn in Hall. congruence. }
  destruct Hord as [->|[[_ Hall]|(pre & req' & reply' & -> & Hpre & Hend)]].
  - congruence.
  - exfalso. eauto.
  - destruct (decide (i < length pre)%nat) as [Hlt|Hge].
    { exfalso. apply (Hbad pre Hpre). rewrite lookup_app_l in Hi; auto. }
    rewrite lookup_app_r in Hi by lia.
    destruct (i - length pre)%nat as [|k] eqn:Hk; [|discriminate].
    cbn in Hi. injection Hi as <- <-.
    rewrite length_app. cbn. replace i with (length pre) by lia.
    split; [lia | exact Hend].
Qed.

(** Every reply before the last let the transfer go on. *)
Lemma orderly_before (n : nat) (ex : list (Request * Reply)) (e : Ending)
    (i : nat) :
  Orderly n ex e -> e <> Starved -> (i < length ex)%nat ->
  Forall (fun x => continues (snd x) = true) (take i ex).
Proof.
  intros Hord Hns Hi.
  destruct Hord as [->|[[_ Hall]|(pre & req & reply & -> & Hpre & _)]].
  - congruence.
  - apply Forall_take, Hall.
  - rewrite length_app in Hi. cbn in Hi.
    rewrite take_app_le by lia. apply Forall_take, Hpre.
Qed.

(** ** Headers of the chunks of a stream *)

Lemma expectedHeaders_length (sent : Z) (shapes : list (Z * bool)) :
  length (expectedHeaders sent shapes) = length shapes.
Proof.
  revert sent. induction shapes as [|[size flag] rest IH]; intros sent; cbn;
    [reflexivity | rewrite IH; reflexivity].
Qed.




(** A header of full chunks followed by [tail] is one of the full chunks or
    belongs to [tail]. *)
Lemma expectedHeaders_full_elem (sent : Z) (k : nat) (tail : list (Z * bool))
    (h : ChunkHeader) :
  h ∈ expectedHeaders sent (replicate k (CHUNK_SIZE, false) ++ tail) ->
  (exists j : nat,
     (j < k)%nat
     /\ h = {| hStart := sent + Z.of_nat j * CHUNK_SIZE;
               hSize := CHUNK_SIZE;
               hTotal := contentLength args;
               hLast := contentLength args
                          <=? sent + Z.of_nat j * CHUNK_SIZE + CHUNK_SIZE |})
  \/ h ∈ expectedHeaders (sent + Z.of_nat k * CHUNK_SIZE) tail.
Proof.
  revert sent. induction k as [|k IH]; intros sent.
  - cbn. rewrite Z.add_0_r. auto.
  - cbn [replicate app expectedHeaders]. intros Hin.
    apply elem_of_cons in Hin as [->|Hin].
    + left. exists 0%nat. split; [lia|]. cbn. rewrite Z.add_0_r. reflexivity.
    + apply IH in Hin as [(j & Hj & ->)|Hin].
      * left. exists (S j). split; [lia|].
        replace (sent + CHUNK_SIZE + Z.of_nat j * CHUNK_SIZE)
          with (sent + Z.of_nat (S j) * CHUNK_SIZE) by lia.
        reflexivity.
      * right.
        replace (sent + Z.of_nat (S k) * CHUNK_SIZE)
          with (sent + CHUNK_SIZE + Z.of_nat k * CHUNK_SIZE) by lia.
        exact Hin.
Qed.

Lemma chunk_count (total : Z) :
  0 < CHUNK_SIZE -> 0 <= total ->
  length (chunkShape total)
  = Z.to_nat ((total + CHUNK_SIZE - 1) / CHUNK_SIZE).
Proof.
  intros Hpos Htotal. unfold chunkShape.
  pose proof (Z.mod_pos_bound total CHUNK_SIZE Hpos) as Hmod.
  pose proof (Z.div_pos total CHUNK_SIZE Htotal Hpos) as Hdiv.
  pose proof (Z.div_mod total CHUNK_SIZE ltac:(lia)) as Hdm.
  rewrite length_app, length_replicate.
  set (q := total / CHUNK_SIZE) in *. set (m := total mod CHUNK_SIZE) in *.
  replace (total + CHUNK_SIZE - 1) with ((m + CHUNK_SIZE - 1) + q * CHUNK_SIZE)
    by lia.
  rewrite Z.div_add by lia.
  destruct (m =? 0) eqn:Hm.
  - apply Z.eqb_eq in Hm. rewrite Hm, Z.div_small by lia. cbn. lia.
  - apply Z.eqb_neq in Hm.
    replace (m + CHUNK_SIZE - 1) with ((m - 1) + 1 * CHUNK_SIZE) by lia.
    rewrite Z.div_add, Z.div_small by lia. cbn. lia.
Qed.

Lemma chunkShape_sizes (total : Z) :
  (chunkShape total).*1
  = replicate (Z.to_nat (total / CHUNK_SIZE)) CHUNK_SIZE
    ++ (if (total mod CHUNK_SIZE) =? 0 then [] else [total mod CHUNK_SIZE]).
Proof.
  unfold chunkShape. rewrite fmap_app, fmap_replicate.
  destruct (_ =? 0); reflexivity.
Qed.


(** When a header of the chunks of a stream is flagged last. *)
Lemma chunkShape_header (total : Z) (h : ChunkHeader) :
  0 < CHUNK_SIZE -> 0 <= total ->
  h ∈ expectedHeaders 0 (chunkShape total) ->
  hStart h + hSize h <= total
  /\ (hStart h + hSize h < total ->
      (hLast h = true <-> contentLength args <= hStart h + hSize h))
  /\ (hStart h + hSize h = total ->
      total mod CHUNK_SIZE <> 0 \/ contentLength args <= total ->
      hLast h = true).
Proof.
  intros Hpos Htotal Hin. unfold chunkShape in Hin.
  pose proof (Z.mod_pos_bound total CHUNK_SIZE Hpos) as Hmod.
  pose proof (Z.div_pos total CHUNK_SIZE Htotal Hpos) as Hdiv.
  pose proof (Z.div_mod total CHUNK_SIZE ltac:(lia)) as Hdm.
  set (q := total / CHUNK_SIZE) in *. set (m := total mod CHUNK_SIZE) in *.
  apply expectedHeaders_full_elem in Hin as [(j & Hj & ->)|Hin]; cbn.
  - assert (Hjq : Z.of_nat j + 1 <= q) by lia.
    assert (Hstop : 0 + Z.of_nat j * CHUNK_SIZE + CHUNK_SIZE <= q * CHUNK_SIZE)
      by nia.
    split; [lia|]. split.
    + intros _. rewrite Z.leb_le. lia.
    + intros Hall [Hm|Hle]; [lia|]. apply Z.leb_le. lia.
  - destruct (m =? 0) eqn:Hm; [apply elem_of_nil in Hin; contradiction|].
    apply Z.eqb_neq in Hm. cbn in Hin. apply list_elem_of_singleton in Hin.
    subst h. cbn. rewrite Z2Nat.id by lia. split; [lia|]. split.
    + intros Hlt. lia.
    + intros _ _. apply Z.leb_refl.
Qed.

(** ** The chunks a transfer sends *)

Lemma transfer_headers (fuel : nat) (stream : list Buffer)
    (srv : ServerState) (n : nat) :
  0 < CHUNK_SIZE ->
  streamLength stream < Z.of_nat fuel ->
  headerOf <$> requests (events (transferScript fuel stream srv n))
    `prefix_of` expectedHeaders 0 (chunkShape (streamLength stream))
  /\ (ending (transferScript fuel stream srv n) = Finished ->
      headerOf <$> requests (events (transferScript fuel stream srv n))
      = expectedHeaders 0 (chunkShape (streamLength stream))).
Proof.
  intros Hpos Hfuel.
  destruct (transfer_plan fuel stream (streamLength stream) Hpos Hfuel
              (fragments_within_stream stream) (streamLength_nonneg stream))
    as (Hshape & _ & _).
  rewrite <- Hshape. apply script_headers.
Qed.

(** C1 (amended): a chunk after which stream bytes are still to be sent is
    flagged last exactly when the bytes sent through it reach the declared
    length; the chunk that ends the stream is flagged last when it is the
    short remainder cut after the stream has ended, or when the declared
    length does not exceed the length of the stream. *)
Theorem last_chunk_flag (fuel : nat) (stream : list Buffer)
    (disk : gmap string Buffer) (srv : ServerState) (n : nat) (req : Request) :
  0 < CHUNK_SIZE ->
  streamLength stream < Z.of_nat fuel ->
  req ∈ requests (outLog (transfer fuel stream disk srv n)) ->
  rangeEnd req + 1 <= streamLength stream
  /\ (rangeEnd req + 1 < streamLength stream ->
      (pLastchunk req = true <-> contentLength args <= rangeEnd req + 1))
  /\ (rangeEnd req + 1 = streamLength stream ->
      streamLength stream mod CHUNK_SIZE <> 0
      \/ contentLength args <= streamLength stream ->
      pLastchunk req = true).
Proof.
  intros Hpos Hfuel Hin. rewrite transfer_log in Hin by assumption.
  pose proof (script_requests_wellformed (readPlan fuel stream false initialBuffers)
                initialSession srv n) as Hwf.
  fold (transferScript fuel stream srv n) in Hwf.
  rewrite Forall_forall in Hwf. destruct (Hwf _ Hin) as [Hend _].
  destruct (transfer_headers fuel stream srv n Hpos Hfuel) as [[more Hpre] _].
  assert (Hh : headerOf req ∈ expectedHeaders 0 (chunkShape (streamLength stream))).
  { rewrite Hpre. apply elem_of_app. left. apply list_elem_of_fmap_2, Hin. }
  apply chunkShape_header in Hh; auto using streamLength_nonneg.
  cbn [headerOf hStart hSize hLast] in Hh.
  replace (rangeEnd req + 1) with (rangeStart req + blen (body req)) by lia.
  exact Hh.
Qed.



Lemma hasFiles_streamEndResult : hasFiles streamEndResult = Some false.
Proof. reflexivity. Qed.

(** A transfer that returns [{partialSuccess: true}] went through its whole
    schedule. *)
Lemma stream_end_finished (fuel : nat) (stream : list Buffer)
    (disk : gmap string Buffer) (srv : ServerState) (n : nat)
    (s : Session) (w : World) :
  transfer fuel stream disk srv n = Returned streamEndResult s w ->
  ending (transferScript fuel stream srv n) = Finished.
Proof.
  rewrite transfer_script. cbv zeta.
  destruct (ending (transferScript fuel stream srv n)) as [|resp| |] eqn:Hend;
    [reflexivity | | discriminate | discriminate].
  intros [= -> _ _].
  destruct (script_completed_tail _ _ _ _ _ Hend)
    as (_ & _ & _ & _ & _ & _ & _ & Hfiles).
  rewrite hasFiles_streamEndResult in Hfiles. discriminate.
Qed.




(** ** How a call ends *)



(** What a reply that says [partialSuccess: false] does, for a call whose
    download has succeeded. *)
Lemma read_partial_failure (fuel : nat) (stream : list Buffer)
    (rejects : bool) (disk : gmap string Buffer) (srv : ServerState) (n : nat)
    (i : nat) (req : Request) (status : Z) (parsed : Json) :
  0 < CHUNK_SIZE ->
  streamLength stream < Z.of_nat fuel ->
  let run :=
    upload fuel (if rejects then DownloadBroken stream else DownloadBody stream)
      disk srv n in
  exchanges (outLog run) !! i = Some (req, HttpReply status parsed) ->
  partialFailed parsed = true ->
  hasFiles parsed <> Some true ->
  length (exchanges (outLog run)) = S i
  /\ exists e s w,
       run = Threw e s w
       /\ (statusOk status = true ->
           hasFiles parsed = Some false ->
           e = if unlinkThrows (n + i) false
               then UnlinkFailed (chunkPath (n + i))
               else PartialSuccessFalse).
Proof.
  intros Hpos Hfuel run Hi Hfailed Hfiles.
  destruct (read_ends fuel stream rejects disk srv n Hpos Hfuel)
    as (w & Hw & Hs & Hlog & _ & _ & _ & Hret).
  fold run in Hw, Hs, Hret.
  assert (Hout : outLog run = events (readScript fuel stream rejects srv n)).
  { unfold outLog. rewrite Hw. exact Hlog. }
  rewrite Hout in *.
  pose proof (script_orderly (readPlan fuel stream rejects initialBuffers)
                initialSession srv n) as Hord.
  pose proof (read_not_starved fuel stream rejects srv n Hpos Hfuel) as Hns.
  fold (readScript fuel stream rejects srv n) in Hord.
  destruct (orderly_stop _ _ _ _ _ _ Hord Hns Hi) as [Hlen Hv].
  { cbn. rewrite Hfailed. destruct (statusOk status), (hasFiles parsed) as [[]|];
      reflexivity. }
  split; [exact Hlen|].
  subst run. rewrite read_run. cbv zeta.
  destruct (attemptEnd_stops _ _ _ Hv) as [[resp Hc]|[err Hf]].
  - exfalso. rewrite Hc in Hv.
    destruct (attemptEnd_completed _ _ _ Hv) as (_ & st & [= <- <-] & _ & Hyes).
    contradiction.
  - rewrite Hf. do 3 eexists. split; [reflexivity|].
    intros Hok Hno.
    rewrite (attemptEnd_refused _ _ _ Hok Hno Hfailed), Hf in Hv.
    injection Hv as ->. reflexivity.
Qed.

(** C8 (amended): a reply whose body says [partialSuccess: false] and does
    not pass the test [resp.files && resp.files.length > 0] makes the call
    throw, and the request it answers is the last one sent; with a success
    status and a chunk that can be removed, the error is the one that
    reports [partialSuccess=false]. *)
Theorem partial_failure_aborts (fuel : nat) (dlRes : Download)
    (disk : gmap string Buffer) (srv : ServerState) (n : nat)
    (i : nat) (req : Request) (status : Z) (parsed : Json) :
  0 < CHUNK_SIZE ->
  streamLength (fragmentsOf dlRes) < Z.of_nat fuel ->
  let run := upload fuel dlRes disk srv n in
  exchanges (outLog run) !! i = Some (req, HttpReply status parsed) ->
  partialFailed parsed = true ->
  hasFiles parsed <> Some true ->
  length (exchanges (outLog run)) = S i
  /\ exists e s w,
       run = Threw e s w
       /\ (statusOk status = true ->
           hasFiles parsed = Some false ->
           e = if unlinkThrows (n + i) false
               then UnlinkFailed (chunkPath (n + i))
               else PartialSuccessFalse).
Proof.
  intros Hpos Hfuel.
  destruct dlRes as [| |stream|stream]; cbn [fragmentsOf] in *.
  - cbv zeta. intros H. cbn in H. discriminate H.
  - cbv zeta. intros H. cbn in H. discriminate H.
  - apply (read_partial_failure fuel stream false); assumption.
  - apply (read_partial_failure fuel stream true); assumption.
Qed.

(** ** The session identifier *)

Lemma assignedIdentifier_truthy (resp ident : Json) :
  assignedIdentifier resp = Some ident -> truthy ident = true.
Proof.
  unfold assignedIdentifier. destruct (truthy resp); [|discriminate].
  destruct (prop resp "partialIdentifier") as [v|]; [|discriminate].
  destruct (truthy v) eqn:Hv; [|discriminate]. congruence.
Qed.

Lemma latest_identifier (current : Json) (replies : list Reply) :
  Forall (fun reply => continues reply = true) replies ->
  (let final := foldl identifierAfter current replies in
   if truthy final then Some final else None)
  = match lastAssigned replies with
    | Some ident => Some ident
    | None => if truthy current then Some current else None
    end.
Proof.
  unfold lastAssigned. revert current.
  induction replies as [|reply replies IH]; intros current Hall.
  - reflexivity.
  - apply Forall_cons in Hall as [Hreply Hall].
    cbn [foldl omap list_omap]. cbv zeta in *. rewrite IH by assumption.
    destruct reply as [|status parsed]; [discriminate|].
    cbn in Hreply. apply andb_true_iff in Hreply as [Hreply _].
    cbn [identifierAfter assignedBy]. rewrite Hreply.
    destruct (assignedIdentifier parsed) as [ident|] eqn:Hid.
    + rewrite last_cons. apply assignedIdentifier_truthy in Hid. rewrite Hid.
      destruct (last _); reflexivity.
    + reflexivity.
Qed.

(** C5 (amended): every chunk request carries the identifier that the
    replies before it supplied most recently, and none when they supplied
    none; the first request carries none. *)
Theorem identifier_echoed (fuel : nat) (stream : list Buffer)
    (disk : gmap string Buffer) (srv : ServerState) (n : nat)
    (i : nat) (req : Request) (reply : Reply) :
  0 < CHUNK_SIZE ->
  streamLength stream < Z.of_nat fuel ->
  exchanges (outLog (transfer fuel stream disk srv n)) !! i = Some (req, reply) ->
  pIdentifier req
  = lastAssigned (take i (exchanges (outLog (transfer fuel stream disk srv n))).*2)
  /\ (i = 0%nat -> pIdentifier req = None).
Proof.
  intros Hpos Hfuel Hi. rewrite transfer_log in * by assumption.
  assert (Hgen : pIdentifier req
    = lastAssigned
        (take i (exchanges (events (transferScript fuel stream srv n))).*2)).
  { rewrite (script_identifiers _ _ _ _ _ _ _ Hi).
    fold (transferScript fuel stream srv n).
    rewrite latest_identifier.
    - cbn. destruct (lastAssigned _); reflexivity.
    - rewrite <- fmap_take, Forall_fmap.
      eapply orderly_before.
      + apply script_orderly.
      + apply transfer_not_starved; assumption.
      + apply lookup_lt_Some in Hi. exact Hi. }
  split; [exact Hgen|]. intros ->. rewrite Hgen. reflexivity.
Qed.

(** ** The byte counter *)

Lemma acknowledgedBytes_app (a b : list (Request * Reply)) :
  acknowledgedBytes (a ++ b) = acknowledgedBytes a + acknowledgedBytes b.
Proof.
  induction a as [|[req reply] a IH]; cbn; [reflexivity | rewrite IH; lia].
Qed.

Lemma filter_continues_all (ex : list (Request * Reply)) :
  Forall (fun x => continues (snd x) = true) ex ->
  filter (fun x => continues (snd x) = true) ex = ex.
Proof.
  induction ex as [|x ex IH]; intros Hall; [reflexivity|].
  apply Forall_cons in Hall as [Hx Hall].
  rewrite filter_cons_True by exact Hx. f_equal. auto.
Qed.

(** The attempts that ran to their end after a reply that lets the transfer
    go on: all of them, or all but the last, which ended the schedule. *)
Lemma settled_orderly (n : nat) (ex : list (Request * Reply)) (e : Ending) :
  Orderly n ex e -> e <> Starved ->
  (Quiet e
   /\ Forall (fun x => continues (snd x) = true) ex
   /\ filter (fun x => continues (snd x) = true) (settled ex (unlinkFailed e))
      = ex)
  \/ exists pre req reply,
       ex = pre ++ [(req, reply)]
       /\ Forall (fun x => continues (snd x) = true) pre
       /\ attemptEnd (n + length pre) reply = Some e
       /\ filter (fun x => continues (snd x) = true)
            (settled ex (unlinkFailed e))
          = pre.
Proof.
  intros Hord Hns.
  destruct Hord as [->|[[Hq Hall]|(pre & req & reply & -> & Hpre & Hend)]].
  - congruence.
  - left. split; [exact Hq|]. split; [exact Hall|].
    rewrite (unlinkFailed_quiet _ Hq). apply filter_continues_all, Hall.
  - right. exists pre, req, reply. repeat split; auto.
    unfold settled. destruct (unlinkFailed e) eqn:Hu.
    + rewrite removelast_last. apply filter_continues_all, Hpre.
    + destruct (attemptEnd_some _ _ _ Hend) as [[Hc _]| ->]; [|discriminate].
      rewrite filter_app, filter_continues_all by exact Hpre.
      rewrite filter_cons_False by (cbn; congruence). apply app_nil_r.
Qed.

(** The counter of a call whose download has succeeded. *)
Lemma read_counter (fuel : nat) (stream : list Buffer) (rejects : bool)
    (disk : gmap string Buffer) (srv : ServerState) (n : nat) :
  0 < CHUNK_SIZE ->
  streamLength stream < Z.of_nat fuel ->
  let run :=
    upload fuel (if rejects then DownloadBroken stream else DownloadBody stream)
      disk srv n in
  let ex := exchanges (outLog run) in
  (forall i req reply,
     ex !! i = Some (req, reply) ->
     rangeStart req = acknowledgedBytes (take i ex)
     /\ Forall (fun x => continues (snd x) = true) (take i ex))
  /\ (exists s,
        outSession run = Some s
        /\ match last ex with
           | None => uploadedBytes s = 0
           | Some (req, reply) =>
               uploadedBytes s
               = rangeStart req
                 + (if continues reply && negb (threwUnlink run)
                    then blen (body req) else 0)
           end).
Proof.
  intros Hpos Hfuel run ex.
  destruct (read_ends fuel stream rejects disk srv n Hpos Hfuel)
    as (w & Hw & Hs & Hlog & _ & Hu & _).
  fold run in Hw, Hs, Hu.
  assert (Hout : outLog run = events (readScript fuel stream rejects srv n)).
  { unfold outLog. rewrite Hw. exact Hlog. }
  subst ex. rewrite Hout, Hu.
  pose proof (script_rangeStart (readPlan fuel stream rejects initialBuffers)
                initialSession srv n) as Hstart.
  pose proof (script_uploadedBytes (readPlan fuel stream rejects initialBuffers)
                initialSession srv n) as Hsum.
  pose proof (script_orderly (readPlan fuel stream rejects initialBuffers)
                initialSession srv n) as Hord.
  pose proof (read_not_starved fuel stream rejects srv n Hpos Hfuel) as Hns.
  fold (readScript fuel stream rejects srv n) in Hstart, Hsum, Hord.
  cbn [uploadedBytes initialSession] in Hstart, Hsum.
  set (sc := readScript fuel stream rejects srv n) in *.
  split.
  - intros i req reply Hi. split.
    + rewrite (Hstart _ _ _ Hi). lia.
    + apply (orderly_before n _ (ending sc)); auto.
      apply lookup_lt_Some in Hi. exact Hi.
  - exists (sessionAfter sc). split; [exact Hs|].
    rewrite Hsum, <- acknowledgedBytes_filter.
    destruct (settled_orderly _ _ _ Hord Hns)
      as [(Hq & Hall & ->)|(pre & req & reply & Hex & Hpre & Hend & ->)].
    + destruct (last (exchanges (events sc))) as [[req reply]|] eqn:Hlast.
      * rewrite (unlinkFailed_quiet _ Hq).
        apply last_Some in Hlast as [pre Hex].
        assert (Hi : exchanges (events sc) !! length pre = Some (req, reply)).
        { rewrite Hex. apply list_lookup_middle. reflexivity. }
        rewrite (Hstart _ _ _ Hi), Hex, take_app_length.
        rewrite Hex in Hall. apply Forall_app in Hall as [_ Hreply].
        apply Forall_cons in Hreply as [Hreply _]. cbn in Hreply.
        rewrite acknowledgedBytes_app, Hreply. cbn. rewrite Hreply. lia.
      * apply last_None in Hlast. rewrite Hlast. reflexivity.
    + assert (Hi : exchanges (events sc) !! length pre = Some (req, reply)).
      { rewrite Hex. apply list_lookup_middle. reflexivity. }
      replace (last (exchanges (events sc))) with (Some (req, reply))
        by (rewrite Hex; symmetry; apply last_snoc).
      rewrite (Hstart _ _ _ Hi), Hex, take_app_length.
      destruct (unlinkFailed (ending sc)) eqn:Hunl.
      * rewrite andb_false_r. lia.
      * destruct (attemptEnd_some _ _ _ Hend) as [[Hc _]|Hf].
        -- rewrite Hc. cbn. lia.
        -- rewrite Hf in Hunl. discriminate.
Qed.

(** C6: [uploadedBytes] counts the chunks whose attempt ran to its end after
    a reply that lets the transfer go on, and nothing else.  When a chunk is
    sent, it is the number of bytes of the chunks before it, all of which
    were acknowledged.  When the call ends, it has advanced by the last chunk
    if the reply to that chunk let the transfer go on and the chunk was
    removed; if the exchange failed, or the reply ended the transfer, or the
    removal threw, it is still what it was when the chunk was sent. *)
Theorem counter_follows_acknowledgement (fuel : nat) (dlRes : Download)
    (disk : gmap string Buffer) (srv : ServerState) (n : nat) :
  0 < CHUNK_SIZE ->
  streamLength (fragmentsOf dlRes) < Z.of_nat fuel ->
  let run := upload fuel dlRes disk srv n in
  let ex := exchanges (outLog run) in
  (forall i req reply,
     ex !! i = Some (req, reply) ->
     rangeStart req = acknowledgedBytes (take i ex)
     /\ Forall (fun x => continues (snd x) = true) (take i ex))
  /\ (exists s,
        outSession run = Some s
        /\ match last ex with
           | None => uploadedBytes s = 0
           | Some (req, reply) =>
               uploadedBytes s
               = rangeStart req
                 + (if continues reply && negb (threwUnlink run)
                    then blen (body req) else 0)
           end).
Proof.
  intros Hpos Hfuel.
  destruct dlRes as [| |stream|stream]; cbn [fragmentsOf] in *.
  - cbv zeta. split; [intros i req reply H; discriminate H|].
    eexists. split; reflexivity.
  - cbv zeta. split; [intros i req reply H; discriminate H|].
    eexists. split; reflexivity.
  - apply (read_counter fuel stream false); assumption.
  - apply (read_counter fuel stream true); assumption.
Qed.

(** ** The staged chunks *)



(** ** The buffers *)

Lemma read_held (fuel : nat) (stream : list Buffer) (rejects : bool)
    (disk : gmap string Buffer) (srv : ServerState) (n : nat) (frag : Z) :
  0 < CHUNK_SIZE ->
  streamLength stream < Z.of_nat fuel ->
  Forall (fun value => blen value <= frag) stream ->
  0 <= frag ->
  Forall (fun held => 0 <= held <= 2 * (CHUNK_SIZE - 1 + frag))
    (heldSamples
       (outLog
          (upload fuel
             (if rejects then DownloadBroken stream else DownloadBody stream)
             disk srv n))).
Proof.
  intros Hpos Hfuel Hfrag Hnn.
  destruct (read_ends fuel stream rejects disk srv n Hpos Hfuel)
    as (w & Hw & _ & Hlog & _).
  unfold outLog. rewrite Hw, Hlog.
  apply script_samples.
  apply (read_plan fuel stream rejects frag Hpos Hfuel Hfrag Hnn).
Qed.

(** C9 (amended): when no fragment of the download is larger than [F]
    bytes, [accumulatedChunks] and [buffer] never hold more than
    [2 * (C - 1 + F)] bytes between them: at most [C - 1] bytes are kept from
    one read to the next, a fragment is added to them, and right after the
    consolidation these bytes are in [accumulatedChunks] and in [buffer]. *)
Theorem buffers_bounded (fuel : nat) (dlRes : Download)
    (disk : gmap string Buffer) (srv : ServerState) (n : nat) (frag : Z) :
  0 < CHUNK_SIZE ->
  streamLength (fragmentsOf dlRes) < Z.of_nat fuel ->
  Forall (fun value => blen value <= frag) (fragmentsOf dlRes) ->
  0 <= frag ->
  Forall (fun held => 0 <= held <= 2 * (CHUNK_SIZE - 1 + frag))
    (heldSamples (outLog (upload fuel dlRes disk srv n))).
Proof.
  intros Hpos Hfuel Hfrag Hnn.
  destruct dlRes as [| |stream|stream]; cbn [fragmentsOf] in *.
  - constructor.
  - constructor.
  - apply (read_held fuel stream false); assumption.
  - apply (read_held fuel stream true); assumption.
Qed.

(** ** Progress reports *)



(** ** Further properties of the chunked transfer *)

Lemma slice_split (b : Buffer) (n : Z) :
  0 <= n <= blen b -> slice b 0 n ++ sliceFrom b n = b.
Proof.
  intros Hn. unfold sliceFrom, slice, clampIndex, blen in *.
  rewrite Z.ltb_irrefl.
  destruct (n <? 0) eqn:Hneg; [lia|].
  destruct (Z.of_nat (length b) <? 0) eqn:Hneg'; [lia|].
  rewrite !Z.min_l by lia.
  change (Z.to_nat 0) with 0%nat. rewrite drop_0, Z.sub_0_r.
  rewrite (take_ge (drop _ _)) by (rewrite length_drop; lia).
  apply take_drop.
Qed.

Lemma pieceBodies_app (p q : list Action) :
  pieceBodies (p ++ q) = pieceBodies p ++ pieceBodies q.
Proof. induction p as [|[] p IH]; simpl; rewrite ?IH; reflexivity. Qed.

(** Slicing moves bytes from the front of [buffer] into chunks and loses
    none. *)
Lemma slicePlan_bytes (fuel : nat) (done : bool) (bufs : Buffers) :
  0 < CHUNK_SIZE ->
  accumulatedChunks bufs = [] ->
  bufferConcat (pieceBodies (fst (slicePlan fuel done bufs)))
    ++ buffer (snd (slicePlan fuel done bufs)) = buffer bufs
  /\ accumulatedChunks (snd (slicePlan fuel done bufs)) = [].
Proof.
  intros Hpos. revert bufs. induction fuel as [|fuel IH]; intros bufs Hacc.
  - cbn [slicePlan]. destruct (wants _ _); cbn; auto.
  - cbn [slicePlan]. pose proof (blen_nonneg (buffer bufs)) as Hnn.
    destruct (wants (blen (buffer bufs)) done) eqn:Hwants; [|cbn; auto].
    destruct (negb done && (blen (buffer bufs) <? CHUNK_SIZE)) eqn:Hdead.
    { exfalso. apply andb_true_iff in Hdead as [Hd Hlt].
      destruct done; [discriminate|]. rewrite wants_streaming in Hwants.
      apply Z.leb_le in Hwants. apply Z.ltb_lt in Hlt. lia. }
    cbn [fst snd pieceBodies].
    set (amount := Z.min (blen (buffer bufs)) CHUNK_SIZE).
    set (rest := {| accumulatedChunks := accumulatedChunks bufs;
                    accumulatedLen := accumulatedLen bufs;
                    buffer := sliceFrom (buffer bufs) amount |}).
    destruct (IH rest Hacc) as [Hbytes Hchunks].
    split; [|exact Hchunks].
    unfold bufferConcat in *. cbn [concat]. rewrite <- app_assoc, Hbytes.
    cbn [buffer rest]. apply slice_split. unfold amount. lia.
Qed.

Lemma keepRemainder_bytes (bufs : Buffers) :
  accumulatedChunks bufs = [] ->
  pieceBodies (fst (keepRemainder bufs)) = []
  /\ buffer (snd (keepRemainder bufs)) = []
  /\ bufferConcat (accumulatedChunks (snd (keepRemainder bufs))) = buffer bufs.
Proof.
  intros Hchunks. unfold keepRemainder.
  destruct (0 <? blen (buffer bufs)) eqn:Hlen;
    cbn [fst snd pieceBodies buffer accumulatedChunks pushChunk dropBuffer];
    rewrite Hchunks; repeat split.
  - unfold bufferConcat. cbn. apply app_nil_r.
  - apply Z.ltb_ge in Hlen. unfold blen in Hlen.
    destruct (buffer bufs); [reflexivity | cbn in Hlen; lia].
Qed.

(** Draining moves bytes from the front of [accumulatedChunks] into chunks
    and loses none. *)
Lemma drainPlan_bytes (fuel : nat) (done : bool) (bufs : Buffers) :
  0 < CHUNK_SIZE ->
  buffer bufs = [] ->
  bufferConcat (pieceBodies (fst (drainPlan fuel done bufs)))
    ++ bufferConcat (accumulatedChunks (snd (drainPlan fuel done bufs)))
  = bufferConcat (accumulatedChunks bufs)
  /\ buffer (snd (drainPlan fuel done bufs)) = [].
Proof.
  intros Hpos. revert bufs. induction fuel as [|fuel IH]; intros bufs Hbuf.
  - cbn [drainPlan]. destruct (wants _ _); cbn; rewrite ?app_nil_r; auto.
  - cbn [drainPlan].
    destruct (wants (accumulatedLen bufs) done); [|cbn; auto].
    cbn [buffer].
    set (whole := {| accumulatedChunks := []; accumulatedLen := 0;
                     buffer := bufferConcat (accumulatedChunks bufs) |}).
    destruct (slicePlan_bytes (S fuel) done whole Hpos eq_refl)
      as [Hbytes Hchunks].
    set (sliced := slicePlan (S fuel) done whole) in *.
    destruct (keepRemainder_bytes (snd sliced) Hchunks)
      as (Hknone & Hkbuf & Hkacc).
    destruct (IH (snd (keepRemainder (snd sliced))) Hkbuf) as [Hrest Hout].
    cbn [fst snd pieceBodies]. split; [|exact Hout].
    rewrite !pieceBodies_app, Hknone. cbn [app].
    unfold bufferConcat in *. rewrite concat_app, <- app_assoc, Hrest, Hkacc.
    exact Hbytes.
Qed.

(** The chunks of the schedule are cut, in order, from what was accumulated
    followed by the stream. *)
Lemma readPlan_bytes (fuel : nat) (stream : list Buffer) (rejects : bool)
    (bufs : Buffers) :
  0 < CHUNK_SIZE ->
  buffer bufs = [] ->
  exists rest,
    bufferConcat (pieceBodies (readPlan fuel stream rejects bufs)) ++ rest
    = bufferConcat (accumulatedChunks bufs) ++ bufferConcat stream.
Proof.
  intros Hpos. revert bufs.
  induction stream as [|value stream IH]; intros bufs Hbuf.
  - cbn [readPlan]. destruct rejects.
    { eexists. cbn [pieceBodies]. unfold bufferConcat at 1. cbn [concat app].
      reflexivity. }
    destruct (drainPlan_bytes fuel true bufs Hpos Hbuf) as [H _].
    eexists. rewrite H. unfold bufferConcat at 2. cbn. rewrite app_nil_r.
    reflexivity.
  - cbn [readPlan pieceBodies]. rewrite pieceBodies_app.
    destruct (drainPlan_bytes fuel false (pushChunk value bufs) Hpos Hbuf)
      as [Hdrain Hout].
    destruct (IH _ Hout) as [rest Hrest].
    exists rest. unfold bufferConcat in *. cbn [concat].
    rewrite concat_app, <- app_assoc, Hrest, app_assoc, Hdrain.
    cbn [accumulatedChunks pushChunk]. rewrite concat_app. cbn.
    rewrite app_nil_r, <- app_assoc. reflexivity.
Qed.

Lemma pieceBodies_shapes (plan : list Action) :
  blen <$> pieceBodies plan = (pieceShapes plan).*1.
Proof.
  induction plan as [|[] plan IH]; cbn; rewrite ?IH; reflexivity.
Qed.

Lemma blen_bufferConcat (chunks : list Buffer) :
  blen (bufferConcat chunks) = foldr Z.add 0 (blen <$> chunks).
Proof.
  unfold bufferConcat. induction chunks as [|c chunks IH]; cbn; [reflexivity|].
  rewrite blen_app, IH. reflexivity.
Qed.

Lemma chunkShape_total (total : Z) :
  0 < CHUNK_SIZE -> 0 <= total ->
  foldr Z.add 0 (chunkShape total).*1 = total.
Proof.
  intros Hpos Htotal. rewrite chunkShape_sizes.
  pose proof (Z.div_mod total CHUNK_SIZE ltac:(lia)) as Hdm.
  pose proof (Z.div_pos total CHUNK_SIZE Htotal Hpos) as Hdiv.
  rewrite foldr_app.
  assert (Hfull : forall (k : nat) (z : Z),
    foldr Z.add z (replicate k CHUNK_SIZE) = Z.of_nat k * CHUNK_SIZE + z).
  { induction k as [|k IH]; intros z; cbn [replicate foldr]; [lia|].
    rewrite IH. lia. }
  rewrite Hfull, Z2Nat.id by lia.
  destruct (_ =? 0) eqn:Hm; cbn [foldr].
  - apply Z.eqb_eq in Hm. lia.
  - lia.
Qed.

Lemma script_bodies (plan : list Action) (s : Session) (srv : ServerState)
    (n : nat) :
  body <$> requests (events (script plan s srv n)) `prefix_of` pieceBodies plan
  /\ (ending (script plan s srv n) = Finished ->
      body <$> requests (events (script plan s srv n)) = pieceBodies plan).
Proof.
  revert s srv n.
  induction plan as [|[k|sending flag| |] plan IH]; intros s srv n.
  - split; [apply prefix_nil | reflexivity].
  - cbn. apply IH.
  - unfold requests. script_step s srv n sending flag Hw He.
    + rewrite exchanges_stop.
      cbn [pieceBodies fmap list_fmap fst body chunkRequest]. split.
      * apply prefix_cons, prefix_nil.
      * intros Hend.
        destruct (attemptEnd_stops _ _ _ He) as [[resp Hv]|[err Hv]];
          rewrite Hv in Hend; discriminate.
    + rewrite exchanges_attempt. cbn [pieceBodies fmap list_fmap fst body chunkRequest].
      destruct (IH
        {| uploadedBytes := uploadedBytes s + blen sending;
           partialIdentifier :=
             identifierAfter (partialIdentifier s)
               (snd (serve srv (chunkRequest s sending flag))) |}
        (fst (serve srv (chunkRequest s sending flag))) (S n)) as [Hpre Heq].
      split.
      * apply prefix_cons. exact Hpre.
      * intros Hend. f_equal. apply Heq, Hend.
    + rewrite exchanges_unwritten. split; [apply prefix_nil | discriminate].
  - split; [apply prefix_nil | discriminate].
  - split; [apply prefix_nil | discriminate].
Qed.

(** X1: the chunks sent are, in order and without gap or overlap, the bytes
    of the stream from its start; when the transfer returns
    [{partialSuccess: true}], they are the whole stream. *)
Theorem chunks_carry_the_stream (fuel : nat) (stream : list Buffer)
    (disk : gmap string Buffer) (srv : ServerState) (n : nat) :
  0 < CHUNK_SIZE ->
  streamLength stream < Z.of_nat fuel ->
  bufferConcat (body <$> requests (outLog (transfer fuel stream disk srv n)))
    `prefix_of` bufferConcat stream
  /\ (forall s w,
        transfer fuel stream disk srv n = Returned streamEndResult s w ->
        bufferConcat (body <$> requests (log w)) = bufferConcat stream).
Proof.
  intros Hpos Hfuel.
  destruct (readPlan_bytes fuel stream false initialBuffers Hpos eq_refl)
    as [rest Hrest].
  change (bufferConcat (accumulatedChunks initialBuffers)) with (@nil Byte.byte)
    in Hrest. cbn [app] in Hrest.
  destruct (script_bodies (readPlan fuel stream false initialBuffers) initialSession
              srv n) as [[more Hmore] Heq].
  fold (transferScript fuel stream srv n) in Hmore, Heq.
  split.
  - rewrite transfer_log by assumption.
    exists (bufferConcat more ++ rest). rewrite <- Hrest, Hmore.
    unfold bufferConcat. rewrite concat_app, app_assoc. reflexivity.
  - intros s w Hrun.
    pose proof (stream_end_finished _ _ _ _ _ _ _ Hrun) as Hend.
    assert (Hlog : log w = events (transferScript fuel stream srv n)).
    { rewrite transfer_script in Hrun. cbv zeta in Hrun. rewrite Hend in Hrun.
      injection Hrun as _ <-. reflexivity. }
    rewrite Hlog, (Heq Hend).
    assert (Hlen : blen (bufferConcat (pieceBodies (readPlan fuel stream false initialBuffers)))
                   = streamLength stream).
    { rewrite blen_bufferConcat, pieceBodies_shapes.
      destruct (transfer_plan fuel stream (streamLength stream) Hpos Hfuel
                  (fragments_within_stream stream) (streamLength_nonneg stream))
        as (-> & _ & _).
      apply chunkShape_total; auto using streamLength_nonneg. }
    assert (Hnil : rest = []).
    { pose proof (f_equal blen Hrest) as Hl. rewrite blen_app, Hlen in Hl.
      unfold streamLength in Hl.
      destruct rest; [reflexivity|]. unfold blen in Hl. cbn [length] in Hl. lia. }
    rewrite <- Hrest, Hnil, app_nil_r. reflexivity.
Qed.

(** Consecutive exchanges: the first was acknowledged, and the second starts
    where the first ended. *)
Lemma exchange_follows (fuel : nat) (stream : list Buffer)
    (srv : ServerState) (n : nat) (i : nat) (a b : Request) (ra rb : Reply) :
  0 < CHUNK_SIZE ->
  streamLength stream < Z.of_nat fuel ->
  exchanges (events (transferScript fuel stream srv n)) !! i = Some (a, ra) ->
  exchanges (events (transferScript fuel stream srv n)) !! S i = Some (b, rb) ->
  continues ra = true /\ rangeStart b = rangeStart a + blen (body a).
Proof.
  intros Hpos Hfuel Hi Hsi.
  pose proof (script_rangeStart (readPlan fuel stream false initialBuffers)
                initialSession srv n) as Hstart.
  pose proof (script_orderly (readPlan fuel stream false initialBuffers)
                initialSession srv n) as Hord.
  pose proof (transfer_not_starved fuel stream srv n Hpos Hfuel) as Hns.
  fold (transferScript fuel stream srv n) in Hstart, Hord.
  cbn [uploadedBytes initialSession] in Hstart.
  set (ex := exchanges (events (transferScript fuel stream srv n))) in *.
  pose proof (Hstart _ _ _ Hi) as Hsa. pose proof (Hstart _ _ _ Hsi) as Hsb.
  rewrite (take_S_r _ _ _ Hi), acknowledgedBytes_app in Hsb.
  cbn [acknowledgedBytes] in Hsb.
  assert (Hc : continues ra = true).
  { pose proof (orderly_before _ _ _ (S i) Hord Hns
                  (lookup_lt_Some _ _ _ Hsi)) as Hbefore.
    rewrite Forall_lookup in Hbefore.
    apply (Hbefore i (a, ra)). rewrite lookup_take_lt by lia. exact Hi. }
  rewrite Hc in Hsb. split; [exact Hc | lia].
Qed.

(** X2: the byte ranges of the requests are contiguous: the first starts at
    byte 0 and each next one starts right after the end of the one before. *)
Theorem ranges_contiguous (fuel : nat) (stream : list Buffer)
    (disk : gmap string Buffer) (srv : ServerState) (n : nat) :
  0 < CHUNK_SIZE ->
  streamLength stream < Z.of_nat fuel ->
  let reqs := requests (outLog (transfer fuel stream disk srv n)) in
  (forall req, reqs !! 0%nat = Some req -> rangeStart req = 0)
  /\ (forall i a b,
        reqs !! i = Some a -> reqs !! S i = Some b ->
        rangeStart b = rangeEnd a + 1).
Proof.
  intros Hpos Hfuel reqs. subst reqs. rewrite transfer_log by assumption.
  pose proof (script_rangeStart (readPlan fuel stream false initialBuffers)
                initialSession srv n) as Hstart.
  pose proof (script_requests_wellformed (readPlan fuel stream false initialBuffers)
                initialSession srv n) as Hwf.
  fold (transferScript fuel stream srv n) in Hstart, Hwf.
  cbn [uploadedBytes initialSession] in Hstart.
  unfold requests in *.
  set (ex := exchanges (events (transferScript fuel stream srv n))) in *.
  split.
  - intros req Hreq. rewrite list_lookup_fmap in Hreq.
    destruct (ex !! 0%nat) as [[req' reply]|] eqn:H0; [|discriminate].
    injection Hreq as <-. rewrite (Hstart _ _ _ H0). reflexivity.
  - intros i a b Ha Hb. rewrite list_lookup_fmap in Ha, Hb.
    destruct (ex !! i) as [[a' replya]|] eqn:Hi; [|discriminate].
    destruct (ex !! S i) as [[b' replyb]|] eqn:Hsi; [|discriminate].
    cbn in Ha, Hb. injection Ha as <-. injection Hb as <-.
    destruct (exchange_follows fuel stream srv n i _ _ _ _ Hpos Hfuel Hi Hsi)
      as [_ Hnext].
    rewrite Forall_forall in Hwf.
    destruct (Hwf a') as [Hend _].
    { apply list_elem_of_fmap. exists (a', replya). split; [reflexivity|].
      eapply list_elem_of_lookup_2. exact Hi. }
    lia.
Qed.

Lemma chunkShape_header_size (total : Z) (h : ChunkHeader) :
  0 < CHUNK_SIZE -> 0 <= total ->
  h ∈ expectedHeaders 0 (chunkShape total) ->
  1 <= hSize h <= CHUNK_SIZE.
Proof.
  intros Hpos Htotal Hin. unfold chunkShape in Hin.
  pose proof (Z.mod_pos_bound total CHUNK_SIZE Hpos) as Hmod.
  apply expectedHeaders_full_elem in Hin as [(j & Hj & ->)|Hin]; cbn; [lia|].
  destruct (_ =? 0) eqn:Hm; [apply elem_of_nil in Hin; contradiction|].
  apply Z.eqb_neq in Hm. cbn in Hin. apply list_elem_of_singleton in Hin.
  subst h. cbn. lia.
Qed.

Lemma request_size (fuel : nat) (stream : list Buffer)
    (srv : ServerState) (n : nat) (req : Request) :
  0 < CHUNK_SIZE ->
  streamLength stream < Z.of_nat fuel ->
  req ∈ requests (events (transferScript fuel stream srv n)) ->
  1 <= blen (body req) <= CHUNK_SIZE
  /\ rangeStart req + blen (body req) <= streamLength stream.
Proof.
  intros Hpos Hfuel Hin.
  destruct (transfer_headers fuel stream srv n Hpos Hfuel) as [[more Hpre] _].
  assert (Hh : headerOf req ∈ expectedHeaders 0 (chunkShape (streamLength stream))).
  { rewrite Hpre. apply elem_of_app. left. apply list_elem_of_fmap_2, Hin. }
  split.
  - apply chunkShape_header_size in Hh; auto using streamLength_nonneg.
  - apply chunkShape_header in Hh; auto using streamLength_nonneg.
    destruct Hh as [Hh _]. exact Hh.
Qed.

(** X3: every chunk sent holds at least one byte and at most [CHUNK_SIZE]
    bytes, whatever the fragments of the stream and the replies of the
    server. *)
Theorem chunk_sizes_bounded (fuel : nat) (stream : list Buffer)
    (disk : gmap string Buffer) (srv : ServerState) (n : nat) (req : Request) :
  0 < CHUNK_SIZE ->
  streamLength stream < Z.of_nat fuel ->
  req ∈ requests (outLog (transfer fuel stream disk srv n)) ->
  1 <= blen (body req) <= CHUNK_SIZE.
Proof.
  intros Hpos Hfuel Hin. rewrite transfer_log in Hin by assumption.
  apply (request_size fuel stream srv n req Hpos Hfuel Hin).
Qed.

(** X4: with a positive chunk size the loops end: the function returns or
    throws, after at most [ceil(L/C)] requests. *)
Theorem transfer_terminates (fuel : nat) (stream : list Buffer)
    (disk : gmap string Buffer) (srv : ServerState) (n : nat) :
  0 < CHUNK_SIZE ->
  streamLength stream < Z.of_nat fuel ->
  ((exists resp s w, transfer fuel stream disk srv n = Returned resp s w)
   \/ (exists e s w, transfer fuel stream disk srv n = Threw e s w))
  /\ (length (requests (outLog (transfer fuel stream disk srv n)))
      <= Z.to_nat ((streamLength stream + CHUNK_SIZE - 1) / CHUNK_SIZE))%nat.
Proof.
  intros Hpos Hfuel. split.
  - pose proof (transfer_not_starved fuel stream srv n Hpos Hfuel) as Hns.
    rewrite transfer_script. cbv zeta.
    destruct (ending (transferScript fuel stream srv n)); eauto 6.
    congruence.
  - rewrite transfer_log by assumption.
    destruct (transfer_headers fuel stream srv n Hpos Hfuel) as [Hpre _].
    apply prefix_length in Hpre.
    rewrite length_fmap, expectedHeaders_length, chunk_count in Hpre;
      auto using streamLength_nonneg.
Qed.

(** The exchanges that give rise to a progress call are the first ones. *)
Lemma orderly_filter (n : nat) (ex : list (Request * Reply)) (e : Ending) :
  Orderly n ex e -> e <> Starved ->
  exists k,
    filter (fun x => continues (snd x) = true) (settled ex (unlinkFailed e))
    = take k ex.
Proof.
  intros Hord Hns.
  destruct (settled_orderly _ _ _ Hord Hns)
    as [(_ & _ & ->)|(pre & req & reply & -> & _ & _ & ->)].
  - exists (length ex). rewrite take_ge by lia. reflexivity.
  - exists (length pre). rewrite take_app_length. reflexivity.
Qed.

(** X5: the byte counts reported to the progress callback grow strictly from
    call to call, are at least 1 and never exceed the length of the stream,
    and come with the declared length as total. *)
Theorem progress_increases (fuel : nat) (stream : list Buffer)
    (disk : gmap string Buffer) (srv : ServerState) (n : nat) :
  0 < CHUNK_SIZE ->
  streamLength stream < Z.of_nat fuel ->
  let calls := progressCalls (outLog (transfer fuel stream disk srv n)) in
  (forall call, call ∈ calls ->
     1 <= fst call <= streamLength stream /\ snd call = contentLength args)
  /\ (forall i a b,
        calls !! i = Some a -> calls !! S i = Some b -> fst a < fst b).
Proof.
  intros Hpos Hfuel calls. subst calls. rewrite transfer_log by assumption.
  pose proof (script_progress (readPlan fuel stream false initialBuffers)
                initialSession srv n) as Hcalls.
  pose proof (script_rangeStart (readPlan fuel stream false initialBuffers)
                initialSession srv n) as Hstart.
  destruct (orderly_filter _ _ _
              (script_orderly (readPlan fuel stream false initialBuffers)
                 initialSession srv n)
              (transfer_not_starved fuel stream srv n Hpos Hfuel)) as [k Hk].
  fold (transferScript fuel stream srv n) in Hcalls, Hstart, Hk.
  cbn [uploadedBytes initialSession] in Hstart.
  rewrite Hk in Hcalls. rewrite Hcalls. clear Hcalls Hk.
  set (ex := exchanges (events (transferScript fuel stream srv n))) in *.
  assert (Hget : forall i call,
    (if onProgress args then progressOf <$> take k ex else []) !! i = Some call ->
    exists req reply, ex !! i = Some (req, reply)
                      /\ call = (rangeStart req + blen (body req), contentLength args)).
  { intros i call Hi. destruct (onProgress args); [|discriminate].
    rewrite list_lookup_fmap in Hi.
    destruct (take k ex !! i) as [[req reply]|] eqn:Ht; [|discriminate].
    injection Hi as <-. apply lookup_take_Some in Ht as [Ht _]. eauto. }
  split.
  - intros call Hin. apply list_elem_of_lookup in Hin as [i Hi].
    destruct (Hget _ _ Hi) as (req & reply & Hex & ->). cbn [fst snd].
    destruct (request_size fuel stream srv n req Hpos Hfuel) as [Hsize Hend].
    { unfold requests. apply list_elem_of_fmap. exists (req, reply).
      split; [reflexivity|]. eapply list_elem_of_lookup_2. exact Hex. }
    pose proof (Hstart _ _ _ Hex) as Hs.
    assert (0 <= rangeStart req).
    { rewrite Hs. clear. induction (take i ex) as [|[r rp] l IH]; cbn; [lia|].
      pose proof (blen_nonneg (body r)). destruct (continues rp); lia. }
    split; [lia | reflexivity].
  - intros i a b Ha Hb.
    destruct (Hget _ _ Ha) as (ra & rpa & Hea & ->).
    destruct (Hget _ _ Hb) as (rb & rpb & Heb & ->). cbn [fst].
    destruct (exchange_follows fuel stream srv n i _ _ _ _ Hpos Hfuel Hea Heb)
      as [_ Hnext].
    destruct (request_size fuel stream srv n rb Hpos Hfuel) as [Hsize _].
    { unfold requests. apply list_elem_of_fmap. exists (rb, rpb).
      split; [reflexivity|]. eapply list_elem_of_lookup_2. exact Heb. }
    lia.
Qed.

Lemma chunkShape_header_total (total : Z) (h : ChunkHeader) :
  0 < CHUNK_SIZE -> 0 <= total ->
  h ∈ expectedHeaders 0 (chunkShape total) ->
  hTotal h
  = if (hStart h + hSize h =? total) && negb (total mod CHUNK_SIZE =? 0)
    then total else contentLength args.
Proof.
  intros Hpos Htotal Hin. unfold chunkShape in Hin.
  pose proof (Z.mod_pos_bound total CHUNK_SIZE Hpos) as Hmod.
  pose proof (Z.div_pos total CHUNK_SIZE Htotal Hpos) as Hdiv.
  pose proof (Z.div_mod total CHUNK_SIZE ltac:(lia)) as Hdm.
  set (q := total / CHUNK_SIZE) in *. set (m := total mod CHUNK_SIZE) in *.
  apply expectedHeaders_full_elem in Hin as [(j & Hj & ->)|Hin];
    cbn [hStart hSize hTotal].
  - destruct (m =? 0) eqn:Hm; [rewrite andb_false_r; reflexivity|].
    apply Z.eqb_neq in Hm.
    replace (_ =? total) with false; [reflexivity|].
    symmetry. apply Z.eqb_neq. nia.
  - destruct (m =? 0) eqn:Hm; [apply elem_of_nil in Hin; contradiction|].
    apply Z.eqb_neq in Hm. cbn in Hin. apply list_elem_of_singleton in Hin.
    subst h. cbn [hStart hSize hTotal]. rewrite Z2Nat.id by lia.
    replace (_ =? total) with true; [cbn; lia|].
    symmetry. apply Z.eqb_eq. lia.
Qed.

(** X6: the total length a request states, in [Content-Range] and in
    [x-zipline-p-content-length] alike, is the declared length, except for
    the short remainder that ends the stream, which states the length of the
    stream.  When the stream length is a multiple of the chunk size, every
    request states the declared length. *)
Theorem total_length_header (fuel : nat) (stream : list Buffer)
    (disk : gmap string Buffer) (srv : ServerState) (n : nat) (req : Request) :
  0 < CHUNK_SIZE ->
  streamLength stream < Z.of_nat fuel ->
  req ∈ requests (outLog (transfer fuel stream disk srv n)) ->
  pContentLength req = rangeTotal req
  /\ rangeTotal req
     = if (rangeEnd req + 1 =? streamLength stream)
          && negb (streamLength stream mod CHUNK_SIZE =? 0)
       then streamLength stream else contentLength args.
Proof.
  intros Hpos Hfuel Hin. rewrite transfer_log in Hin by assumption.
  pose proof (script_requests_wellformed (readPlan fuel stream false initialBuffers)
                initialSession srv n) as Hwf.
  fold (transferScript fuel stream srv n) in Hwf.
  rewrite Forall_forall in Hwf. destruct (Hwf _ Hin) as [Hend Hlen].
  split; [exact Hlen|].
  destruct (transfer_headers fuel stream srv n Hpos Hfuel) as [[more Hpre] _].
  assert (Hh : headerOf req ∈ expectedHeaders 0 (chunkShape (streamLength stream))).
  { rewrite Hpre. apply elem_of_app. left. apply list_elem_of_fmap_2, Hin. }
  apply chunkShape_header_total in Hh; auto using streamLength_nonneg.
  cbn [headerOf hStart hSize hTotal] in Hh.
  replace (rangeEnd req + 1) with (rangeStart req + blen (body req)) by lia.
  exact Hh.
Qed.

(** Every request is built by [sendPartialChunk] from the arguments of the
    call, a state of the session and a chunk. *)
Lemma script_requests_built (plan : list Action) (s : Session)
    (srv : ServerState) (n : nat) :
  Forall
    (fun req => exists s' sending flag, req = chunkRequest s' sending flag)
    (requests (events (script plan s srv n))).
Proof.
  revert s srv n.
  induction plan as [|[k|sending flag| |] plan IH]; intros s srv n.
  - constructor.
  - cbn. apply IH.
  - unfold requests. script_step s srv n sending flag Hw He.
    + rewrite exchanges_stop. repeat constructor. eauto.
    + rewrite exchanges_attempt. constructor; [eauto | apply IH].
    + rewrite exchanges_unwritten. constructor.
  - constructor.
  - constructor.
Qed.

End Upload.

Arguments Normal {ServerState A} a s w.
Arguments Returned {ServerState A} resp s w.
Arguments Threw {ServerState A} e s w.
Arguments OutOfFuel {ServerState A}.
Arguments files {ServerState} w.
Arguments server {ServerState} w.
Arguments staged {ServerState} w.
Arguments log {ServerState} w.
Arguments outWorld {ServerState A} o.
Arguments outSession {ServerState A} o.
Arguments outLog {ServerState A} o.
Arguments transfer CHUNK_SIZE tmpStamp {ServerState} serve jsPositive
  stageWrite unlinkThrows args fuel stream disk srv n.
Arguments upload CHUNK_SIZE tmpStamp {ServerState} serve jsPositive
  stageWrite unlinkThrows args fuel dlRes disk srv n.
Arguments ziplinePartialUpload CHUNK_SIZE tmpStamp {ServerState} serve
  jsPositive stageWrite unlinkThrows args fuel dlRes w.

(** ** The theorems at concrete transfers *)

(** The first chunk of six bytes cut in chunks of two, with the declared
    length six: bytes remain after it and it is not flagged last. *)
Lemma last_chunk_flag_witness :
  let req := chunkRequest (demoArgs 6) initialSession (blob 2) false in
  req ∈ requests
          (outLog (transfer 2 demoStamp acceptAll notAsked writesAll
                     unlinksAll (demoArgs 6) 7 sixBytes ∅ 0%nat 0%nat))
  /\ rangeEnd req + 1 <= streamLength sixBytes
  /\ (rangeEnd req + 1 < streamLength sixBytes ->
      (pLastchunk req = true <-> contentLength (demoArgs 6) <= rangeEnd req + 1))
  /\ (rangeEnd req + 1 = streamLength sixBytes ->
      streamLength sixBytes mod 2 <> 0
      \/ contentLength (demoArgs 6) <= streamLength sixBytes ->
      pLastchunk req = true).
Proof.
  intros req.
  assert (Hin : req ∈ requests
            (outLog (transfer 2 demoStamp acceptAll notAsked writesAll
                       unlinksAll (demoArgs 6) 7 sixBytes ∅ 0%nat 0%nat))).
  { vm_compute. apply list_elem_of_here. }
  split; [exact Hin|].
  apply (last_chunk_flag 2 demoStamp nat acceptAll notAsked writesAll
           unlinksAll (demoArgs 6) 7 sixBytes ∅ 0%nat 0%nat req);
    [lia | vm_compute; reflexivity | exact Hin].
Defined.



(** The third request carries [B], the identifier of the second reply. *)
Lemma identifier_echoed_witness :
  exists req reply,
    exchanges
      (outLog (transfer 2 demoStamp reassign notAsked writesAll unlinksAll
                 (demoArgs 6) 7 sixBytes ∅ 0%nat 0%nat)) !! 2%nat
    = Some (req, reply)
    /\ pIdentifier req = Some (JStr "B")
    /\ pIdentifier req
       = lastAssigned
           (take 2
              (exchanges
                 (outLog (transfer 2 demoStamp reassign notAsked writesAll
                            unlinksAll (demoArgs 6) 7 sixBytes ∅
                            0%nat 0%nat))).*2).
Proof.
  do 2 eexists. split; [vm_compute; reflexivity|]. split; [reflexivity|].
  eapply (identifier_echoed 2 demoStamp nat reassign notAsked writesAll
            unlinksAll (demoArgs 6) 7 sixBytes ∅ 0%nat 0%nat 2%nat);
    [lia | vm_compute; reflexivity | vm_compute; reflexivity].
Defined.

(** The second chunk is answered with status 500: the counter stays at the
    two bytes of the first chunk, where the second chunk starts. *)
Lemma counter_follows_acknowledgement_witness :
  exists s req reply,
    outSession
      (upload 2 demoStamp breakSecond notAsked writesAll unlinksAll
         (demoArgs 6) 7 (DownloadBody sixBytes) ∅ 0%nat 0%nat)
    = Some s
    /\ last
         (exchanges
            (outLog (upload 2 demoStamp breakSecond notAsked writesAll
                       unlinksAll (demoArgs 6) 7 (DownloadBody sixBytes) ∅
                       0%nat 0%nat)))
       = Some (req, reply)
    /\ rangeStart req = 2
    /\ uploadedBytes s = 2.
Proof.
  destruct (counter_follows_acknowledgement 2 demoStamp nat breakSecond
              notAsked writesAll unlinksAll (demoArgs 6) 7
              (DownloadBody sixBytes) ∅ 0%nat 0%nat ltac:(lia)
              ltac:(vm_compute; reflexivity))
    as (_ & s & Hs & Hlast).
  destruct (last _) as [[req reply]|] eqn:Hex; [|vm_compute in Hex; discriminate].
  exists s, req, reply. split; [exact Hs|]. split; [reflexivity|].
  vm_compute in Hex. injection Hex as <- <-.
  split; [reflexivity|]. rewrite Hlast. vm_compute. reflexivity.
Defined.


Lemma partial_failure_aborts_witness :
  length
    (exchanges
       (outLog (upload 2 demoStamp refuseSecond notAsked writesAll unlinksAll
                  (demoArgs 6) 7 (DownloadBody sixBytes) ∅ 0%nat 0%nat)))
  = 2%nat
  /\ exists e s w,
       upload 2 demoStamp refuseSecond notAsked writesAll unlinksAll
         (demoArgs 6) 7 (DownloadBody sixBytes) ∅ 0%nat 0%nat
       = Threw e s w
       /\ (statusOk 200 = true ->
           hasFiles notAsked (JObj [("partialSuccess", JBool false)])
           = Some false ->
           e = PartialSuccessFalse).
Proof.
  eapply (partial_failure_aborts 2 demoStamp nat refuseSecond notAsked
            writesAll unlinksAll (demoArgs 6) 7 (DownloadBody sixBytes) ∅
            0%nat 0%nat 1%nat);
    [lia | vm_compute; reflexivity | vm_compute; reflexivity
    | reflexivity | vm_compute; discriminate].
Defined.

(** Fragments of at most three bytes and chunks of three: never more than
    ten bytes. *)
Lemma buffers_bounded_witness :
  Forall (fun value => blen value <= 3) sixBytes
  /\ Forall (fun held => 0 <= held <= 2 * (3 - 1 + 3))
       (heldSamples
          (outLog (upload 3 demoStamp acceptAll notAsked writesAll unlinksAll
                     (demoArgs 6) 7 (DownloadBody sixBytes) ∅ 0%nat 0%nat))).
Proof.
  assert (Hfrag : Forall (fun value => blen value <= 3) sixBytes).
  { repeat constructor; vm_compute; discriminate. }
  split; [exact Hfrag|].
  apply (buffers_bounded 3 demoStamp nat acceptAll notAsked writesAll
           unlinksAll (demoArgs 6) 7 (DownloadBody sixBytes) ∅ 0%nat 0%nat 3);
    [lia | vm_compute; reflexivity | exact Hfrag | lia].
Defined.


(** ** Where the specification and the code part *)

(** C1: with a declared length of two bytes and a stream of four, the first
    chunk is flagged last although two bytes of the stream are still to
    come. *)
Lemma last_chunk_flag_counterexample :
  ~ (forall req,
       req ∈ requests
               (outLog (transfer 2 demoStamp acceptAll notAsked writesAll
                          unlinksAll (demoArgs 2) 5 [blob 2; blob 2] ∅
                          0%nat 0%nat)) ->
       (pLastchunk req = true
        <-> rangeEnd req + 1 = streamLength [blob 2; blob 2])).
Proof.
  intros Hclaim.
  specialize (Hclaim (chunkRequest (demoArgs 2) initialSession (blob 2) false)).
  destruct Hclaim as [Hlast _].
  - vm_compute. apply list_elem_of_here.
  - specialize (Hlast eq_refl). vm_compute in Hlast. discriminate.
Qed.

(** C2: chunks of two bytes, a declared length of six and a stream of four
    bytes.  The second chunk ends the stream, yet it carries the declared
    length six as total, not the four bytes sent, and it is not flagged
    last. *)
Theorem declared_length_kept_at_chunk_boundary :
  streamLength [blob 2; blob 2] = 4
  /\ (fun req =>
        (rangeStart req, rangeEnd req, rangeTotal req, pContentLength req,
         pLastchunk req))
     <$> requests
           (outLog (transfer 2 demoStamp acceptAll notAsked writesAll
                      unlinksAll (demoArgs 6) 5 [blob 2; blob 2] ∅
                      0%nat 0%nat))
     = [(0, 1, 6, 6, false); (2, 3, 6, 6, false)].
Proof. split; vm_compute; reflexivity. Qed.



(** C5: the first reply assigns [A] and the second [B]; the third request
    carries [B], not the identifier assigned first. *)
Lemma identifier_echoed_counterexample :
  ~ (forall i j reqi replyi reqj replyj ident,
       (i < j)%nat ->
       exchanges
         (outLog (transfer 2 demoStamp reassign notAsked writesAll unlinksAll
                    (demoArgs 6) 7 sixBytes ∅ 0%nat 0%nat)) !! i
       = Some (reqi, replyi) ->
       assignedBy replyi = Some ident ->
       exchanges
         (outLog (transfer 2 demoStamp reassign notAsked writesAll unlinksAll
                    (demoArgs 6) 7 sixBytes ∅ 0%nat 0%nat)) !! j
       = Some (reqj, replyj) ->
       pIdentifier reqj = Some ident).
Proof.
  intros Hclaim.
  assert (Hlog : exists reqi reqj replyj,
    exchanges
      (outLog (transfer 2 demoStamp reassign notAsked writesAll unlinksAll
                 (demoArgs 6) 7 sixBytes ∅ 0%nat 0%nat)) !! 0%nat
    = Some (reqi, sessionReply "A")
    /\ exchanges
         (outLog (transfer 2 demoStamp reassign notAsked writesAll unlinksAll
                    (demoArgs 6) 7 sixBytes ∅ 0%nat 0%nat)) !! 2%nat
       = Some (reqj, replyj)
    /\ pIdentifier reqj = Some (JStr "B")).
  { do 3 eexists. split; [vm_compute; reflexivity|].
    split; [vm_compute; reflexivity | reflexivity]. }
  destruct Hlog as (reqi & reqj & replyj & Hi & Hj & Hb).
  specialize (Hclaim 0%nat 2%nat reqi (sessionReply "A") reqj replyj (JStr "A")
                ltac:(lia) Hi eq_refl Hj).
  congruence.
Qed.


(** C8: the second reply says [partialSuccess: false] and has a text as
    [files], which is no list of files; the text has a positive length, and
    the call returns the reply instead of throwing. *)
Lemma partial_failure_aborts_counterexample :
  partialFailed
    (JObj [("partialSuccess", JBool false); ("files", JStr "x")]) = true
  /\ exists s w,
       upload 2 demoStamp refuseWithFiles notAsked writesAll unlinksAll
         (demoArgs 6) 7 (DownloadBody sixBytes) ∅ 0%nat 0%nat
       = Returned
           (JObj [("partialSuccess", JBool false); ("files", JStr "x")]) s w.
Proof.
  split; [reflexivity|]. do 2 eexists. vm_compute. reflexivity.
Qed.

(** C9: with chunks of two bytes, a fragment of one byte and then one of two
    bytes make [accumulatedChunks] hold three bytes, and right after their
    consolidation [buffer] holds these three bytes as well: six bytes, more
    than twice the chunk size. *)
Lemma buffers_bounded_counterexample :
  Forall (fun value => blen value <= 2) [blob 1; blob 2]
  /\ ~ Forall (fun held => held <= 2 * 2)
         (heldSamples
            (outLog (upload 2 demoStamp acceptAll notAsked writesAll
                       unlinksAll (demoArgs 3) 4
                       (DownloadBody [blob 1; blob 2]) ∅ 0%nat 0%nat))).
Proof.
  split; [repeat constructor; vm_compute; discriminate|].
  intros Hclaim.
  assert (Hhead : exists rest,
    heldSamples
      (outLog (upload 2 demoStamp acceptAll notAsked writesAll unlinksAll
                 (demoArgs 3) 4 (DownloadBody [blob 1; blob 2]) ∅
                 0%nat 0%nat))
    = 1 :: 3 :: 6 :: rest).
  { eexists. vm_compute. reflexivity. }
  destruct Hhead as [rest Hhead]. rewrite Hhead in Hclaim.
  apply Forall_cons in Hclaim as [_ Hclaim].
  apply Forall_cons in Hclaim as [_ Hclaim].
  apply Forall_cons in Hclaim as [Hsix _]. lia.
Qed.


(** ** Further properties at concrete transfers *)

Lemma chunks_carry_the_stream_witness :
  bufferConcat
    (body <$> requests
       (outLog (transfer 2 demoStamp acceptAll
             notAsked writesAll unlinksAll (demoArgs 6) 7 sixBytes ∅
                  0%nat 0%nat)))
  = bufferConcat sixBytes
  /\ bufferConcat
       (body <$> requests
          (outLog (transfer 2 demoStamp refuseSecond
                notAsked writesAll unlinksAll (demoArgs 6) 7 sixBytes ∅
                     0%nat 0%nat)))
     `prefix_of` bufferConcat sixBytes.
Proof.
  split.
  - destruct (transfer 2 demoStamp acceptAll
        notAsked writesAll unlinksAll (demoArgs 6) 7 sixBytes ∅ 0%nat 0%nat)
      as [|resp s w| |] eqn:Hrun; try (vm_compute in Hrun; discriminate).
    assert (Hresp : resp = streamEndResult).
    { vm_compute in Hrun. injection Hrun as <- _ _. reflexivity. }
    subst resp.
    apply (proj2 (chunks_carry_the_stream 2 demoStamp nat acceptAll
          notAsked writesAll unlinksAll (demoArgs 6)
                    7 sixBytes ∅ 0%nat 0%nat ltac:(lia)
                    ltac:(vm_compute; reflexivity)) s w Hrun).
  - apply (chunks_carry_the_stream 2 demoStamp nat refuseSecond
        notAsked writesAll unlinksAll (demoArgs 6) 7
             sixBytes ∅ 0%nat 0%nat); [lia | vm_compute; reflexivity].
Defined.

Lemma ranges_contiguous_witness :
  rangeStart
  <$> requests
        (outLog (transfer 2 demoStamp acceptAll
              notAsked writesAll unlinksAll (demoArgs 6) 7 sixBytes ∅
                   0%nat 0%nat))
  = [0; 2; 4]
  /\ (forall i a b,
        requests
          (outLog (transfer 2 demoStamp acceptAll
                notAsked writesAll unlinksAll (demoArgs 6) 7 sixBytes ∅
                     0%nat 0%nat)) !! i = Some a ->
        requests
          (outLog (transfer 2 demoStamp acceptAll
                notAsked writesAll unlinksAll (demoArgs 6) 7 sixBytes ∅
                     0%nat 0%nat)) !! S i = Some b ->
        rangeStart b = rangeEnd a + 1).
Proof.
  split; [vm_compute; reflexivity|].
  apply (ranges_contiguous 2 demoStamp nat acceptAll
        notAsked writesAll unlinksAll (demoArgs 6) 7 sixBytes ∅
           0%nat 0%nat); [lia | vm_compute; reflexivity].
Defined.

Lemma chunk_sizes_bounded_witness :
  let req := chunkRequest (demoArgs 6) initialSession (blob 2) false in
  1 <= blen (body req) <= 2.
Proof.
  intros req.
  apply (chunk_sizes_bounded 2 demoStamp nat acceptAll
        notAsked writesAll unlinksAll (demoArgs 6) 7 sixBytes ∅
           0%nat 0%nat req);
    [lia | vm_compute; reflexivity | vm_compute; apply list_elem_of_here].
Defined.

Lemma transfer_terminates_witness :
  ((exists resp s w,
      transfer 2 demoStamp breakSecond
            notAsked writesAll unlinksAll (demoArgs 6) 7 sixBytes ∅ 0%nat 0%nat
      = Returned resp s w)
   \/ (exists e s w,
         transfer 2 demoStamp breakSecond
               notAsked writesAll unlinksAll (demoArgs 6) 7 sixBytes ∅ 0%nat 0%nat
         = Threw e s w))
  /\ (length
        (requests
           (outLog (transfer 2 demoStamp breakSecond
                 notAsked writesAll unlinksAll (demoArgs 6) 7 sixBytes ∅
                      0%nat 0%nat)))
      <= Z.to_nat ((streamLength sixBytes + 2 - 1) / 2))%nat.
Proof.
  apply (transfer_terminates 2 demoStamp nat breakSecond
        notAsked writesAll unlinksAll (demoArgs 6) 7 sixBytes
           ∅ 0%nat 0%nat); [lia | vm_compute; reflexivity].
Defined.

Lemma progress_increases_witness :
  progressCalls
    (outLog (transfer 2 demoStamp acceptAll
          notAsked writesAll unlinksAll (demoArgs 6) 7 sixBytes ∅
               0%nat 0%nat))
  = [(2, 6); (4, 6); (6, 6)]
  /\ (forall i a b,
        progressCalls
          (outLog (transfer 2 demoStamp acceptAll
                notAsked writesAll unlinksAll (demoArgs 6) 7 sixBytes ∅
                     0%nat 0%nat)) !! i = Some a ->
        progressCalls
          (outLog (transfer 2 demoStamp acceptAll
                notAsked writesAll unlinksAll (demoArgs 6) 7 sixBytes ∅
                     0%nat 0%nat)) !! S i = Some b ->
        fst a < fst b).
Proof.
  split; [vm_compute; reflexivity|].
  apply (progress_increases 2 demoStamp nat acceptAll
        notAsked writesAll unlinksAll (demoArgs 6) 7 sixBytes ∅
           0%nat 0%nat); [lia | vm_compute; reflexivity].
Defined.

(** Seven bytes in chunks of two with a declared length of nine: the last
    request holds the seventh byte and states seven as total. *)
Lemma total_length_header_witness :
  let req :=
    chunkRequest (demoArgs 9)
      {| uploadedBytes := 6; partialIdentifier := JStr "abc" |} (blob 1) true in
  rangeTotal req = 7
  /\ pContentLength req = rangeTotal req
  /\ rangeTotal req
     = if (rangeEnd req + 1 =? streamLength [blob 3; blob 4])
          && negb (streamLength [blob 3; blob 4] mod 2 =? 0)
       then streamLength [blob 3; blob 4] else contentLength (demoArgs 9).
Proof.
  intros req. split; [reflexivity|].
  apply (total_length_header 2 demoStamp nat acceptAll
        notAsked writesAll unlinksAll (demoArgs 9) 8
           [blob 3; blob 4] ∅ 0%nat 0%nat req);
    [lia | vm_compute; reflexivity | vm_compute; do 3 apply list_elem_of_further;
                                     apply list_elem_of_here].
Defined.

(** * The stores and the callers of the chunked transfer

    The rest of [commands/zipline.js] that can be followed exactly: the
    token, settings and id stores, [parseInt] on the content-length headers,
    the two upload entry points that choose between one POST and the chunked
    transfer, the listing of a user's uploads, and the paging of that list.

    Strings are sequences of code units below 256.  The token and id stores
    are plain JavaScript objects indexed by any string, so that reading one
    can meet a property inherited from [Object.prototype]; the settings
    store is read under Discord snowflakes, strings of digits.  The ids in
    [userIds] are integers, and a new id is the double nearest to the
    maximum plus one.  A store is kept in memory and written as a whole to
    its file by each function that changes it; the write can throw, which
    leaves the memory changed.  Of the entry points, the download, the
    temporary file, its removal and [path.join] are in the hands of the
    environment. *)

(** ** [parseInt(s, 10)] and [trim] *)

Definition codeOf (c : Ascii.ascii) : Z := Z.of_N (Ascii.N_of_ascii c).

(** White space and line terminators, as far as they are code units below
    256: tab, line feed, vertical tab, form feed, carriage return, space and
    no-break space. *)
Definition isStrWhiteSpace (c : Ascii.ascii) : bool :=
  ((9 <=? codeOf c) && (codeOf c <=? 13)) || (codeOf c =? 32) || (codeOf c =? 160).

Fixpoint trimStart (s : string) : string :=
  match s with
  | EmptyString => EmptyString
  | String c rest => if isStrWhiteSpace c then trimStart rest else s
  end.

Fixpoint trimEnd (s : string) : string :=
  match s with
  | EmptyString => EmptyString
  | String c rest =>
      match trimEnd rest with
      | EmptyString => if isStrWhiteSpace c then EmptyString else String c EmptyString
      | kept => String c kept
      end
  end.

(** [s.trim()] *)
Definition jsTrim (s : string) : string := trimEnd (trimStart s).

Definition digitOf (c : Ascii.ascii) : option Z :=
  if (48 <=? codeOf c) && (codeOf c <=? 57) then Some (codeOf c - 48) else None.

(** The value of the longest prefix of decimal digits, given the value [acc]
    of the digits already read; [None] when there is no digit at all. *)
Fixpoint readDigits (s : string) (acc : option Z) : option Z :=
  match s with
  | EmptyString => acc
  | String c rest =>
      match digitOf c with
      | Some d => readDigits rest (Some (10 * default 0 acc + d))
      | None => acc
      end
  end.

(** [parseInt(s, 10)]; [None] is [NaN].  Leading white space is skipped, one
    sign is accepted, and everything after the digits is ignored.  The value
    is the exact integer, as in JavaScript up to 2^53. *)
Definition parseInt10 (s : string) : option Z :=
  match trimStart s with
  | EmptyString => None
  | String c rest =>
      if codeOf c =? 45 then Z.opp <$> readDigits rest None
      else if codeOf c =? 43 then readDigits rest None
      else readDigits (String c rest) None
  end.

(** [v || undefined] and [v && v !== ''] for a string that may be absent. *)
Definition nonEmpty (o : option string) : option string :=
  match o with
  | Some t => if String.eqb t "" then None else Some t
  | None => None
  end.

(** [parseInt(h || '0', 10) || 0] for a header value [h]. *)
Definition lengthHeader (h : option string) : Z :=
  default 0 (parseInt10 (default "0" (nonEmpty h))).

(** The decimal text of a natural number, as a server writes it into a
    content-length header. *)
Definition decimal (n : nat) : string :=
  DecimalString.NilZero.string_of_uint (Nat.to_uint n).

(** The text does not go on with a digit. *)
Definition noDigitAhead (rest : string) : Prop :=
  match rest with
  | EmptyString => True
  | String c _ => digitOf c = None
  end.

(** ** The stores *)

(** The names of the properties that every object inherits from
    [Object.prototype]. *)
Definition inheritedName (k : string) : bool :=
  existsb (String.eqb k)
    ["constructor"; "__proto__"; "hasOwnProperty"; "isPrototypeOf";
     "propertyIsEnumerable"; "toLocaleString"; "toString"; "valueOf";
     "__defineGetter__"; "__defineSetter__"; "__lookupGetter__";
     "__lookupSetter__"].

(** What [store[k]] gives: the value the store has under [k], something
    inherited, which is a function or an object and hence truthy, or
    [undefined]. *)
Inductive Read (A : Type) : Type :=
| Own (v : A)
| Inherited
| Missing.

Arguments Own {A} v.
Arguments Inherited {A}.
Arguments Missing {A}.

Definition jsGet {A : Type} (m : gmap string A) (k : string) : Read A :=
  match m !! k with
  | Some v => Own v
  | None => if inheritedName k then Inherited else Missing
  end.

(** [store[k] = v] for a [v] that is a string or a number.  An assignment
    to [__proto__] is ignored, unless the store has a property of that name
    of its own, as a store parsed from a file can have. *)
Definition jsSet {A : Type} (m : gmap string A) (k : string) (v : A)
    : gmap string A :=
  match m !! k with
  | Some _ => <[k := v]> m
  | None => if String.eqb k "__proto__" then m else <[k := v]> m
  end.

(** The double nearest to an integer, ties going to the even significand;
    integers up to 2^53 are doubles.  Overflow is left aside. *)
Definition toDouble (z : Z) : Z :=
  let a := Z.abs z in
  if a <=? 2 ^ 53 then z
  else
    let unit := 2 ^ (Z.log2 a - 52) in
    let q := a / unit in
    let r := a mod unit in
    let q' :=
      if 2 * r <? unit then q
      else if unit <? 2 * r then q + 1
      else if Z.even q then q else q + 1 in
    Z.sgn z * (q' * unit).

(** The three stores as they are in memory.  Each function that changes one
    then writes it to its file with [fs.writeFileSync]; when that throws,
    the memory has been changed already and the caller sees the
    exception. *)
Record Stores : Type := {
  userTokens : gmap string string;
  userSettings : gmap string Settings;
  userIds : gmap string Z
}.

(** [saveTokens], [saveSettings] and [saveIds] write a file and leave the
    memory as it is. *)
Definition saveTokens (st : Stores) : Stores := st.

Definition saveSettings (st : Stores) : Stores := st.

Definition saveIds (st : Stores) : Stores := st.

(** [userTokens[userId] || null]; [Missing] is [null]. *)
Definition getUserToken (st : Stores) (userId : string) : Read string :=
  match jsGet (userTokens st) userId with
  | Own t => if String.eqb t "" then Missing else Own t
  | Inherited => Inherited
  | Missing => Missing
  end.

Definition setUserToken (st : Stores) (userId token : string) : Stores :=
  saveTokens
    {| userTokens := jsSet (userTokens st) userId token;
       userSettings := userSettings st; userIds := userIds st |}.

Definition deleteUserToken (st : Stores) (userId : string) : Stores :=
  saveTokens
    {| userTokens := delete userId (userTokens st);
       userSettings := userSettings st; userIds := userIds st |}.

Definition getUserSettings (st : Stores) (userId : string) : Settings :=
  default {| expiry := None; compression := None |} (userSettings st !! userId).

(** [v ? v.trim() : null] *)
Definition trimmedOrNull (o : option string) : option string :=
  jsTrim <$> nonEmpty o.

Definition setUserSettings (st : Stores) (userId : string) (new : Settings)
    : Stores :=
  saveSettings
    {| userTokens := userTokens st;
       userSettings :=
         <[userId := {| expiry := trimmedOrNull (expiry new);
                        compression := trimmedOrNull (compression new) |}]>
           (userSettings st);
       userIds := userIds st |}.

(** [userIds[discordUserId] || null]: an id of 0 counts as none, and
    [Missing] is [null]. *)
Definition getBotUserId (st : Stores) (discordUserId : string) : Read Z :=
  match jsGet (userIds st) discordUserId with
  | Own id => if id =? 0 then Missing else Own id
  | Inherited => Inherited
  | Missing => Missing
  end.

(** [Math.max(...existing)] of a non-empty list, and 0 for none:
    [existing.length ? Math.max(...existing) : 0]. *)
Definition maxOrZero (existing : list Z) : Z :=
  match existing with
  | [] => 0
  | first :: rest => foldr Z.max first rest
  end.

(** What a call of [ensureAssignBotUserId] gives: an id, something
    inherited, or the exception of [saveIds]. *)
Inductive IdResult : Type :=
| IdGiven (id : Z)
| IdInherited
| IdNotSaved.

(** [ensureAssignBotUserId]; [saved] tells whether [saveIds] succeeds.  The
    ids in the store are integers of less than 22 digits, which
    [parseInt(v, 10)] gives back as they are, and [Math.max] takes as many
    arguments as the store has ids. *)
Definition ensureAssignBotUserId (saved : bool) (st : Stores)
    (discordUserId : string) : IdResult * Stores :=
  match getBotUserId st discordUserId with
  | Own id => (IdGiven id, st)
  | Inherited => (IdInherited, st)
  | Missing =>
      let existing := (map_to_list (userIds st)).*2 in
      let next := toDouble (maxOrZero existing + 1) in
      (if saved then IdGiven next else IdNotSaved,
       saveIds
         {| userTokens := userTokens st; userSettings := userSettings st;
            userIds := jsSet (userIds st) discordUserId next |})
  end.

(** The loop run when the module is loaded, over [Object.keys(userTokens)]
    in the order [keys]; [saved uid] tells whether the id of [uid] can be
    saved.  An exception is caught around the loop and ends it. *)
Fixpoint assignExistingUsers (saved : string -> bool) (keys : list string)
    (st : Stores) : Stores :=
  match keys with
  | [] => st
  | uid :: rest =>
      match getBotUserId st uid with
      | Missing =>
          let st' := snd (ensureAssignBotUserId (saved uid) st uid) in
          if saved uid then assignExistingUsers saved rest st' else st'
      | _ => assignExistingUsers saved rest st
      end
  end.

(** The part of [handleComponents] that stores a submitted modal value:
    [setUserSettings(userId, {...getUserSettings(userId), expiry: value})],
    and the same for the compression. *)
Definition submitExpiry (st : Stores) (userId value : string) : Stores :=
  setUserSettings st userId
    {| expiry := Some value; compression := compression (getUserSettings st userId) |}.

Definition submitCompression (st : Stores) (userId value : string) : Stores :=
  setUserSettings st userId
    {| expiry := expiry (getUserSettings st userId); compression := Some value |}.

(** The functions that change a store. *)
Inductive StoreCall : Type :=
| CallSetToken (userId token : string)
| CallDeleteToken (userId : string)
| CallSetSettings (userId : string) (new : Settings)
| CallEnsureId (saved : bool) (discordUserId : string).

Definition applyCall (st : Stores) (c : StoreCall) : Stores :=
  match c with
  | CallSetToken userId token => setUserToken st userId token
  | CallDeleteToken userId => deleteUserToken st userId
  | CallSetSettings userId new => setUserSettings st userId new
  | CallEnsureId saved discordUserId =>
      snd (ensureAssignBotUserId saved st discordUserId)
  end.

(** The stores right after the three files were read. *)
Definition loadStores (tokens : gmap string string)
    (stored : gmap string Settings) (ids : gmap string Z) : Stores :=
  {| userTokens := tokens; userSettings := stored; userIds := ids |}.

(** Users with an id have different ids. *)
Definition DistinctIds (st : Stores) : Prop :=
  forall u v a,
    getBotUserId st u = Own a -> getBotUserId st v = Own a -> u = v.

(** Every id in the store is less than [bound] in absolute value. *)
Definition IdsBelow (bound : Z) (st : Stores) : Prop :=
  forall v a, userIds st !! v = Some a -> Z.abs a < bound.

(** ** Paging through the list of uploads *)

(** [l.slice(start, stop)] on an array or a string. *)
Definition arraySlice {A : Type} (l : list A) (start stop : Z) : list A :=
  let s := clampIndex (Z.of_nat (length l)) start in
  let e := clampIndex (Z.of_nat (length l)) stop in
  take (Z.to_nat (e - s)) (drop (Z.to_nat s) l).

(** [trimString(str, maxLength)], with the code unit of the ellipsis passed
    in. *)
Definition trimString {A : Type} (ellipsis : A) (str : list A) (maxLength : Z)
    : list A :=
  match str with
  | [] => []
  | _ =>
      if maxLength <? Z.of_nat (length str)
      then arraySlice str 0 (maxLength - 1) ++ [ellipsis]
      else str
  end.

Definition pageSize : Z := 5.

(** [Math.ceil(uploads.length / pageSize)] *)
Definition totalPages {A : Type} (uploads : list A) : Z :=
  (Z.of_nat (length uploads) + pageSize - 1) / pageSize.

(** What [createEmbed] and [buildRow] show for the current page: the uploads
    listed, the two numbers of the footer, and which buttons are disabled. *)
Record PageView (A : Type) : Type := {
  shown : list A;
  footerPage : Z;
  footerTotal : Z;
  prevDisabled : bool;
  nextDisabled : bool
}.

Arguments shown {A} p.
Arguments footerPage {A} p.
Arguments footerTotal {A} p.
Arguments prevDisabled {A} p.
Arguments nextDisabled {A} p.

Definition renderPage {A : Type} (uploads : list A) (page : Z) : PageView A :=
  {| shown := arraySlice uploads (page * pageSize) ((page + 1) * pageSize);
     footerPage := page + 1;
     footerTotal := totalPages uploads;
     prevDisabled := page =? 0;
     nextDisabled := page + 1 =? totalPages uploads |}.

(** A button press: who pressed, and the id of the button. *)
Record Press : Type := {
  presser : string;
  customId : string
}.

(** The [collect] handler of [paginateUploads]: the new page, and the view
    the message is updated with; [None] when somebody else pressed and is
    told so. *)
Definition collectPress {A : Type} (owner : string) (uploads : list A)
    (page : Z) (i : Press) : Z * option (PageView A) :=
  if negb (String.eqb (presser i) owner) then (page, None)
  else
    let page :=
      if String.eqb (customId i) "zip_prev" && (0 <? page) then page - 1
      else page in
    let page :=
      if String.eqb (customId i) "zip_next" && (page <? totalPages uploads - 1)
      then page + 1
      else page in
    (page, Some (renderPage uploads page)).

(** The page after a series of presses, and the views shown along the
    way. *)
Fixpoint collectAll {A : Type} (owner : string) (uploads : list A) (page : Z)
    (presses : list Press) : Z * list (PageView A) :=
  match presses with
  | [] => (page, [])
  | i :: rest =>
      let step := collectPress owner uploads page i in
      let later := collectAll owner uploads (fst step) rest in
      (fst later,
       match snd step with
       | Some view => view :: snd later
       | None => snd later
       end)
  end.

(** [paginateUploads]: the view the reply starts with, followed by the
    views the message is updated with as the buttons are pressed. *)
Definition paginateUploads {A : Type} (owner : string) (uploads : list A)
    (presses : list Press) : list (PageView A) :=
  renderPage uploads 0 :: snd (collectAll owner uploads 0 presses).

(** The owner pressing the next button. *)
Definition pressNext (owner : string) : Press :=
  {| presser := owner; customId := "zip_next" |}.

(** What a view shows when its page is one of the pages. *)
Definition ViewOk {A : Type} (uploads : list A) (view : PageView A) : Prop :=
  1 <= footerPage view <= footerTotal view
  /\ footerTotal view = totalPages uploads
  /\ shown view
     = take 5 (drop (Z.to_nat (pageSize * (footerPage view - 1))) uploads)
  /\ (1 <= length (shown view) <= 5)%nat.

(** ** Listing the uploads of a user *)

(** The GET of [/api/user/files]: [page] and [perpage] are the two numbers
    put into the query. *)
Record ListRequest : Type := {
  lAuthorization : string;
  lPage : Z;
  lPerpage : Z
}.

(** What the server answers: nothing, or a status with the value of the
    body, [None] when the body is not JSON. *)
Inductive PageReply : Type :=
| PageUnreachable
| PageAnswer (status : Z) (parsed : option Json).

Inductive ListError : Type :=
| ListUnreachable
| ListNotOk (status : Z) (txt : option Json)
| ListNotJson
| ListTypeError.

Inductive ListResult : Type :=
| ListGave (uploads : list Json)
| ListThrew (e : ListError)
| ListBeyond
| ListOutOfFuel.

(** What [allUploads.push(...v)] appends: the elements of an array, the
    characters of a string; anything else cannot be spread. *)
Definition spreadOf (v : Json) : option (list Json) :=
  match v with
  | JArr items => Some items
  | JStr s =>
      Some ((fun c => JStr (String c EmptyString)) <$> String.list_ascii_of_string s)
  | _ => None
  end.

(** [page >= v] for a positive [page].  [undefined] compares as false,
    [null] as 0 and a boolean as 0 or 1; comparing with a string, an array
    or an object would convert text to a number, which is outside the
    model ([None]). *)
Definition pageReached (page : Z) (v : option Json) : option bool :=
  match v with
  | None => Some false
  | Some (JNum n) => Some (n <=? page)
  | Some JNull => Some (0 <=? page)
  | Some (JBool b) => Some ((if b then 1 else 0) <=? page)
  | Some _ => None
  end.

(** ** The upload entry points *)

Arguments World ServerState : assert.
Arguments record {ServerState} e w.
Arguments writeFileSync {ServerState} result path data w.
Arguments existsSync {ServerState} path w.
Arguments unlinkSync {ServerState} throws path w.
Arguments startWorld {ServerState} disk srv n.
Arguments events {ServerState} s.
Arguments ending {ServerState} s.

(** What a [fetch] of the source gives: the promise is rejected, or there is
    a response with its status, the two headers that are read, and its body:
    the fragments it delivers, and whether it fails after them. *)
Record Response : Type := {
  resOk : bool;
  resContentLength : option string;
  resContentType : option string;
  resBody : list Buffer;
  resBodyFails : bool
}.

Inductive Fetched : Type :=
| Unreachable
| Responded (res : Response).

(** The POST to [/api/upload]. *)
Record UploadRequest : Type := {
  uUrl : string;
  uAuthorization : string;
  uDeletesAt : option string;
  uCompression : option string;
  uOriginalName : string;
  uFilename : string;
  uBody : Buffer
}.

Inductive UploadError : Type :=
| GuestNotConfigured
| HeadUnreachable
| DownloadUnreachable
| AttachmentNotOk
| DownloadStreamFailed
| PostUnreachable
| UploadNotOk (status : Z) (txt : Json).

(** How a call that is not relayed in chunks ends.  [Hung]: the stream that
    writes the temporary file fails; nothing listens to its [error] event,
    so that the promise the function waits for is never settled, and Node
    ends the process unless something else handles the event. *)
Inductive Ended : Type :=
| Gave (resp : Json)
| Raised (e : UploadError)
| Hung.

(** ** Concrete stores, servers and downloads *)

(** User 1 has a token and settings, users 1 and 2 have ids. *)
Definition demoStores : Stores :=
  loadStores (<["1" := "token-1"]> ∅)
    (<["1" := {| expiry := Some "1d"; compression := Some "80" |}]> ∅)
    (<["1" := 3]> (<["2" := 7]> ∅)).

(** A server that accepts every POST to [/api/upload], and one that cannot
    be reached. *)
Definition acceptUpload : nat -> UploadRequest -> nat * Reply :=
  fun served _ => (S served, filesReply).

Definition dropUpload : nat -> UploadRequest -> nat * Reply :=
  fun served _ => (served, NetworkError).

(** A download of three bytes with a given content-length header. *)
Definition smallFile (declared : option string) : Response :=
  {| resOk := true; resContentLength := declared; resContentType := None;
     resBody := [blob 3]; resBodyFails := false |}.

(** A server that lists [items] page by page. *)
Definition listingOf (items : list Json)
    : nat -> ListRequest -> nat * PageReply :=
  fun served req =>
    (S served,
     PageAnswer 200
       (Some (JObj [("page",
                     JArr (arraySlice items ((lPage req - 1) * lPerpage req)
                             (lPage req * lPerpage req)));
                    ("pages",
                     JNum ((Z.of_nat (length items) + lPerpage req - 1)
                           / lPerpage req))]))).

Definition sevenUploads : list Z := [1; 2; 3; 4; 5; 6; 7].

(** [path.join('./', name)] for a name without a separator. *)
Definition plainJoin : string -> string := fun name => name.

(** Every temporary file can be removed. *)
Definition removesAll : nat -> bool := fun _ => false.

Section Callers.

(** [CHUNK_THRESHOLD] and [CHUNK_SIZE], read from the configuration. *)
Variable CHUNK_THRESHOLD : Z.
Variable CHUNK_SIZE : Z.

(** The random part of the name of the n-th temporary file, and the text of
    [Date.now()] when it is named. *)
Variable tmpStamp : nat -> string.
Variable nowStamp : nat -> string.

Variable ServerState : Type.
Variable serve : ServerState -> Request -> ServerState * Reply.
Variable serveUpload : ServerState -> UploadRequest -> ServerState * Reply.

(** The environment of the chunked transfer. *)
Variable jsPositive : Json -> option bool.
Variable stageWrite : nat -> Buffer -> WriteResult.
Variable unlinkThrows : nat -> bool -> bool.

(** [path.join('./', name)]: the name with its [.] and [..] segments and
    doubled separators resolved. *)
Variable pathJoin : string -> string.

(** What the write stream of the n-th temporary file does with the data
    piped into it, and whether [fs.unlinkSync] throws on that file. *)
Variable sinkResult : nat -> Buffer -> WriteResult.
Variable tmpUnlinkThrows : nat -> bool.

Variable ZIPLINE_BASE_URL : string.
Variable ANON_ZIPLINE_BASE_URL : option string.
Variable ANON_ZIPLINE_TOKEN : option string.
Variable ANON_UPLOAD_EXPIRY : option string.

(** How an entry point ends: through the chunked transfer, or by itself,
    with the POST it made, if it got that far. *)
Inductive UploadResult : Type :=
| ViaChunks (o : Outcome ServerState unit)
| Direct (posted : option UploadRequest) (ended : Ended) (w : World ServerState).

(** [if (p && fs.existsSync(p)) { try { fs.unlinkSync(p); } catch {} }] for
    the n-th temporary file; what [path.join] gives is never the empty
    string. *)
Definition removeQuietly (n : nat) (path : string) (w : World ServerState)
    : World ServerState :=
  if existsSync path w then
    match unlinkSync (tmpUnlinkThrows n) path w with
    | inr w' => w'
    | inl _ => w
    end
  else w.

(** The name of the temporary file of a call that starts in [w]. *)
Definition tmpPathOf (tmpPrefix filename : string) (w : World ServerState)
    : string :=
  pathJoin (tmpPrefix +:+ nowStamp (staged w) +:+ "_" +:+ filename).

(** The path shared by both entry points for a small file: the download is
    piped into a temporary file, which is posted and then removed.  The
    function goes on when the file is finished, throws when the download
    fails, and is stuck when the file cannot be written.  A POST that is
    rejected, or whose answer cannot be read, is a [NetworkError]. *)
Definition singleShot (tmpPrefix uploadUrl token filename : string)
    (deletesAt compression' : option string) (dl : Response)
    (w : World ServerState) : UploadResult :=
  let n := staged w in
  let tmpPath := tmpPathOf tmpPrefix filename w in
  let delivered := bufferConcat (resBody dl) in
  let w :=
    {| files := files w; server := server w; staged := S n;
       log := log w |} in
  match writeFileSync (sinkResult n delivered) tmpPath delivered w with
  | (Some _, w) => Direct None Hung w
  | (None, w) =>
      if resBodyFails dl then Direct None (Raised DownloadStreamFailed) w
      else
        let req :=
          {| uUrl := uploadUrl;
             uAuthorization := token;
             uDeletesAt := deletesAt;
             uCompression := compression';
             uOriginalName := "true";
             uFilename := filename;
             uBody := default [] (files w !! tmpPath) |} in
        let answer := serveUpload (server w) req in
        let w :=
          {| files := files w; server := fst answer; staged := staged w;
             log := log w |} in
        match snd answer with
        | NetworkError => Direct (Some req) (Raised PostUnreachable) w
        | HttpReply status parsed =>
            let w := removeQuietly n tmpPath w in
            if statusOk status then Direct (Some req) (Gave parsed) w
            else Direct (Some req) (Raised (UploadNotOk status parsed)) w
        end
  end.

(** [contentLengthHead || parseInt(dlRes.headers.get('content-length') || '0', 10) || 0] *)
Definition declaredLength (head dl : Response) : Z :=
  if lengthHeader (resContentLength head) =? 0
  then lengthHeader (resContentLength dl)
  else lengthHeader (resContentLength head).

(** [contentLength >= CHUNK_THRESHOLD && contentLength > 0] *)
Definition goesChunked (declared : Z) : bool :=
  (CHUNK_THRESHOLD <=? declared) && (0 <? declared).

(** [ziplineUploadFromUrl]: [headRes] and [dlRes] are what the HEAD and the
    GET of the source give, [again] what the GET of the chunked transfer
    gives. *)
Definition ziplineUploadFromUrl (st : Stores)
    (token fileUrl' filename' userId : string) (onProgress' : bool)
    (headRes dlRes : Fetched) (again : Download) (fuel : nat)
    (w : World ServerState) : UploadResult :=
  let stored := getUserSettings st userId in
  match headRes with
  | Unreachable => Direct None (Raised HeadUnreachable) w
  | Responded head =>
      match dlRes with
      | Unreachable => Direct None (Raised DownloadUnreachable) w
      | Responded dl =>
          if negb (resOk dl) then Direct None (Raised AttachmentNotOk) w
          else
            let declared := declaredLength head dl in
            if goesChunked declared then
              ViaChunks
                (ziplinePartialUpload CHUNK_SIZE tmpStamp serve jsPositive
                   stageWrite unlinkThrows
                   {| baseUrl := ZIPLINE_BASE_URL;
                      authToken := token;
                      fileUrl := fileUrl';
                      filename := filename';
                      contentLength := declared;
                      contentType := nonEmpty (resContentType dl);
                      anon := false;
                      settings := stored;
                      onProgress := onProgress' |}
                   fuel again w)
            else
              singleShot "tmp_" (ZIPLINE_BASE_URL +:+ "/api/upload") token
                filename' (nonEmpty (expiry stored))
                (nonEmpty (compression stored)) dl w
      end
  end.

(** [ziplineAnonUploadFromUrl] *)
Definition ziplineAnonUploadFromUrl (fileUrl' filename' : string)
    (onProgress' : bool) (headRes dlRes : Fetched) (again : Download)
    (fuel : nat) (w : World ServerState) : UploadResult :=
  match nonEmpty ANON_ZIPLINE_BASE_URL, nonEmpty ANON_ZIPLINE_TOKEN with
  | Some base, Some token =>
      match headRes with
      | Unreachable => Direct None (Raised HeadUnreachable) w
      | Responded head =>
          match dlRes with
          | Unreachable => Direct None (Raised DownloadUnreachable) w
          | Responded dl =>
              if negb (resOk dl) then Direct None (Raised AttachmentNotOk) w
              else
                let declared := declaredLength head dl in
                if goesChunked declared then
                  ViaChunks
                    (ziplinePartialUpload CHUNK_SIZE tmpStamp serve jsPositive
                       stageWrite unlinkThrows
                       {| baseUrl := base;
                          authToken := token;
                          fileUrl := fileUrl';
                          filename := filename';
                          contentLength := declared;
                          contentType := nonEmpty (resContentType dl);
                          anon := true;
                          settings :=
                            {| expiry := nonEmpty ANON_UPLOAD_EXPIRY;
                               compression := None |};
                          onProgress := onProgress' |}
                       fuel again w)
                else
                  singleShot "tmp_anon_" (base +:+ "/api/upload") token
                    filename' (nonEmpty ANON_UPLOAD_EXPIRY) None dl w
          end
      end
  | _, _ => Direct None (Raised GuestNotConfigured) w
  end.

(** ** Observations on an entry point *)

(** The headers [Authorization], [x-zipline-deletes-at] and
    [x-zipline-compression] of a request. *)
Record Carried : Type := {
  cAuthorization : string;
  cDeletesAt : option string;
  cCompression : option string
}.

(** What the requests of a call carry, chunk by chunk or for the one
    POST. *)
Definition carried (r : UploadResult) : list Carried :=
  match r with
  | ViaChunks o =>
      (fun req =>
         {| cAuthorization := hAuthorization req;
            cDeletesAt := hDeletesAt req;
            cCompression := hCompression req |}) <$> requests (outLog o)
  | Direct (Some req) _ _ =>
      [{| cAuthorization := uAuthorization req;
          cDeletesAt := uDeletesAt req;
          cCompression := uCompression req |}]
  | Direct None _ _ => []
  end.

(** The POST was answered. *)
Definition answered (ended : Ended) : bool :=
  match ended with
  | Gave _ | Raised (UploadNotOk _ _) => true
  | _ => false
  end.

(** A call that is not relayed in chunks leaves every path but that of its
    temporary file as it was, and when the POST was answered and the
    temporary file can be removed, it is gone. *)
Definition CleansUp (tmpPath : string) (w : World ServerState)
    (r : UploadResult) : Prop :=
  forall posted ended w',
    r = Direct posted ended w' ->
    (forall path, path <> tmpPath -> files w' !! path = files w !! path)
    /\ (answered ended = true -> tmpUnlinkThrows (staged w) = false ->
        files w' !! tmpPath = None).

(** ** Listing the uploads of a user, continued *)

Variable serveList : ServerState -> ListRequest -> ServerState * PageReply.

(** [ziplineFetchUserUploads] *)
Definition ziplineFetchUserUploads (token : string) (page perpage : Z)
    (srv : ServerState) : ServerState * (ListError + Json) :=
  let answer :=
    serveList srv
      {| lAuthorization := token; lPage := page; lPerpage := perpage |} in
  (fst answer,
   match snd answer with
   | PageUnreachable => inl ListUnreachable
   | PageAnswer status parsed =>
       if statusOk status then
         match parsed with
         | Some resp => inr resp
         | None => inl ListNotJson
         end
       else inl (ListNotOk status parsed)
   end).

(** The loop of [ziplineFetchAllUserUploads], from a given page on. *)
Fixpoint fetchPagesFrom (fuel : nat) (token : string) (page : Z)
    (allUploads : list Json) (srv : ServerState) : ServerState * ListResult :=
  match fuel with
  | O => (srv, ListOutOfFuel)
  | S fuel' =>
      match ziplineFetchUserUploads token page 50 srv with
      | (srv, inl e) => (srv, ListThrew e)
      | (srv, inr resp) =>
          match resp with
          | JNull => (srv, ListThrew ListTypeError)
          | _ =>
              match prop resp "page" with
              | None => (srv, ListGave allUploads)
              | Some listed =>
                  if negb (truthy listed) then (srv, ListGave allUploads)
                  else
                    match prop listed "length" with
                    | Some (JNum 0) => (srv, ListGave allUploads)
                    | _ =>
                        match spreadOf listed with
                        | None => (srv, ListThrew ListTypeError)
                        | Some items =>
                            let allUploads := allUploads ++ items in
                            match pageReached page (prop resp "pages") with
                            | None => (srv, ListBeyond)
                            | Some true => (srv, ListGave allUploads)
                            | Some false =>
                                fetchPagesFrom fuel' token (page + 1) allUploads srv
                            end
                        end
                    end
              end
          end
      end
  end.

Definition ziplineFetchAllUserUploads (fuel : nat) (token : string)
    (srv : ServerState) : ServerState * ListResult :=
  fetchPagesFrom fuel token 1 [] srv.

(** A server that lists [items] fifty to a page: asked for a page, it
    answers with a success status and a body whose [page] holds the uploads
    of that page and whose [pages], if it is there, is the number of
    pages. *)
Definition ListsInPages (token : string) (items : list Json) : Prop :=
  forall srv page,
    1 <= page ->
    exists srv' status resp,
      serveList srv {| lAuthorization := token; lPage := page; lPerpage := 50 |}
      = (srv', PageAnswer status (Some resp))
      /\ statusOk status = true
      /\ prop resp "page"
         = Some (JArr (arraySlice items ((page - 1) * 50) (page * 50)))
      /\ (prop resp "pages" = None
          \/ prop resp "pages"
             = Some (JNum ((Z.of_nat (length items) + 49) / 50))).

(** ** Properties of the stores *)

Lemma not_inherited_proto (k : string) :
  inheritedName k = false -> String.eqb k "__proto__" = false.
Proof.
  intros Hk. destruct (String.eqb_spec k "__proto__") as [->|]; [|reflexivity].
  vm_compute in Hk. discriminate.
Qed.

Lemma jsGet_set {A : Type} (m : gmap string A) (k : string) (v : A) :
  inheritedName k = false -> jsGet (jsSet m k v) k = Own v.
Proof.
  intros Hk. unfold jsGet, jsSet. rewrite (not_inherited_proto _ Hk).
  destruct (m !! k); rewrite lookup_insert_eq; reflexivity.
Qed.

Lemma jsGet_set_ne {A : Type} (m : gmap string A) (k other : string) (v : A) :
  other <> k -> jsGet (jsSet m k v) other = jsGet m other.
Proof.
  intros Hne. unfold jsGet, jsSet.
  destruct (m !! k), (String.eqb k "__proto__");
    rewrite ?lookup_insert_ne by congruence; reflexivity.
Qed.

(** A string that starts with a decimal digit names no inherited property:
    the ids of Discord users never do. *)
Lemma digits_not_inherited (c : Ascii.ascii) (rest : string) (d : Z) :
  digitOf c = Some d -> inheritedName (String c rest) = false.
Proof.
  destruct c as [[] [] [] [] [] [] [] []]; vm_compute; intros H;
    try discriminate H; reflexivity.
Qed.

(** X7: for a user id that names no inherited property, a token that was
    set is what [getUserToken] gives back, unless it is the empty string,
    which reads as no token; a deleted token is gone; the tokens of other
    users are not touched by either. *)
Theorem token_round_trip (st : Stores) (userId other token : string) :
  inheritedName userId = false ->
  other <> userId ->
  getUserToken (setUserToken st userId token) userId
  = (if String.eqb token "" then Missing else Own token)
  /\ getUserToken (deleteUserToken st userId) userId = Missing
  /\ getUserToken (setUserToken st userId token) other = getUserToken st other
  /\ getUserToken (deleteUserToken st userId) other = getUserToken st other.
Proof.
  intros Hown Hne.
  unfold getUserToken, setUserToken, deleteUserToken, saveTokens.
  cbn [userTokens]. rewrite jsGet_set by exact Hown.
  rewrite jsGet_set_ne by exact Hne.
  unfold jsGet. rewrite lookup_delete_eq, Hown.
  rewrite lookup_delete_ne by congruence.
  repeat split.
Qed.

Lemma maxOrZero_upper (existing : list Z) (a : Z) :
  a ∈ existing -> a <= maxOrZero existing.
Proof.
  destruct existing as [|first rest]; [intros H; apply elem_of_nil in H; contradiction|].
  cbn [maxOrZero]. revert first a.
  induction rest as [|x rest IH]; intros first a Hin; cbn [foldr].
  - apply list_elem_of_singleton in Hin. lia.
  - apply elem_of_cons in Hin as [->|Hin].
    + specialize (IH first first (list_elem_of_here _ _)). lia.
    + apply elem_of_cons in Hin as [->|Hin]; [lia|].
      specialize (IH first a (list_elem_of_further _ _ _ Hin)). lia.
Qed.

(** The largest of bounded numbers is bounded. *)
Lemma maxOrZero_bounded (existing : list Z) (lo hi : Z) :
  lo <= 0 <= hi ->
  Forall (fun a => lo <= a <= hi) existing ->
  lo <= maxOrZero existing <= hi.
Proof.
  intros Hzero. destruct existing as [|first rest]; cbn [maxOrZero]; [lia|].
  intros Hall. apply Forall_cons in Hall as [Hfirst Hrest].
  induction rest as [|x rest IH]; cbn [foldr]; [lia|].
  apply Forall_cons in Hrest as [Hx Hrest]. specialize (IH Hrest). lia.
Qed.

Lemma stored_id_in_values (st : Stores) (v : string) (a : Z) :
  userIds st !! v = Some a -> a ∈ (map_to_list (userIds st)).*2.
Proof.
  intros Hv. apply list_elem_of_fmap. exists (v, a). split; [reflexivity|].
  apply elem_of_map_to_list. exact Hv.
Qed.

Lemma stored_ids_bounded (st : Stores) (lo hi : Z) :
  (forall v a, userIds st !! v = Some a -> lo <= a <= hi) ->
  Forall (fun a => lo <= a <= hi) (map_to_list (userIds st)).*2.
Proof.
  intros Hall. rewrite Forall_forall. intros a Ha.
  apply list_elem_of_fmap in Ha as ([v b] & -> & Hin).
  apply elem_of_map_to_list in Hin. apply (Hall v). exact Hin.
Qed.

Lemma toDouble_exact (z : Z) : Z.abs z <= 2 ^ 53 -> toDouble z = z.
Proof.
  intros Hz. unfold toDouble.
  destruct (Z.abs z <=? 2 ^ 53) eqn:Hle; [reflexivity|].
  apply Z.leb_gt in Hle. lia.
Qed.

(** The id handed out next, when the ids in the store are below a bound of
    at most 2^53: one more than the largest, exactly. *)
Lemma next_id (st : Stores) (bound : Z) :
  0 < bound <= 2 ^ 53 ->
  IdsBelow bound st ->
  toDouble (maxOrZero (map_to_list (userIds st)).*2 + 1)
  = maxOrZero (map_to_list (userIds st)).*2 + 1
  /\ Z.abs (maxOrZero (map_to_list (userIds st)).*2 + 1) < bound + 1
  /\ forall v a,
       userIds st !! v = Some a ->
       a < maxOrZero (map_to_list (userIds st)).*2 + 1.
Proof.
  intros Hbound Hids.
  assert (Hmax : - (bound - 1) <= maxOrZero (map_to_list (userIds st)).*2
                 <= bound - 1).
  { apply maxOrZero_bounded; [lia|]. apply stored_ids_bounded.
    intros v a Hv. specialize (Hids v a Hv). lia. }
  split; [apply toDouble_exact; lia|]. split; [lia|].
  intros v a Hv.
  pose proof (maxOrZero_upper _ _ (stored_id_in_values st v a Hv)). lia.
Qed.

(** Where [ensureAssignBotUserId] assigns, it stores the id under the
    name. *)
Lemma jsSet_missing (st : Stores) (u : string) (id : Z) :
  getBotUserId st u = Missing ->
  jsSet (userIds st) u id = <[u := id]> (userIds st).
Proof.
  unfold getBotUserId, jsGet, jsSet.
  destruct (userIds st !! u) as [b|]; [reflexivity|].
  destruct (inheritedName u) eqn:Hu; [discriminate|].
  rewrite (not_inherited_proto _ Hu). reflexivity.
Qed.

(** X8: for a user without an id, and ids below 2^53 in the store,
    [ensureAssignBotUserId] assigns an id larger than every id in the store,
    records it for that user and keeps the ids of all others; it returns the
    id unless the store cannot be saved. *)
Theorem fresh_id_above_all (saved : bool) (st : Stores)
    (discordUserId : string) :
  getBotUserId st discordUserId = Missing ->
  IdsBelow (2 ^ 53) st ->
  let st' := snd (ensureAssignBotUserId saved st discordUserId) in
  exists id,
    fst (ensureAssignBotUserId saved st discordUserId)
    = (if saved then IdGiven id else IdNotSaved)
    /\ (forall v a, userIds st !! v = Some a -> a < id)
    /\ userIds st' !! discordUserId = Some id
    /\ (forall v, v <> discordUserId -> userIds st' !! v = userIds st !! v).
Proof.
  intros Hnone Hids. unfold ensureAssignBotUserId. rewrite Hnone.
  cbn [fst snd saveIds userIds].
  destruct (next_id st (2 ^ 53) ltac:(lia) Hids) as (Hexact & _ & Habove).
  rewrite Hexact, (jsSet_missing _ _ _ Hnone).
  eexists. split; [reflexivity|]. split; [exact Habove|]. split.
  - apply lookup_insert_eq.
  - intros v Hne. apply lookup_insert_ne. congruence.
Qed.

Lemma applyCall_ids (st : Stores) (c : StoreCall) :
  userIds (applyCall st c) = userIds st
  \/ exists u,
       getBotUserId st u = Missing
       /\ userIds (applyCall st c)
          = <[u := toDouble (maxOrZero (map_to_list (userIds st)).*2 + 1)]>
              (userIds st).
Proof.
  destruct c as [u t|u|u new|saved u]; cbn; auto.
  unfold ensureAssignBotUserId.
  destruct (getBotUserId st u) eqn:Hid; cbn; auto.
  right. exists u. split; [exact Hid|]. apply jsSet_missing, Hid.
Qed.

Lemma getBotUserId_own (st : Stores) (u : string) (a : Z) :
  getBotUserId st u = Own a <-> userIds st !! u = Some a /\ a <> 0.
Proof.
  unfold getBotUserId, jsGet.
  destruct (userIds st !! u) as [b|].
  - destruct (b =? 0) eqn:Hz.
    + apply Z.eqb_eq in Hz. split; [discriminate|]. intros [[= ->] Hne]. lia.
    + apply Z.eqb_neq in Hz. split.
      * intros [= ->]. auto.
      * intros [[= ->] _]. reflexivity.
  - destruct (inheritedName u); split; try discriminate; intros [H _];
      discriminate H.
Qed.

Lemma applyCall_distinct (st : Stores) (c : StoreCall) (bound : Z) :
  0 < bound <= 2 ^ 53 ->
  IdsBelow bound st ->
  DistinctIds st ->
  DistinctIds (applyCall st c) /\ IdsBelow (bound + 1) (applyCall st c).
Proof.
  intros Hbound Hids Hd.
  destruct (applyCall_ids st c) as [Hsame|(w & Hnone & Hnew)].
  - split.
    + intros u v a. rewrite !getBotUserId_own, Hsame, <- !getBotUserId_own.
      apply Hd.
    + intros v a. rewrite Hsame. intros Hv. specialize (Hids v a Hv). lia.
  - destruct (next_id st bound Hbound Hids) as (Hexact & Hsize & Hless).
    rewrite Hexact in Hnew.
    set (next := maxOrZero _ + 1) in *. split.
    + intros u v a. rewrite !getBotUserId_own, Hnew.
      destruct (decide (u = w)) as [->|Hu], (decide (v = w)) as [->|Hv];
        rewrite ?lookup_insert_eq, ?lookup_insert_ne by congruence; auto.
      * intros [[= <-] _] [Hb _]. specialize (Hless _ _ Hb). lia.
      * intros [Hb _] [[= <-] _]. specialize (Hless _ _ Hb). lia.
      * rewrite <- !getBotUserId_own. apply Hd.
    + intros v a. rewrite Hnew. destruct (decide (v = w)) as [->|Hv].
      * rewrite lookup_insert_eq. intros [= <-]. exact Hsize.
      * rewrite lookup_insert_ne by congruence. intros Hb.
        specialize (Hids v a Hb). lia.
Qed.

Lemma calls_distinct (calls : list StoreCall) (st : Stores) (bound : Z) :
  0 < bound ->
  bound + Z.of_nat (length calls) <= 2 ^ 53 ->
  IdsBelow bound st ->
  DistinctIds st ->
  DistinctIds (foldl applyCall st calls).
Proof.
  revert st bound.
  induction calls as [|c calls IH]; intros st bound Hpos Hroom Hids Hd;
    cbn [foldl]; [exact Hd|].
  cbn [length] in Hroom.
  destruct (applyCall_distinct st c bound ltac:(lia) Hids Hd) as [Hd' Hids'].
  apply (IH _ (bound + 1)); auto; lia.
Qed.

(** X9: as long as the ids stay below 2^53, no two users ever share an id,
    whatever is done to the stores, if none did in the file that was
    loaded: each call raises the largest id by one at most. *)
Theorem ids_stay_distinct (st : Stores) (calls : list StoreCall) :
  Z.of_nat (length calls) < 2 ^ 53 ->
  IdsBelow (2 ^ 53 - Z.of_nat (length calls)) st ->
  DistinctIds st ->
  DistinctIds (foldl applyCall st calls).
Proof.
  intros Hlen Hids Hd.
  apply (calls_distinct calls st (2 ^ 53 - Z.of_nat (length calls)));
    auto; lia.
Qed.

(** What [ensureAssignBotUserId] does for a user id that names no inherited
    property, when the ids in the store are not negative and below a bound
    of at most 2^53. *)
Lemma ensure_shape (saved : bool) (st : Stores) (u : string) (bound : Z) :
  inheritedName u = false ->
  0 < bound <= 2 ^ 53 ->
  (forall v a, userIds st !! v = Some a -> 0 <= a < bound) ->
  exists id,
    1 <= id < bound + 1
    /\ (fst (ensureAssignBotUserId saved st u) = IdGiven id
        \/ saved = false
           /\ fst (ensureAssignBotUserId saved st u) = IdNotSaved)
    /\ getBotUserId (snd (ensureAssignBotUserId saved st u)) u = Own id
    /\ (getBotUserId st u = Own id
        /\ snd (ensureAssignBotUserId saved st u) = st
        \/ getBotUserId st u = Missing
           /\ userIds (snd (ensureAssignBotUserId saved st u))
              = <[u := id]> (userIds st)).
Proof.
  intros Hown Hbound Hnn.
  assert (Hids : IdsBelow bound st).
  { intros v a Hv. specialize (Hnn v a Hv). lia. }
  unfold ensureAssignBotUserId.
  destruct (getBotUserId st u) as [id| |] eqn:Hid; cbn [fst snd].
  - exists id. apply getBotUserId_own in Hid as Hstored.
    destruct Hstored as [Hb Hne]. specialize (Hnn _ _ Hb).
    split; [lia|]. split; [auto|]. split; [exact Hid|]. auto.
  - exfalso. unfold getBotUserId, jsGet in Hid. rewrite Hown in Hid.
    destruct (userIds st !! u) as [b|]; [|discriminate].
    destruct (b =? 0); discriminate.
  - destruct (next_id st bound Hbound Hids) as (Hexact & Hsize & _).
    rewrite Hexact, (jsSet_missing _ _ _ Hid).
    assert (Hmax : 0 <= maxOrZero (map_to_list (userIds st)).*2 <= bound - 1).
    { apply maxOrZero_bounded; [lia|]. apply stored_ids_bounded.
      intros v a Hv. specialize (Hnn v a Hv). lia. }
    exists (maxOrZero (map_to_list (userIds st)).*2 + 1).
    split; [lia|]. split; [destruct saved; auto|]. split.
    + apply getBotUserId_own. unfold saveIds. cbn [userIds].
      rewrite lookup_insert_eq. split; [reflexivity | lia].
    + right. split; reflexivity.
Qed.

(** X10: for a user id that names no inherited property, and ids in the
    store that are not negative and below 2^53, the id assigned to the user
    is at least 1 and stays: [getBotUserId] returns it, and asking again
    returns the same id and leaves the stores as they are. *)
Theorem assigned_id_stable (saved again : bool) (st : Stores)
    (discordUserId : string) :
  inheritedName discordUserId = false ->
  (forall v a, userIds st !! v = Some a -> 0 <= a < 2 ^ 53) ->
  let st' := snd (ensureAssignBotUserId saved st discordUserId) in
  exists id,
    1 <= id
    /\ (saved = true ->
        fst (ensureAssignBotUserId saved st discordUserId) = IdGiven id)
    /\ getBotUserId st' discordUserId = Own id
    /\ ensureAssignBotUserId again st' discordUserId = (IdGiven id, st').
Proof.
  intros Hown Hnn. cbv zeta.
  destruct (ensure_shape saved st discordUserId (2 ^ 53) Hown ltac:(lia) Hnn)
    as (id & Hid & Hret & Hget & _).
  exists id. split; [lia|]. split; [|split; [exact Hget|]].
  - intros ->. destruct Hret as [Hret|[Hf _]]; [exact Hret | discriminate].
  - unfold ensureAssignBotUserId at 1. rewrite Hget. reflexivity.
Qed.

Lemma ensure_keeps_ids (saved : bool) (st : Stores) (u v : string) (a : Z) :
  getBotUserId st v = Own a ->
  getBotUserId (snd (ensureAssignBotUserId saved st u)) v = Own a.
Proof.
  intros Hv. unfold ensureAssignBotUserId.
  destruct (getBotUserId st u) eqn:Hu; cbn [snd]; try exact Hv.
  rewrite getBotUserId_own in *. unfold saveIds. cbn [userIds].
  rewrite (jsSet_missing _ _ _ Hu).
  destruct (decide (v = u)) as [->|Hne].
  - exfalso. apply getBotUserId_own in Hv. rewrite Hv in Hu. discriminate.
  - rewrite lookup_insert_ne by congruence. exact Hv.
Qed.

Lemma assign_keeps_ids (saved : string -> bool) (keys : list string)
    (st : Stores) (v : string) (a : Z) :
  getBotUserId st v = Own a ->
  getBotUserId (assignExistingUsers saved keys st) v = Own a.
Proof.
  revert st. induction keys as [|uid keys IH]; intros st Hv; [exact Hv|].
  cbn [assignExistingUsers].
  destruct (getBotUserId st uid) eqn:Hu; try (apply IH, Hv).
  destruct (saved uid); [apply IH|]; apply ensure_keeps_ids, Hv.
Qed.

(** X11: when the module is loaded with ids that are not negative and leave
    room below 2^53, and the ids can be saved, every user listed in [keys]
    whose name is no inherited property ends up with an id of at least 1;
    the users who had an id keep it in any case. *)
Theorem existing_users_get_ids (saved : string -> bool) (keys : list string)
    (st : Stores) :
  Z.of_nat (length keys) < 2 ^ 53 ->
  (forall v a,
     userIds st !! v = Some a ->
     0 <= a < 2 ^ 53 - Z.of_nat (length keys)) ->
  ((forall uid, uid ∈ keys -> saved uid = true) ->
   forall uid, uid ∈ keys -> inheritedName uid = false ->
     exists id,
       getBotUserId (assignExistingUsers saved keys st) uid = Own id
       /\ 1 <= id)
  /\ (forall v a, getBotUserId st v = Own a ->
        getBotUserId (assignExistingUsers saved keys st) v = Own a).
Proof.
  intros Hlen Hnn. split; [|intros v a; apply assign_keeps_ids].
  intros Hsaved.
  assert (Hgen : forall bound,
    0 < bound -> bound + Z.of_nat (length keys) <= 2 ^ 53 ->
    (forall v a, userIds st !! v = Some a -> 0 <= a < bound) ->
    forall uid, uid ∈ keys -> inheritedName uid = false ->
      exists id,
        getBotUserId (assignExistingUsers saved keys st) uid = Own id
        /\ 1 <= id).
  { clear Hnn Hlen. revert st.
    induction keys as [|k keys IH]; intros st bound Hpos Hroom Hnn uid Hin Hown.
    { apply elem_of_nil in Hin. contradiction. }
    cbn [length] in Hroom. cbn [assignExistingUsers].
    assert (Hrest : forall u, u ∈ keys -> saved u = true).
    { intros u Hu. apply Hsaved, list_elem_of_further, Hu. }
    specialize (IH Hrest).
    destruct (decide (uid = k)) as [->|Hne].
    - destruct (ensure_shape (saved k) st k bound Hown ltac:(lia) Hnn)
        as (id & Hid & _ & Hget & Hshape).
      exists id. split; [|lia].
      destruct Hshape as [[Hhad _]|[Hnone _]].
      + rewrite Hhad. apply assign_keeps_ids, Hhad.
      + rewrite Hnone, (Hsaved k) by apply list_elem_of_here.
        apply assign_keeps_ids. rewrite (Hsaved k) in Hget
          by apply list_elem_of_here. exact Hget.
    - apply elem_of_cons in Hin as [->|Hin]; [congruence|].
      destruct (getBotUserId st k) as [b| |] eqn:Hk.
      + apply (IH st bound); auto; lia.
      + apply (IH st bound); auto; lia.
      + rewrite (Hsaved k) by apply list_elem_of_here.
        apply (IH _ (bound + 1)); auto; try lia.
        intros v a. unfold ensureAssignBotUserId. rewrite Hk.
        cbn [snd saveIds userIds]. rewrite (jsSet_missing _ _ _ Hk).
        assert (Hids : IdsBelow bound st).
        { intros x b Hx. specialize (Hnn x b Hx). lia. }
        destruct (next_id st bound ltac:(lia) Hids) as (Hexact & Hsize & _).
        rewrite Hexact.
        assert (Hmax : 0 <= maxOrZero (map_to_list (userIds st)).*2
                       <= bound - 1).
        { apply maxOrZero_bounded; [lia|]. apply stored_ids_bounded.
          intros x b Hx. specialize (Hnn x b Hx). lia. }
        destruct (decide (v = k)) as [->|Hv].
        * rewrite lookup_insert_eq. intros [= <-]. lia.
        * rewrite lookup_insert_ne by congruence. intros Hb.
          specialize (Hnn v a Hb). lia. }
  apply (Hgen (2 ^ 53 - Z.of_nat (length keys))); auto; lia.
Qed.

(** ** Properties of [parseInt] and [trim] as the module uses them *)

Lemma append_empty (s : string) : "" +:+ s = s.
Proof. reflexivity. Qed.

Lemma append_String (c : Ascii.ascii) (s t : string) :
  String c s +:+ t = String c (s +:+ t).
Proof. reflexivity. Qed.

Lemma readDigits_decimal (d : Decimal.uint) (a : nat) (rest : string) :
  noDigitAhead rest ->
  readDigits (DecimalString.NilEmpty.string_of_uint d +:+ rest)
    (Some (Z.of_nat a))
  = Some (Z.of_nat (Nat.of_uint_acc d a)).
Proof.
  intros Hrest. revert a.
  induction d as [|d IH|d IH|d IH|d IH|d IH|d IH|d IH|d IH|d IH|d IH];
    intros a;
    cbn [DecimalString.NilEmpty.string_of_uint Nat.of_uint_acc];
    rewrite ?append_empty, ?append_String.
  1: { destruct rest as [|c tail]; cbn [readDigits]; [reflexivity|].
       cbn [noDigitAhead] in Hrest. rewrite Hrest. reflexivity. }
  all: cbn [readDigits];
    match goal with
    | |- context [digitOf ?c] =>
        let v := eval vm_compute in (digitOf c) in
        change (digitOf c) with v
    end;
    cbn [from_option id]; rewrite <- IH; f_equal; f_equal;
    rewrite Nat.tail_mul_spec; lia.
Qed.

Lemma parseInt10_decimal (n : nat) (rest : string) :
  noDigitAhead rest ->
  parseInt10 (decimal n +:+ rest) = Some (Z.of_nat n).
Proof.
  intros Hrest. unfold decimal.
  rewrite <- (DecimalNat.Unsigned.of_to n) at 2.
  generalize (Nat.to_uint n). intros d. unfold Nat.of_uint.
  assert (Hnil : forall a, readDigits rest (Some a) = Some a).
  { intros a. destruct rest as [|c tail]; cbn [readDigits]; [reflexivity|].
    cbn [noDigitAhead] in Hrest. rewrite Hrest. reflexivity. }
  destruct d as [|d|d|d|d|d|d|d|d|d|d];
    cbn [DecimalString.NilZero.string_of_uint
         DecimalString.NilEmpty.string_of_uint];
    rewrite ?append_empty, ?append_String;
    unfold parseInt10; cbn [trimStart];
    match goal with
    | |- context [isStrWhiteSpace ?c] =>
        change (isStrWhiteSpace c) with false;
        change (codeOf c =? 45) with false;
        change (codeOf c =? 43) with false;
        let v := eval vm_compute in (digitOf c) in
        (cbn match; cbn [readDigits]; change (digitOf c) with v)
    end;
    cbn [from_option id Nat.of_uint_acc].
  1: { rewrite append_empty. apply Hnil. }
  all: rewrite <- (readDigits_decimal d _ rest Hrest); f_equal; f_equal;
    rewrite Nat.tail_mul_spec; lia.
Qed.

Lemma decimal_nonempty (n : nat) (rest : string) :
  String.eqb (decimal n +:+ rest) "" = false.
Proof.
  unfold decimal. destruct (Nat.to_uint n); reflexivity.
Qed.

(** X13: a content-length header that starts with the decimal text of a
    number reads as that number, whatever follows the digits.  The number is
    taken within the range in which JavaScript numbers are exact. *)
Theorem content_length_read (n : nat) (rest : string) :
  Z.of_nat n <= 2 ^ 53 ->
  noDigitAhead rest ->
  lengthHeader (Some (decimal n +:+ rest)) = Z.of_nat n.
Proof.
  intros _ Hrest. unfold lengthHeader. cbn [nonEmpty].
  rewrite decimal_nonempty. cbn [from_option id].
  rewrite (parseInt10_decimal n rest Hrest). reflexivity.
Qed.

Lemma trimStart_head (s : string) :
  match trimStart s with
  | EmptyString => True
  | String c _ => isStrWhiteSpace c = false
  end.
Proof.
  induction s as [|c s IH]; cbn [trimStart]; [exact I|].
  destruct (isStrWhiteSpace c) eqn:Hc; [exact IH | exact Hc].
Qed.

Lemma trimEnd_head (c : Ascii.ascii) (s : string) :
  isStrWhiteSpace c = false ->
  exists kept, trimEnd (String c s) = String c kept.
Proof.
  intros Hc. cbn [trimEnd]. rewrite Hc. destruct (trimEnd s); eauto.
Qed.

Lemma trimEnd_String (c : Ascii.ascii) (s : string) :
  trimEnd (String c s)
  = match trimEnd s with
    | EmptyString =>
        if isStrWhiteSpace c then EmptyString else String c EmptyString
    | kept => String c kept
    end.
Proof. reflexivity. Qed.

Lemma trimEnd_idempotent (s : string) : trimEnd (trimEnd s) = trimEnd s.
Proof.
  induction s as [|c s IH]; [reflexivity|]. rewrite trimEnd_String.
  destruct (trimEnd s) as [|d kept] eqn:Hkept.
  - destruct (isStrWhiteSpace c) eqn:Hc; [reflexivity|].
    rewrite trimEnd_String. cbn [trimEnd]. rewrite Hc. reflexivity.
  - rewrite trimEnd_String, IH. reflexivity.
Qed.

Lemma jsTrim_idempotent (s : string) : jsTrim (jsTrim s) = jsTrim s.
Proof.
  unfold jsTrim. pose proof (trimStart_head s) as Hhead.
  destruct (trimStart s) as [|c t]; [reflexivity|].
  destruct (trimEnd_head c t Hhead) as [kept Hkept]. rewrite Hkept.
  cbn [trimStart]. rewrite Hhead. rewrite <- Hkept. apply trimEnd_idempotent.
Qed.

Lemma trimmedOrNull_trimmed (o : option string) (t : string) :
  trimmedOrNull o = Some t -> jsTrim t = t.
Proof.
  unfold trimmedOrNull. destruct (nonEmpty o) as [v|]; cbn; [|discriminate].
  intros [= <-]. apply jsTrim_idempotent.
Qed.

Lemma trimmedOrNull_keeps (o : option string) :
  (forall t, o = Some t -> jsTrim t = t) ->
  nonEmpty (trimmedOrNull o) = nonEmpty o.
Proof.
  intros Htrim. unfold trimmedOrNull. destruct o as [t|]; [|reflexivity].
  cbn [nonEmpty]. destruct (String.eqb t "") eqn:Ht; [reflexivity|].
  cbn [fmap option_fmap option_map nonEmpty].
  rewrite (Htrim t eq_refl), Ht. reflexivity.
Qed.

Lemma trimmedOrNull_submitted (value : string) :
  nonEmpty (trimmedOrNull (Some value)) = nonEmpty (Some (jsTrim value)).
Proof.
  unfold trimmedOrNull. cbn [nonEmpty].
  destruct (String.eqb value "") eqn:Hv; [|reflexivity].
  apply String.eqb_eq in Hv. subst value. reflexivity.
Qed.

Lemma getUserSettings_set (st : Stores) (userId : string) (new : Settings) :
  getUserSettings (setUserSettings st userId new) userId
  = {| expiry := trimmedOrNull (expiry new);
       compression := trimmedOrNull (compression new) |}.
Proof.
  unfold getUserSettings, setUserSettings, saveSettings. cbn [userSettings].
  rewrite lookup_insert_eq. reflexivity.
Qed.

(** X14: a setting submitted through the form is stored trimmed, and read
    back as such unless it is blank; submitting the expiry leaves the
    compression in effect as it was, and the other way round, as long as
    what is stored is trimmed, which stays so. *)
Theorem submit_keeps_other_setting (st : Stores) (userId value : string) :
  (forall t, expiry (getUserSettings st userId) = Some t -> jsTrim t = t) ->
  (forall t, compression (getUserSettings st userId) = Some t -> jsTrim t = t) ->
  let e := getUserSettings (submitExpiry st userId value) userId in
  let c := getUserSettings (submitCompression st userId value) userId in
  nonEmpty (expiry e) = nonEmpty (Some (jsTrim value))
  /\ nonEmpty (compression e) = nonEmpty (compression (getUserSettings st userId))
  /\ nonEmpty (compression c) = nonEmpty (Some (jsTrim value))
  /\ nonEmpty (expiry c) = nonEmpty (expiry (getUserSettings st userId))
  /\ (forall t,
        expiry e = Some t \/ compression e = Some t
        \/ expiry c = Some t \/ compression c = Some t ->
        jsTrim t = t).
Proof.
  intros Hexp Hcomp. cbv zeta.
  unfold submitExpiry, submitCompression.
  rewrite !getUserSettings_set. cbn [expiry compression].
  split; [apply trimmedOrNull_submitted|].
  split; [apply trimmedOrNull_keeps, Hcomp|].
  split; [apply trimmedOrNull_submitted|].
  split; [apply trimmedOrNull_keeps, Hexp|].
  intros t [H|[H|[H|H]]]; apply trimmedOrNull_trimmed in H; exact H.
Qed.

(** ** Properties of the paging *)

Lemma arraySlice_window {A : Type} (l : list A) (start stop : Z) :
  0 <= start <= stop ->
  arraySlice l start stop
  = take (Z.to_nat (stop - start)) (drop (Z.to_nat start) l).
Proof.
  intros Hle. unfold arraySlice, clampIndex.
  destruct (start <? 0) eqn:Hs; [apply Z.ltb_lt in Hs; lia|].
  destruct (stop <? 0) eqn:He; [apply Z.ltb_lt in He; lia|].
  destruct (decide (Z.of_nat (length l) <= start)) as [Hout|Hin].
  - rewrite !drop_ge by lia. rewrite !take_nil. reflexivity.
  - rewrite (Z.min_l start) by lia.
    destruct (decide (stop <= Z.of_nat (length l))) as [Hs2|Hs2].
    + rewrite Z.min_l by lia. reflexivity.
    + rewrite Z.min_r by lia.
      rewrite !take_ge; [reflexivity| |]; rewrite length_drop; lia.
Qed.

Lemma totalPages_bounds {A : Type} (uploads : list A) :
  pageSize * (totalPages uploads - 1) < Z.of_nat (length uploads)
  /\ Z.of_nat (length uploads) <= pageSize * totalPages uploads.
Proof.
  unfold totalPages, pageSize.
  pose proof (Z.div_mod (Z.of_nat (length uploads) + 5 - 1) 5 ltac:(lia)).
  pose proof (Z.mod_pos_bound (Z.of_nat (length uploads) + 5 - 1) 5 ltac:(lia)).
  lia.
Qed.

Lemma collectPress_range {A : Type} (owner : string) (uploads : list A)
    (page : Z) (i : Press) :
  0 <= page < totalPages uploads ->
  0 <= fst (collectPress owner uploads page i) < totalPages uploads.
Proof.
  intros Hp. unfold collectPress.
  destruct (negb _); cbn [fst]; [exact Hp|].
  destruct (String.eqb (customId i) "zip_prev" && (0 <? page)) eqn:Hprev.
  - apply andb_true_iff in Hprev as [_ Hlt]. apply Z.ltb_lt in Hlt.
    destruct (_ && (page - 1 <? _)) eqn:Hnext; [|lia].
    apply andb_true_iff in Hnext as [_ Hlt']. apply Z.ltb_lt in Hlt'. lia.
  - destruct (_ && (page <? _)) eqn:Hnext; [|lia].
    apply andb_true_iff in Hnext as [_ Hlt']. apply Z.ltb_lt in Hlt'. lia.
Qed.

Lemma collectPress_view {A : Type} (owner : string) (uploads : list A)
    (page : Z) (i : Press) (view : PageView A) :
  snd (collectPress owner uploads page i) = Some view ->
  view = renderPage uploads (fst (collectPress owner uploads page i)).
Proof.
  unfold collectPress. destruct (negb _); cbn [fst snd]; [discriminate|].
  intros [= <-]. reflexivity.
Qed.

Lemma renderPage_ok {A : Type} (uploads : list A) (page : Z) :
  0 <= page < totalPages uploads -> ViewOk uploads (renderPage uploads page).
Proof.
  intros Hp. pose proof (totalPages_bounds uploads) as [Hlow Hhigh].
  unfold ViewOk, renderPage. cbn [footerPage footerTotal shown].
  assert (Hshown : arraySlice uploads (page * pageSize) ((page + 1) * pageSize)
    = take 5 (drop (Z.to_nat (pageSize * (page + 1 - 1))) uploads)).
  { rewrite arraySlice_window by (unfold pageSize; lia).
    f_equal; [unfold pageSize; lia|]. f_equal. f_equal. lia. }
  rewrite Hshown. split; [lia|]. split; [reflexivity|]. split; [reflexivity|].
  rewrite length_take, length_drop. unfold pageSize in *. lia.
Qed.

Lemma collectAll_ok {A : Type} (owner : string) (uploads : list A)
    (presses : list Press) (page : Z) :
  0 <= page < totalPages uploads ->
  0 <= fst (collectAll owner uploads page presses) < totalPages uploads
  /\ Forall (ViewOk uploads) (snd (collectAll owner uploads page presses)).
Proof.
  revert page. induction presses as [|i presses IH]; intros page Hp;
    cbn [collectAll fst snd]; [split; [exact Hp | constructor]|].
  pose proof (collectPress_range owner uploads page i Hp) as Hstep.
  destruct (IH _ Hstep) as [Hlater Hviews]. split; [exact Hlater|].
  destruct (snd (collectPress owner uploads page i)) as [view|] eqn:Hview;
    [|exact Hviews].
  constructor; [|exact Hviews].
  rewrite (collectPress_view _ _ _ _ _ Hview). apply renderPage_ok, Hstep.
Qed.

(** X15: when there is an upload to list, whatever buttons are pressed and
    by whom, every view shown is one of the pages: its number lies between 1
    and the number of pages, and it lists the five uploads of that page, or
    the one to five that are left on the last page. *)
Theorem views_are_pages {A : Type} (owner : string) (uploads : list A)
    (presses : list Press) (view : PageView A) :
  uploads <> [] ->
  view ∈ paginateUploads owner uploads presses ->
  1 <= footerPage view <= footerTotal view
  /\ footerTotal view = totalPages uploads
  /\ shown view
     = take 5 (drop (Z.to_nat (pageSize * (footerPage view - 1))) uploads)
  /\ (1 <= length (shown view) <= 5)%nat.
Proof.
  intros Hne Hin.
  assert (Hfirst : 0 <= 0 < totalPages uploads).
  { pose proof (totalPages_bounds uploads) as [_ Hhigh].
    destruct uploads; [congruence|]. cbn [length] in Hhigh.
    unfold pageSize in Hhigh. lia. }
  unfold paginateUploads in Hin. apply elem_of_cons in Hin as [->|Hin].
  - apply (renderPage_ok uploads 0 Hfirst).
  - destruct (collectAll_ok owner uploads presses 0 Hfirst) as [_ Hall].
    rewrite Forall_forall in Hall. apply (Hall view Hin).
Qed.

Lemma collectAll_next {A : Type} (owner : string) (uploads : list A)
    (k : nat) (page : Z) :
  0 <= page -> page + Z.of_nat k = totalPages uploads - 1 ->
  fst (collectAll owner uploads page (replicate k (pressNext owner)))
  = totalPages uploads - 1
  /\ concat (shown <$> snd (collectAll owner uploads page
                              (replicate k (pressNext owner))))
     = drop (Z.to_nat (pageSize * (page + 1))) uploads.
Proof.
  pose proof (totalPages_bounds uploads) as [Hlow Hhigh].
  revert page. induction k as [|k IH]; intros page Hp Hk;
    cbn [replicate collectAll fst snd fmap list_fmap concat].
  - split; [lia|]. rewrite drop_ge; [reflexivity|]. unfold pageSize in *. lia.
  - assert (Hstep : collectPress owner uploads page (pressNext owner)
                    = (page + 1, Some (renderPage uploads (page + 1)))).
    { unfold collectPress, pressNext. cbn [presser customId].
      rewrite String.eqb_refl. cbn [negb].
      change (String.eqb "zip_next" "zip_prev") with false.
      change (String.eqb "zip_next" "zip_next") with true. cbn [andb].
      destruct (page <? totalPages uploads - 1) eqn:Hlt; [reflexivity|].
      apply Z.ltb_ge in Hlt. lia. }
    rewrite Hstep. cbn [fst snd].
    destruct (IH (page + 1)) as [Hlast Hrest]; [lia|lia|].
    split; [exact Hlast|].
    rewrite fmap_cons. cbn [concat]. rewrite Hrest.
    unfold renderPage. cbn [shown].
    rewrite arraySlice_window by (unfold pageSize; lia).
    replace (Z.to_nat (pageSize * (page + 1 + 1)))
      with (Z.to_nat (pageSize * (page + 1)) + 5)%nat by (unfold pageSize; lia).
    rewrite <- drop_drop.
    replace (Z.to_nat ((page + 1 + 1) * pageSize - (page + 1) * pageSize))
      with 5%nat by (unfold pageSize; lia).
    replace (Z.to_nat ((page + 1) * pageSize))
      with (Z.to_nat (pageSize * (page + 1))) by lia.
    apply take_drop.
Qed.

(** X16: the owner who presses the next button once for every page after the
    first is shown every upload exactly once and in order: the views, put
    one after the other, are the list of uploads; and the last view has the
    next button disabled. *)
Theorem next_shows_every_upload {A : Type} (owner : string) (uploads : list A) :
  uploads <> [] ->
  let views :=
    paginateUploads owner uploads
      (replicate (Z.to_nat (totalPages uploads - 1)) (pressNext owner)) in
  concat (shown <$> views) = uploads
  /\ (nextDisabled <$> last views) = Some true.
Proof.
  intros Hne. cbv zeta.
  pose proof (totalPages_bounds uploads) as [Hlow Hhigh].
  assert (Hpages : 1 <= totalPages uploads).
  { destruct uploads; [congruence|]. cbn [length] in Hhigh.
    unfold pageSize in Hhigh. lia. }
  set (k := Z.to_nat (totalPages uploads - 1)).
  destruct (collectAll_next owner uploads k 0) as [Hlast Hrest];
    [lia | unfold k; lia |].
  unfold paginateUploads. split.
  - rewrite fmap_cons. cbn [concat]. rewrite Hrest.
    unfold renderPage. cbn [shown].
    rewrite arraySlice_window by (unfold pageSize; lia).
    replace (Z.to_nat ((0 + 1) * pageSize - 0 * pageSize)) with 5%nat
      by (unfold pageSize; lia).
    replace (Z.to_nat (0 * pageSize)) with 0%nat by lia.
    replace (Z.to_nat (pageSize * (0 + 1))) with 5%nat by (unfold pageSize; lia).
    rewrite drop_0. apply take_drop.
  - assert (Hviews : forall (presses : list Press) (page : Z),
      last (renderPage uploads page
              :: snd (collectAll owner uploads page presses))
      = Some (renderPage uploads
                (fst (collectAll owner uploads page presses)))).
    { induction presses as [|i presses IH]; intros page;
        cbn [collectAll fst snd]; [reflexivity|].
      destruct (snd (collectPress owner uploads page i)) as [view|] eqn:Hview.
      - rewrite last_cons.
        rewrite (collectPress_view _ _ _ _ _ Hview), IH. reflexivity.
      - assert (Hsame : fst (collectPress owner uploads page i) = page).
        { unfold collectPress in *. destruct (negb _); [reflexivity|].
          discriminate. }
        rewrite Hsame. apply IH. }
    rewrite Hviews, Hlast. cbn [fmap option_fmap option_map renderPage nextDisabled].
    f_equal. apply Z.eqb_eq. lia.
Qed.

(** X17: a press by anyone but the owner changes neither the page nor what
    is shown: the views are those of the owner's presses alone. *)
Theorem other_users_do_not_navigate {A : Type} (owner : string)
    (uploads : list A) (presses : list Press) :
  paginateUploads owner uploads presses
  = paginateUploads owner uploads
      (filter (fun i => presser i = owner) presses).
Proof.
  unfold paginateUploads. f_equal.
  assert (Hall : forall page,
    collectAll owner uploads page presses
    = collectAll owner uploads page
        (filter (fun i => presser i = owner) presses)).
  { induction presses as [|i presses IH]; intros page; [reflexivity|].
    destruct (decide (presser i = owner)) as [Heq|Hne].
    - rewrite filter_cons_True by exact Heq. cbn [collectAll].
      rewrite !IH. reflexivity.
    - rewrite filter_cons_False by exact Hne. cbn [collectAll].
      unfold collectPress. apply String.eqb_neq in Hne. rewrite Hne.
      cbn [negb fst snd]. rewrite <- IH.
      destruct (collectAll owner uploads page presses); reflexivity. }
  rewrite Hall. reflexivity.
Qed.

(** X18: for a limit of at least one, [trimString] gives a text of at most
    that length: the text itself when it is short enough, and otherwise its
    first [maxLength - 1] units followed by the ellipsis. *)
Theorem trimString_fits {A : Type} (ellipsis : A) (str : list A)
    (maxLength : Z) :
  1 <= maxLength ->
  Z.of_nat (length (trimString ellipsis str maxLength)) <= maxLength
  /\ trimString ellipsis str maxLength
     = if Z.of_nat (length str) <=? maxLength then str
       else take (Z.to_nat (maxLength - 1)) str ++ [ellipsis].
Proof.
  intros Hmax. unfold trimString.
  destruct str as [|c str].
  { cbn [length]. split; [lia|].
    destruct (Z.of_nat 0 <=? maxLength) eqn:Hle; [reflexivity|].
    apply Z.leb_gt in Hle. lia. }
  set (l := c :: str).
  destruct (maxLength <? Z.of_nat (length l)) eqn:Hlong.
  - apply Z.ltb_lt in Hlong.
    rewrite arraySlice_window by lia.
    change (Z.to_nat 0) with 0%nat. rewrite drop_0, Z.sub_0_r.
    destruct (Z.of_nat (length l) <=? maxLength) eqn:Hle;
      [apply Z.leb_le in Hle; lia|].
    split; [|reflexivity].
    rewrite length_app, length_take. cbn [length]. lia.
  - apply Z.ltb_ge in Hlong.
    destruct (Z.of_nat (length l) <=? maxLength) eqn:Hle;
      [|apply Z.leb_gt in Hle; lia].
    split; [lia | reflexivity].
Qed.

(** ** Properties of the listing *)

Lemma fetchPagesFrom_all (token : string) (items : list Json) (fuel : nat)
    (page : Z) (srv : ServerState) :
  ListsInPages token items ->
  1 <= page ->
  50 * (page - 1) <= Z.of_nat (length items) + 49 ->
  Z.of_nat (length items) - 50 * (page - 1) + 50 < 50 * Z.of_nat fuel ->
  snd (fetchPagesFrom fuel token page
         (take (Z.to_nat (50 * (page - 1))) items) srv)
  = ListGave items.
Proof.
  intros Hserver. revert page srv.
  induction fuel as [|fuel IH]; intros page srv Hpage Hlow Hfuel; [lia|].
  cbn [fetchPagesFrom]. unfold ziplineFetchUserUploads.
  destruct (Hserver srv page Hpage)
    as (srv' & status & resp & -> & Hok & Hlisted & Hpages).
  cbn [fst snd]. rewrite Hok.
  destruct resp as [|b|k|s|arr|fields]; try (cbn in Hlisted; discriminate).
  change (prop (JObj fields) "page") with (lookupField "page" fields) in *.
  rewrite Hlisted. cbn [truthy negb prop].
  change (String.eqb "length" "length") with true. cbn match.
  rewrite arraySlice_window by lia.
  set (listed := take _ (drop _ items)).
  assert (Hlen : Z.of_nat (length listed)
                 = Z.max 0 (Z.min 50 (Z.of_nat (length items) - 50 * (page - 1)))).
  { unfold listed. rewrite length_take, length_drop. lia. }
  assert (Hacc : take (Z.to_nat (50 * (page - 1))) items ++ listed
                 = take (Z.to_nat (50 * page)) items).
  { unfold listed.
    replace (Z.to_nat (page * 50 - (page - 1) * 50)) with 50%nat by lia.
    replace (Z.to_nat ((page - 1) * 50))
      with (Z.to_nat (50 * (page - 1))) by lia.
    replace (Z.to_nat (50 * page))
      with (Z.to_nat (50 * (page - 1)) + 50)%nat by lia.
    apply take_take_drop. }
  pose proof (Z.div_mod (Z.of_nat (length items) + 49) 50 ltac:(lia)) as Hdiv.
  pose proof (Z.mod_pos_bound (Z.of_nat (length items) + 49) 50 ltac:(lia))
    as Hmod.
  destruct (length listed) as [|m] eqn:Hm.
  - cbn [Z.of_nat snd]. f_equal. rewrite take_ge; [reflexivity|]. lia.
  - destruct (Z.of_nat (S m)) as [|p|p] eqn:Hz; [lia| |lia].
    cbn [spreadOf]. rewrite Hacc.
    assert (Hnext : snd (fetchPagesFrom fuel token (page + 1)
                           (take (Z.to_nat (50 * page)) items) srv')
                    = ListGave items).
    { replace (50 * page) with (50 * (page + 1 - 1)) by lia.
      apply IH; lia. }
    destruct Hpages as [Hp|Hp]; cbn [prop] in Hp; rewrite Hp;
      cbn [pageReached]; [exact Hnext|].
    destruct ((Z.of_nat (length items) + 49) / 50 <=? page) eqn:Hlast;
      [|exact Hnext].
    apply Z.leb_le in Hlast. cbn [snd]. f_equal. apply take_ge. lia.
Qed.

(** X19: from a server that lists a user's uploads fifty to a page, with or
    without the number of pages in its answers,
    [ziplineFetchAllUserUploads] returns all the uploads, each once and in
    the order of the pages. *)
Theorem all_pages_fetched (token : string) (items : list Json) (fuel : nat)
    (srv : ServerState) :
  ListsInPages token items ->
  Z.of_nat (length items) + 50 < 50 * Z.of_nat fuel ->
  snd (ziplineFetchAllUserUploads fuel token srv) = ListGave items.
Proof.
  intros Hserver Hfuel. unfold ziplineFetchAllUserUploads.
  change (@nil Json) with (take (Z.to_nat (50 * (1 - 1))) items).
  apply fetchPagesFrom_all; auto; lia.
Qed.

(** ** Properties of the upload entry points *)

Lemma removeQuietly_other (n : nat) (tmpPath path : string)
    (w : World ServerState) :
  path <> tmpPath -> files (removeQuietly n tmpPath w) !! path = files w !! path.
Proof.
  intros Hne. unfold removeQuietly, existsSync, unlinkSync.
  destruct (files w !! tmpPath) as [data|] eqn:Htmp.
  - rewrite bool_decide_eq_true_2 by eauto.
    destruct (tmpUnlinkThrows n); [reflexivity|].
    cbn [files record]. apply lookup_delete_ne. congruence.
  - rewrite bool_decide_eq_false_2 by (intros [? ?]; congruence). reflexivity.
Qed.

Lemma removeQuietly_gone (n : nat) (tmpPath : string) (w : World ServerState) :
  tmpUnlinkThrows n = false -> files (removeQuietly n tmpPath w) !! tmpPath = None.
Proof.
  intros Hok. unfold removeQuietly, existsSync, unlinkSync.
  destruct (files w !! tmpPath) as [data|] eqn:Htmp.
  - rewrite bool_decide_eq_true_2 by eauto. rewrite Hok.
    cbn [files record]. apply lookup_delete_eq.
  - rewrite bool_decide_eq_false_2 by (intros [? ?]; congruence). exact Htmp.
Qed.

Lemma singleShot_cleans (tmpPrefix uploadUrl token filename' : string)
    (deletesAt compression' : option string) (dl : Response)
    (w : World ServerState) :
  CleansUp (tmpPathOf tmpPrefix filename' w) w
    (singleShot tmpPrefix uploadUrl token filename' deletesAt compression' dl w).
Proof.
  unfold CleansUp, singleShot. intros posted ended w'.
  set (tmpPath := tmpPathOf tmpPrefix filename' w).
  unfold writeFileSync, record.
  destruct (sinkResult (staged w) (bufferConcat (resBody dl)))
    as [|[partial|]]; cbn [files server staged log].
  - destruct (resBodyFails dl).
    { intros [= <- <- <-]. split; [|discriminate].
      intros path Hne. cbn [files]. apply lookup_insert_ne. congruence. }
    destruct (snd (serveUpload _ _)) as [|status parsed].
    { intros [= <- <- <-]. split; [|discriminate].
      intros path Hne. cbn [files]. apply lookup_insert_ne. congruence. }
    destruct (statusOk status); intros [= <- <- <-]; split.
    + intros path Hne. rewrite removeQuietly_other by exact Hne.
      cbn [files]. apply lookup_insert_ne. congruence.
    + intros _ Hok. apply removeQuietly_gone, Hok.
    + intros path Hne. rewrite removeQuietly_other by exact Hne.
      cbn [files]. apply lookup_insert_ne. congruence.
    + intros _ Hok. apply removeQuietly_gone, Hok.
  - intros [= <- <- <-]. split; [|discriminate].
    intros path Hne. cbn [files]. apply lookup_insert_ne. congruence.
  - intros [= <- <- <-]. split; [|discriminate].
    intros path Hne. reflexivity.
Qed.

Lemma direct_cleans (tmpPath : string) (w : World ServerState)
    (posted : option UploadRequest) (e : UploadError) :
  answered (Raised e) = false ->
  CleansUp tmpPath w (Direct posted (Raised e) w).
Proof.
  intros Hno posted' ended w' [= <- <- <-].
  split; [reflexivity|]. rewrite Hno. discriminate.
Qed.

(** X20: a call of either entry point that is not relayed in chunks leaves
    every path but that of its temporary file as it was; and when the POST
    was answered and the temporary file can be removed, that file is gone
    when the call ends. *)
Theorem uploads_leave_no_file (st : Stores)
    (token fileUrl' filename' userId : string) (onProgress' : bool)
    (headRes dlRes : Fetched) (again : Download) (fuel : nat)
    (w : World ServerState) :
  CleansUp (tmpPathOf "tmp_" filename' w) w
    (ziplineUploadFromUrl st token fileUrl' filename' userId onProgress'
       headRes dlRes again fuel w)
  /\ CleansUp (tmpPathOf "tmp_anon_" filename' w) w
       (ziplineAnonUploadFromUrl fileUrl' filename' onProgress' headRes dlRes
          again fuel w).
Proof.
  unfold ziplineUploadFromUrl, ziplineAnonUploadFromUrl. split.
  - destruct headRes as [|head]; [apply direct_cleans; reflexivity|].
    destruct dlRes as [|dl]; [apply direct_cleans; reflexivity|].
    destruct (negb (resOk dl)); [apply direct_cleans; reflexivity|].
    destruct (goesChunked _).
    + intros posted ended w' H. discriminate H.
    + apply singleShot_cleans.
  - destruct (nonEmpty ANON_ZIPLINE_BASE_URL) as [base|];
      [|apply direct_cleans; reflexivity].
    destruct (nonEmpty ANON_ZIPLINE_TOKEN) as [guestToken|];
      [|apply direct_cleans; reflexivity].
    destruct headRes as [|head]; [apply direct_cleans; reflexivity|].
    destruct dlRes as [|dl]; [apply direct_cleans; reflexivity|].
    destruct (negb (resOk dl)); [apply direct_cleans; reflexivity|].
    destruct (goesChunked _).
    + intros posted ended w' H. discriminate H.
    + apply singleShot_cleans.
Qed.

(** X21: a call that ends because the POST to [/api/upload] could not be
    made has thrown before it removes its temporary file: the file stays on
    the disk with the whole download in it, which is also what the POST
    carried. *)
Theorem unreachable_post_leaves_download (st : Stores)
    (token fileUrl' filename' userId : string) (onProgress' : bool)
    (headRes dlRes : Fetched) (again : Download) (fuel : nat)
    (w : World ServerState) (req : UploadRequest) (w' : World ServerState) :
  ziplineUploadFromUrl st token fileUrl' filename' userId onProgress'
    headRes dlRes again fuel w
  = Direct (Some req) (Raised PostUnreachable) w' ->
  exists dl,
    dlRes = Responded dl
    /\ uBody req = bufferConcat (resBody dl)
    /\ files w'
       = <[tmpPathOf "tmp_" filename' w := bufferConcat (resBody dl)]> (files w).
Proof.
  unfold ziplineUploadFromUrl.
  destruct headRes as [|head]; [discriminate|].
  destruct dlRes as [|dl]; [discriminate|].
  destruct (negb (resOk dl)); [discriminate|].
  destruct (goesChunked _); [discriminate|].
  unfold singleShot, writeFileSync, record.
  destruct (sinkResult (staged w) (bufferConcat (resBody dl)))
    as [|[partial|]]; cbn [files server staged log]; try discriminate.
  destruct (resBodyFails dl); [discriminate|].
  rewrite lookup_insert_eq. cbn [default].
  destruct (snd (serveUpload _ _)) as [|status parsed].
  - intros [= <- <-]. exists dl. repeat split.
  - destruct (statusOk status); discriminate.
Qed.

(** X22: a download whose length is not known (neither the HEAD nor the GET
    gives a content length that reads as a number other than 0) is never
    sent in chunks, whatever its size and the threshold.  When the download
    and the temporary file do not fail, the whole body goes into one POST,
    under the name given. *)
Theorem unknown_length_single_post (st : Stores)
    (token fileUrl' filename' userId : string) (onProgress' : bool)
    (head dl : Response) (again : Download) (fuel : nat)
    (w : World ServerState) :
  lengthHeader (resContentLength head) = 0 ->
  lengthHeader (resContentLength dl) = 0 ->
  exists posted ended w',
    ziplineUploadFromUrl st token fileUrl' filename' userId onProgress'
      (Responded head) (Responded dl) again fuel w
    = Direct posted ended w'
    /\ (forall req,
          posted = Some req ->
          uBody req = bufferConcat (resBody dl)
          /\ uFilename req = filename'
          /\ uUrl req = ZIPLINE_BASE_URL +:+ "/api/upload")
    /\ (resOk dl = true ->
        resBodyFails dl = false ->
        sinkResult (staged w) (bufferConcat (resBody dl)) = Written ->
        exists req, posted = Some req).
Proof.
  intros Hhead Hget. unfold ziplineUploadFromUrl.
  destruct (resOk dl); cbn [negb].
  2:{ eexists _, _, _. split; [reflexivity|].
      split; [intros req H; discriminate H | discriminate]. }
  unfold declaredLength, goesChunked.
  rewrite Hhead, Hget. cbn [Z.eqb Z.ltb Z.compare].
  rewrite andb_false_r. unfold singleShot, writeFileSync, record.
  destruct (sinkResult (staged w) (bufferConcat (resBody dl)))
    as [|[partial|]]; cbn [files server staged log].
  2,3: eexists _, _, _; (split; [reflexivity|]);
    (split; [intros req H; discriminate H | discriminate]).
  destruct (resBodyFails dl).
  { eexists _, _, _. split; [reflexivity|].
    split; [intros req H; discriminate H | discriminate]. }
  rewrite lookup_insert_eq. cbn [default].
  destruct (snd (serveUpload _ _)) as [|status parsed];
    [|destruct (statusOk status)];
    eexists _, _, _; (split; [reflexivity|]);
    (split; [intros req [= <-]; repeat split | eauto]).
Qed.

Lemma carried_chunks (args : Args) (again : Download) (fuel : nat)
    (disk : gmap string Buffer) (srv : ServerState) (n : nat) :
  Forall
    (fun c =>
       cAuthorization c = authToken args
       /\ cDeletesAt c = nonEmpty (expiry (settings args))
       /\ cCompression c = nonEmpty (compression (settings args)))
    (carried
       (ViaChunks (ziplinePartialUpload CHUNK_SIZE tmpStamp serve jsPositive
                     stageWrite unlinkThrows args fuel again
                     (startWorld disk srv n)))).
Proof.
  cbn [carried].
  assert (Hread : forall (stream : list Buffer) (rejects : bool),
    Forall
      (fun c =>
         cAuthorization c = authToken args
         /\ cDeletesAt c = nonEmpty (expiry (settings args))
         /\ cCompression c = nonEmpty (compression (settings args)))
      ((fun req =>
          {| cAuthorization := hAuthorization req;
             cDeletesAt := hDeletesAt req;
             cCompression := hCompression req |})
       <$> requests
             (outLog
                (upload CHUNK_SIZE tmpStamp serve jsPositive stageWrite
                   unlinkThrows args fuel
                   (if rejects then DownloadBroken stream
                    else DownloadBody stream) disk srv n)))).
  { intros stream rejects.
    rewrite (read_run CHUNK_SIZE tmpStamp ServerState serve jsPositive
               stageWrite unlinkThrows args fuel stream rejects disk srv n).
    cbv zeta.
    pose proof (script_requests_built tmpStamp ServerState serve jsPositive
                  stageWrite unlinkThrows args
                  (readPlan CHUNK_SIZE fuel stream rejects initialBuffers)
                  initialSession srv n) as Hbuilt.
    fold (readScript CHUNK_SIZE tmpStamp ServerState serve jsPositive
            stageWrite unlinkThrows args fuel stream rejects srv n) in Hbuilt.
    assert (Hall : Forall
      (fun c =>
         cAuthorization c = authToken args
         /\ cDeletesAt c = nonEmpty (expiry (settings args))
         /\ cCompression c = nonEmpty (compression (settings args)))
      ((fun req =>
          {| cAuthorization := hAuthorization req;
             cDeletesAt := hDeletesAt req;
             cCompression := hCompression req |})
         <$> requests
               (events (readScript CHUNK_SIZE tmpStamp ServerState serve
                          jsPositive stageWrite unlinkThrows args fuel stream
                          rejects srv n)))).
    { apply Forall_fmap. eapply Forall_impl; [exact Hbuilt|].
      intros req (s' & sending & flag & ->). repeat split. }
    destruct (ending _); cbn [outLog outWorld log]; auto. }
  destruct again as [| |stream|stream].
  - constructor.
  - constructor.
  - apply (Hread stream false).
  - apply (Hread stream true).
Qed.

(** X23: the expiry a user submits in the settings form is, trimmed, the
    [x-zipline-deletes-at] of every request of that user's next upload,
    whether it goes in one POST or in chunks; a blank expiry sends no such
    header.  Every request carries the user's token. *)
Theorem submitted_expiry_reaches_upload (st : Stores)
    (token fileUrl' filename' userId value : string) (onProgress' : bool)
    (headRes dlRes : Fetched) (again : Download) (fuel : nat)
    (disk : gmap string Buffer) (srv : ServerState) (n : nat) :
  Forall
    (fun c =>
       cAuthorization c = token
       /\ cDeletesAt c = nonEmpty (Some (jsTrim value)))
    (carried
       (ziplineUploadFromUrl (submitExpiry st userId value) token fileUrl'
          filename' userId onProgress' headRes dlRes again fuel
          (startWorld disk srv n))).
Proof.
  assert (Hstored : nonEmpty (expiry (getUserSettings
                                        (submitExpiry st userId value) userId))
                    = nonEmpty (Some (jsTrim value))).
  { unfold getUserSettings, submitExpiry, setUserSettings, saveSettings.
    cbn [userSettings]. rewrite lookup_insert_eq. cbn [default expiry].
    unfold trimmedOrNull. cbn [nonEmpty].
    destruct (String.eqb value "") eqn:Hv; [|reflexivity].
    apply String.eqb_eq in Hv. subst value. reflexivity. }
  unfold ziplineUploadFromUrl.
  destruct headRes as [|head]; [constructor|].
  destruct dlRes as [|dl]; [constructor|].
  destruct (negb (resOk dl)); [constructor|].
  destruct (goesChunked _).
  - eapply Forall_impl; [apply carried_chunks|].
    cbn [authToken settings]. intros c (Hauth & Hexp & _).
    split; [exact Hauth|]. rewrite Hexp. exact Hstored.
  - unfold singleShot.
    destruct (writeFileSync _ _ _ _) as [[err|] w1]; [constructor|].
    destruct (resBodyFails dl); [constructor|].
    destruct (snd (serveUpload _ _)) as [|status parsed];
      [|destruct (statusOk status)];
      cbn [carried]; repeat constructor; exact Hstored.
Qed.

(** X24: a guest upload is refused before anything is fetched when the guest
    instance or its token is not configured; otherwise every request of it,
    the one POST or each chunk, carries the guest token and the configured
    guest expiry, and never a compression. *)
Theorem guest_uploads_carry_guest_settings (fileUrl' filename' : string)
    (onProgress' : bool) (headRes dlRes : Fetched) (again : Download)
    (fuel : nat) (disk : gmap string Buffer) (srv : ServerState) (n : nat) :
  let r := ziplineAnonUploadFromUrl fileUrl' filename' onProgress'
             headRes dlRes again fuel (startWorld disk srv n) in
  (nonEmpty ANON_ZIPLINE_BASE_URL = None \/ nonEmpty ANON_ZIPLINE_TOKEN = None ->
   r = Direct None (Raised GuestNotConfigured) (startWorld disk srv n))
  /\ Forall
       (fun c =>
          Some (cAuthorization c) = ANON_ZIPLINE_TOKEN
          /\ cDeletesAt c = nonEmpty ANON_UPLOAD_EXPIRY
          /\ cCompression c = None)
       (carried r).
Proof.
  cbv zeta. unfold ziplineAnonUploadFromUrl.
  destruct (nonEmpty ANON_ZIPLINE_BASE_URL) as [base|] eqn:Hbase;
    [|split; [reflexivity | constructor]].
  destruct (nonEmpty ANON_ZIPLINE_TOKEN) as [guestToken|] eqn:Htoken;
    [|split; [reflexivity | constructor]].
  split; [intros [H|H]; discriminate|].
  assert (Hsame : Some guestToken = ANON_ZIPLINE_TOKEN).
  { destruct ANON_ZIPLINE_TOKEN as [t|]; cbn [nonEmpty] in Htoken;
      [|discriminate].
    destruct (String.eqb t ""); congruence. }
  destruct headRes as [|head]; [constructor|].
  destruct dlRes as [|dl]; [constructor|].
  destruct (negb (resOk dl)); [constructor|].
  destruct (goesChunked _).
  - eapply Forall_impl; [apply carried_chunks|].
    cbn [authToken settings expiry compression]. intros c (Hauth & Hexp & Hcomp).
    rewrite Hauth, Hexp, Hcomp. split; [exact Hsame|]. split; [|reflexivity].
    destruct ANON_UPLOAD_EXPIRY as [t|]; cbn [nonEmpty]; [|reflexivity].
    destruct (String.eqb t "") eqn:Ht; cbn [nonEmpty]; rewrite ?Ht; reflexivity.
  - unfold singleShot.
    destruct (writeFileSync _ _ _ _) as [[err|] w1]; [constructor|].
    destruct (resBodyFails dl); [constructor|].
    destruct (snd (serveUpload _ _)) as [|status parsed];
      [|destruct (statusOk status)];
      cbn [carried]; repeat constructor; exact Hsame.
Qed.

End Callers.

Arguments ziplineUploadFromUrl CHUNK_THRESHOLD CHUNK_SIZE tmpStamp nowStamp
  {ServerState} serve serveUpload jsPositive stageWrite unlinkThrows pathJoin
  sinkResult tmpUnlinkThrows ZIPLINE_BASE_URL st token fileUrl' filename'
  userId onProgress' headRes dlRes again fuel w.
Arguments ziplineAnonUploadFromUrl CHUNK_THRESHOLD CHUNK_SIZE tmpStamp nowStamp
  {ServerState} serve serveUpload jsPositive stageWrite unlinkThrows pathJoin
  sinkResult tmpUnlinkThrows ANON_ZIPLINE_BASE_URL ANON_ZIPLINE_TOKEN
  ANON_UPLOAD_EXPIRY fileUrl' filename' onProgress' headRes dlRes again fuel w.
Arguments ziplineFetchAllUserUploads {ServerState} serveList fuel token srv.
Arguments Direct {ServerState} posted ended w.
Arguments tmpPathOf nowStamp {ServerState} pathJoin tmpPrefix filename w.

(** ** The further properties at concrete stores, lists and uploads *)

Lemma demoStores_ids (v : string) (a : Z) :
  userIds demoStores !! v = Some a -> (v = "1" /\ a = 3) \/ (v = "2" /\ a = 7).
Proof.
  cbn [demoStores loadStores userIds]. intros Hv.
  apply lookup_insert_Some in Hv as [[<- <-]|[_ Hv]]; [auto|].
  apply lookup_insert_Some in Hv as [[<- <-]|[_ Hv]]; [auto|].
  rewrite lookup_empty in Hv. discriminate.
Qed.

Lemma demoStores_distinct : DistinctIds demoStores.
Proof.
  intros u v a Hu Hv.
  apply getBotUserId_own in Hu as [Hu _]. apply getBotUserId_own in Hv as [Hv _].
  destruct (demoStores_ids _ _ Hu) as [[-> ->]|[-> ->]];
    destruct (demoStores_ids _ _ Hv) as [[-> ?]|[-> ?]];
    try reflexivity; lia.
Qed.

Lemma token_round_trip_witness :
  getUserToken (setUserToken demoStores "1" "abc") "1" = Own "abc"
  /\ getUserToken (deleteUserToken demoStores "1") "1" = Missing
  /\ getUserToken (setUserToken demoStores "1" "abc") "2"
     = getUserToken demoStores "2"
  /\ getUserToken (deleteUserToken demoStores "1") "2"
     = getUserToken demoStores "2".
Proof.
  apply (token_round_trip demoStores "1" "2" "abc");
    [reflexivity | discriminate].
Defined.

(** User 9 has no id yet and gets one above the ids 3 and 7. *)
Lemma fresh_id_above_all_witness :
  exists id,
    fst (ensureAssignBotUserId true demoStores "9") = IdGiven id
    /\ (forall v a, userIds demoStores !! v = Some a -> a < id)
    /\ userIds (snd (ensureAssignBotUserId true demoStores "9")) !! "9"
       = Some id
    /\ (forall v,
          v <> "9" ->
          userIds (snd (ensureAssignBotUserId true demoStores "9")) !! v
          = userIds demoStores !! v).
Proof.
  apply (fresh_id_above_all true demoStores "9").
  - vm_compute. reflexivity.
  - intros v a Hv.
    destruct (demoStores_ids _ _ Hv) as [[_ ->]|[_ ->]]; vm_compute;
      reflexivity.
Defined.

Lemma ids_stay_distinct_witness :
  DistinctIds
    (foldl applyCall demoStores
       [CallEnsureId true "9"; CallSetToken "1" "abc"; CallEnsureId false "8";
        CallDeleteToken "1"; CallEnsureId true "1"]).
Proof.
  apply (ids_stay_distinct demoStores).
  - vm_compute. reflexivity.
  - intros v a Hv.
    destruct (demoStores_ids _ _ Hv) as [[_ ->]|[_ ->]]; vm_compute;
      reflexivity.
  - exact demoStores_distinct.
Defined.

Lemma assigned_id_stable_witness :
  exists id,
    1 <= id
    /\ (true = true ->
        fst (ensureAssignBotUserId true demoStores "9") = IdGiven id)
    /\ getBotUserId (snd (ensureAssignBotUserId true demoStores "9")) "9"
       = Own id
    /\ ensureAssignBotUserId false
         (snd (ensureAssignBotUserId true demoStores "9")) "9"
       = (IdGiven id, snd (ensureAssignBotUserId true demoStores "9")).
Proof.
  apply (assigned_id_stable true false demoStores "9"); [reflexivity|].
  intros v a Hv.
  destruct (demoStores_ids _ _ Hv) as [[_ ->]|[_ ->]]; split; vm_compute;
    try reflexivity; discriminate.
Defined.

(** Users 1 and 5 have tokens when the module is loaded: user 5 gets an id,
    and user 1 keeps the id 3. *)
Lemma existing_users_get_ids_witness :
  ((forall uid, uid ∈ ["1"; "5"] -> (fun _ : string => true) uid = true) ->
   forall uid,
     uid ∈ ["1"; "5"] ->
     inheritedName uid = false ->
     exists id,
       getBotUserId
         (assignExistingUsers (fun _ => true) ["1"; "5"] demoStores) uid
       = Own id
       /\ 1 <= id)
  /\ (forall v a,
        getBotUserId demoStores v = Own a ->
        getBotUserId
          (assignExistingUsers (fun _ => true) ["1"; "5"] demoStores) v
        = Own a).
Proof.
  apply (existing_users_get_ids (fun _ => true) ["1"; "5"] demoStores).
  - vm_compute. reflexivity.
  - intros v a Hv.
    destruct (demoStores_ids _ _ Hv) as [[_ ->]|[_ ->]]; split; vm_compute;
      try reflexivity; discriminate.
Defined.

Lemma content_length_read_witness :
  lengthHeader (Some (decimal 4096 +:+ " bytes")) = 4096.
Proof.
  apply (content_length_read 4096 " bytes").
  - vm_compute. discriminate.
  - vm_compute. reflexivity.
Defined.

(** User 1 has the expiry [1d] and the compression [80]: a new expiry
    leaves the compression, and a new compression the expiry. *)
Lemma submit_keeps_other_setting_witness :
  let e := getUserSettings (submitExpiry demoStores "1" " 7d ") "1" in
  let c := getUserSettings (submitCompression demoStores "1" " 7d ") "1" in
  nonEmpty (expiry e) = nonEmpty (Some (jsTrim " 7d "))
  /\ nonEmpty (compression e)
     = nonEmpty (compression (getUserSettings demoStores "1"))
  /\ nonEmpty (compression c) = nonEmpty (Some (jsTrim " 7d "))
  /\ nonEmpty (expiry c) = nonEmpty (expiry (getUserSettings demoStores "1"))
  /\ (forall t,
        expiry e = Some t \/ compression e = Some t
        \/ expiry c = Some t \/ compression c = Some t ->
        jsTrim t = t).
Proof.
  apply (submit_keeps_other_setting demoStores "1" " 7d ").
  - intros t Ht. vm_compute in Ht. injection Ht as <-. reflexivity.
  - intros t Ht. vm_compute in Ht. injection Ht as <-. reflexivity.
Defined.

Lemma views_are_pages_witness :
  let view := renderPage sevenUploads 1 in
  1 <= footerPage view <= footerTotal view
  /\ footerTotal view = totalPages sevenUploads
  /\ shown view
     = take 5 (drop (Z.to_nat (pageSize * (footerPage view - 1))) sevenUploads)
  /\ (1 <= length (shown view) <= 5)%nat.
Proof.
  intros view.
  apply (views_are_pages "owner" sevenUploads
           [pressNext "guest"; pressNext "owner"] view).
  - discriminate.
  - vm_compute. apply list_elem_of_further, list_elem_of_here.
Defined.

Lemma next_shows_every_upload_witness :
  concat
    (shown <$> paginateUploads "owner" sevenUploads
                 (replicate (Z.to_nat (totalPages sevenUploads - 1))
                    (pressNext "owner")))
  = sevenUploads
  /\ (nextDisabled <$> last
        (paginateUploads "owner" sevenUploads
           (replicate (Z.to_nat (totalPages sevenUploads - 1))
              (pressNext "owner"))))
     = Some true.
Proof.
  apply (next_shows_every_upload "owner" sevenUploads). discriminate.
Defined.

Lemma trimString_fits_witness :
  Z.of_nat (length (trimString 8230 sevenUploads 4)) <= 4
  /\ trimString 8230 sevenUploads 4 = [1; 2; 3; 8230].
Proof.
  apply (trimString_fits 8230 sevenUploads 4). lia.
Defined.

Lemma all_pages_fetched_witness :
  snd (ziplineFetchAllUserUploads (listingOf (replicate 120 JNull)) 4 "token"
         0%nat)
  = ListGave (replicate 120 JNull).
Proof.
  apply (all_pages_fetched nat (listingOf (replicate 120 JNull)) "token"
           (replicate 120 JNull) 4 0%nat).
  - intros srv page Hpage. eexists _, _, _.
    split; [reflexivity|]. split; [reflexivity|].
    split; [reflexivity | right; reflexivity].
  - vm_compute. reflexivity.
Defined.

(** A small file goes in one POST; the server answers, and the temporary
    file is gone afterwards. *)
Lemma uploads_leave_no_file_witness :
  exists req resp w',
    ziplineUploadFromUrl 4 2 demoStamp demoStamp acceptAll acceptUpload
      notAsked writesAll unlinksAll plainJoin writesAll removesAll
      "https://zip.example" demoStores "token" "https://cdn.example/a.bin"
      "a.bin" "1" true (Responded (smallFile (Some "3")))
      (Responded (smallFile None)) (DownloadBody [blob 3]) 7
      (startWorld ∅ 0%nat 0%nat)
    = Direct (Some req) (Gave resp) w'
    /\ files w' !! "tmp_t_a.bin" = None.
Proof.
  do 3 eexists.
  match goal with
  | |- ?run = Direct ?posted ?ended ?w' /\ _ =>
      assert (Hrun : run = Direct posted ended w') by (vm_compute; reflexivity)
  end.
  split; [exact Hrun|].
  apply (proj1 (uploads_leave_no_file 4 2 demoStamp demoStamp nat acceptAll
                  acceptUpload notAsked writesAll unlinksAll plainJoin
                  writesAll removesAll "https://zip.example"
                  (Some "https://guest.example") (Some "guest") None
                  demoStores "token" "https://cdn.example/a.bin" "a.bin" "1"
                  true (Responded (smallFile (Some "3")))
                  (Responded (smallFile None)) (DownloadBody [blob 3]) 7
                  (startWorld ∅ 0%nat 0%nat)) _ _ _ Hrun);
    reflexivity.
Defined.

(** The server of the POST cannot be reached: the temporary file stays. *)
Lemma unreachable_post_leaves_download_witness :
  exists req w' dl,
    ziplineUploadFromUrl 4 2 demoStamp demoStamp acceptAll dropUpload
      notAsked writesAll unlinksAll plainJoin writesAll removesAll
      "https://zip.example" demoStores "token" "https://cdn.example/a.bin"
      "a.bin" "1" true (Responded (smallFile (Some "3")))
      (Responded (smallFile (Some "3"))) (DownloadBody [blob 3]) 7
      (startWorld ∅ 0%nat 0%nat)
    = Direct (Some req) (Raised PostUnreachable) w'
    /\ Responded (smallFile (Some "3")) = Responded dl
    /\ uBody req = bufferConcat (resBody dl)
    /\ files w'
       = <[tmpPathOf demoStamp plainJoin "tmp_" "a.bin"
             (startWorld ∅ 0%nat 0%nat)
           := bufferConcat (resBody dl)]> ∅.
Proof.
  do 2 eexists.
  match goal with
  | |- exists dl, ?run = Direct ?posted ?ended ?w' /\ _ =>
      assert (Hrun : run = Direct posted ended w') by (vm_compute; reflexivity)
  end.
  destruct (unreachable_post_leaves_download 4 2 demoStamp demoStamp nat
              acceptAll dropUpload notAsked writesAll unlinksAll plainJoin
              writesAll removesAll "https://zip.example" demoStores "token"
              "https://cdn.example/a.bin" "a.bin" "1" true
              (Responded (smallFile (Some "3")))
              (Responded (smallFile (Some "3"))) (DownloadBody [blob 3]) 7
              (startWorld ∅ 0%nat 0%nat) _ _ Hrun)
    as (dl & Hdl & Hbody & Hfiles).
  exists dl. auto.
Defined.

(** No content length that reads as a number: one POST, although the
    threshold for chunks is 0. *)
Lemma unknown_length_single_post_witness :
  exists posted ended w',
    ziplineUploadFromUrl 0 2 demoStamp demoStamp acceptAll acceptUpload
      notAsked writesAll unlinksAll plainJoin writesAll removesAll
      "https://zip.example" demoStores "token" "https://cdn.example/a.bin"
      "a.bin" "1" true (Responded (smallFile None))
      (Responded (smallFile (Some "unknown"))) (DownloadBody [blob 3]) 7
      (startWorld ∅ 0%nat 0%nat)
    = Direct posted ended w'
    /\ (forall req,
          posted = Some req ->
          uBody req = bufferConcat (resBody (smallFile (Some "unknown")))
          /\ uFilename req = "a.bin"
          /\ uUrl req = "https://zip.example" +:+ "/api/upload")
    /\ (resOk (smallFile (Some "unknown")) = true ->
        resBodyFails (smallFile (Some "unknown")) = false ->
        writesAll 0%nat (bufferConcat (resBody (smallFile (Some "unknown"))))
        = Written ->
        exists req, posted = Some req).
Proof.
  apply (unknown_length_single_post 0 2 demoStamp demoStamp nat acceptAll
           acceptUpload notAsked writesAll unlinksAll plainJoin writesAll
           removesAll "https://zip.example" demoStores "token"
           "https://cdn.example/a.bin" "a.bin" "1" true (smallFile None)
           (smallFile (Some "unknown")) (DownloadBody [blob 3]) 7
           (startWorld ∅ 0%nat 0%nat));
    vm_compute; reflexivity.
Defined.
